(** * The storage manager switch (src/backend/storage/smgr/smgr.c)

    A shallow embedding of the relation-handle registry of smgr.c: the
    hash table of SMgrRelation objects, the list of unowned relations, the
    owner back-references, the per-fork cache of block counts, and the
    routines that call into the storage backend, the buffer manager and the
    invalidation machinery.

    The C code is imperative and can leave a routine through
    [elog(ERROR, ...)]; it is embedded in a state-and-error monad in which
    the state reached so far survives an error.  Calls that leave smgr.c are
    recorded in a trace, and their outcome is chosen by an environment that
    every theorem quantifies over. *)

From Stdlib Require Import ZArith Lia.
From stdpp Require Import base option list gmap.

Local Open Scope Z_scope.

(** ** Data model *)

(** Modelled from the spec: the relation-file identifier half of a storage
    identity.  RelFileNode is declared in storage/relfilenode.h; smgr.c only
    copies it and compares it for equality as part of the hash key. *)
Definition RelFileNode : Type := N.

(** The backend-scope discriminator (an int in C). *)
Definition BackendId : Type := Z.

(** The hash key: [brnode.node = rnode; brnode.backend = backend]. *)
Record RelFileNodeBackend : Type := mkRelFileNodeBackend {
  node : RelFileNode;
  backend : BackendId
}.

#[global] Instance RelFileNodeBackend_eq_dec : EqDecision RelFileNodeBackend.
Proof. solve_decision. Defined.

(** BlockNumber is a 32-bit unsigned integer; arithmetic on it wraps. *)
Definition BlockNumber : Type := Z.

Definition uint32 (z : Z) : BlockNumber := z mod 2 ^ 32.

(** Modelled from the spec: the "unknown" block count.  storage/block.h
    defines InvalidBlockNumber as the all-ones 32-bit value. *)
Definition InvalidBlockNumber : BlockNumber := 4294967295.

(** Modelled from the spec: the durability classes.  The caller passes the
    value of pg_class.relpersistence, a character declared in
    catalog/pg_class.h, or 0 if unknown. *)
Definition RELPERSISTENCE_PERMANENT : Z := 112.
Definition RELPERSISTENCE_UNLOGGED : Z := 117.
Definition RELPERSISTENCE_TEMP : Z := 116.

(** ForkNumber is a C enum, hence an int. *)
Definition ForkNumber : Type := Z.

Definition MAIN_FORKNUM : ForkNumber := 0.
Definition FSM_FORKNUM : ForkNumber := 1.
Definition VISIBILITYMAP_FORKNUM : ForkNumber := 2.
Definition INIT_FORKNUM : ForkNumber := 3.

(** Modelled from the spec: the fork kinds are main data, free-space map,
    visibility map and init fork, declared in common/relpath.h; the largest
    fork number is that of the init fork. *)
Definition MAX_FORKNUM : ForkNumber := INIT_FORKNUM.

(** The forks visited by
    [for (forknum = 0; forknum <= MAX_FORKNUM; forknum++)]. *)
Definition all_forks : list ForkNumber := seqZ 0 (MAX_FORKNUM + 1).

(** A dispatch table [const f_smgr *]: the magnetic-disk table [smgr_md] of
    smgr.c, or a table supplied by a plugin through [smgr_hook]. *)
Inductive f_smgr : Type :=
  | smgr_md
  | smgr_plugin (id : N).

#[global] Instance f_smgr_eq_dec : EqDecision f_smgr.
Proof. solve_decision. Defined.

(** [SMgrRelation] is a pointer to a hash-table entry; [Ptr] is the address
    of a live or dead entry.  [Slot] is the address of an owner's
    [SMgrRelation] variable (the argument [SMgrRelation *owner]).  No
    address is NULL; a pointer that may be NULL is an [option]. *)
Definition Ptr : Type := positive.
Definition Slot : Type := positive.

(** The fields of SMgrRelationData that smgr.c reads or writes.  The
    embedded [dlist_node] is represented by membership in
    [unowned_relns]; [relpersistence] is a C char, 0 when unknown.  The
    field [smgr] is named [reln_smgr] here, [smgr] being also the function
    that selects the dispatch table. *)
Record SMgrRelationData : Type := mkSMgrRelationData {
  smgr_rnode : RelFileNodeBackend;
  smgr_owner : option Slot;
  smgr_targblock : BlockNumber;
  smgr_cached_nblocks : list BlockNumber;
  smgr_relpersistence : Z;
  reln_smgr : f_smgr
}.

Definition set_smgr_owner (o : option Slot) (d : SMgrRelationData) : SMgrRelationData :=
  {| smgr_rnode := smgr_rnode d; smgr_owner := o;
     smgr_targblock := smgr_targblock d;
     smgr_cached_nblocks := smgr_cached_nblocks d;
     smgr_relpersistence := smgr_relpersistence d;
     reln_smgr := reln_smgr d |}.

Definition set_smgr_relpersistence (c : Z) (d : SMgrRelationData) : SMgrRelationData :=
  {| smgr_rnode := smgr_rnode d; smgr_owner := smgr_owner d;
     smgr_targblock := smgr_targblock d;
     smgr_cached_nblocks := smgr_cached_nblocks d;
     smgr_relpersistence := c;
     reln_smgr := reln_smgr d |}.

Definition set_smgr_cached_nblocks (l : list BlockNumber) (d : SMgrRelationData) : SMgrRelationData :=
  {| smgr_rnode := smgr_rnode d; smgr_owner := smgr_owner d;
     smgr_targblock := smgr_targblock d;
     smgr_cached_nblocks := l;
     smgr_relpersistence := smgr_relpersistence d;
     reln_smgr := reln_smgr d |}.

(** ** Calls that leave smgr.c *)

Inductive Event : Type :=
  | Ev_smgr_open (impl : f_smgr) (reln : Ptr)
  | Ev_smgr_close (impl : f_smgr) (reln : Ptr) (forknum : ForkNumber)
  | Ev_smgr_unlink (impl : f_smgr) (rnode : RelFileNodeBackend)
      (forknum : ForkNumber) (isRedo : bool)
  | Ev_smgr_extend (impl : f_smgr) (reln : Ptr) (forknum : ForkNumber)
      (blocknum : BlockNumber) (skipFsync : bool)
  | Ev_smgr_nblocks (impl : f_smgr) (reln : Ptr) (forknum : ForkNumber)
  | Ev_smgr_truncate (impl : f_smgr) (reln : Ptr) (forknum : ForkNumber)
      (nblocks : BlockNumber)
  | Ev_DropRelFileNodesAllBuffers (rels : list Ptr) (nrels : Z)
  | Ev_DropRelFileNodeBuffers (reln : Ptr) (forknum : list ForkNumber)
      (nforks : Z) (nblocks : list BlockNumber)
  | Ev_CacheInvalidateSmgr (rnode : RelFileNodeBackend).

(** The world outside smgr.c.  [smgr_hook] is the plugin hook (NULL when
    [None]).  [ext_raises tr ev] tells whether the call [ev], made after the
    calls [tr], leaves through [ereport(ERROR)]; [ext_nblocks] is the answer
    of the backend's [smgr_nblocks]. *)
Record Environment : Type := mkEnvironment {
  smgr_hook : option (BackendId -> RelFileNode -> f_smgr);
  ext_raises : list Event -> Event -> bool;
  ext_nblocks : list Event -> f_smgr -> Ptr -> ForkNumber -> Z
}.

(** ** Process state *)

Record State : Type := mkState {
  SMgrRelationHash : option (gmap Ptr SMgrRelationData);
  unowned_relns : list Ptr;
  owner_cells : gmap Slot Ptr;
  InRecovery : bool;
  trace : list Event
}.

Definition set_hash (h : option (gmap Ptr SMgrRelationData)) (st : State) : State :=
  {| SMgrRelationHash := h; unowned_relns := unowned_relns st;
     owner_cells := owner_cells st; InRecovery := InRecovery st;
     trace := trace st |}.

Definition set_unowned (l : list Ptr) (st : State) : State :=
  {| SMgrRelationHash := SMgrRelationHash st; unowned_relns := l;
     owner_cells := owner_cells st; InRecovery := InRecovery st;
     trace := trace st |}.

Definition set_cells (c : gmap Slot Ptr) (st : State) : State :=
  {| SMgrRelationHash := SMgrRelationHash st; unowned_relns := unowned_relns st;
     owner_cells := c; InRecovery := InRecovery st;
     trace := trace st |}.

Definition set_trace (t : list Event) (st : State) : State :=
  {| SMgrRelationHash := SMgrRelationHash st; unowned_relns := unowned_relns st;
     owner_cells := owner_cells st; InRecovery := InRecovery st;
     trace := t |}.

(** The live entries: none before the table is created. *)
Definition entries (st : State) : gmap Ptr SMgrRelationData :=
  default ∅ (SMgrRelationHash st).

(** A backend that has not touched the storage manager yet. *)
Definition initial_state (in_recovery : bool) : State :=
  {| SMgrRelationHash := None; unowned_relns := [];
     owner_cells := ∅; InRecovery := in_recovery; trace := [] |}.

(** ** The state-and-error monad *)

Inductive Error : Type :=
  | relpersistence_mismatch (given stored : Z)
  | hashtable_corrupted
  | assertion_failed
  | external_error (ev : Event)
  | invalid_access.

Inductive Result (A : Type) : Type :=
  | Ok (a : A)
  | Raise (e : Error).
Arguments Ok {A} a.
Arguments Raise {A} e.

Definition M (A : Type) : Type := State -> Result A * State.

Definition ret {A} (a : A) : M A := fun st => (Ok a, st).

Definition bind {A B} (m : M A) (k : A -> M B) : M B :=
  fun st =>
    match m st with
    | (Ok a, st') => k a st'
    | (Raise e, st') => (Raise e, st')
    end.

Definition raise {A} (e : Error) : M A := fun st => (Raise e, st).

Definition gets {A} (f : State -> A) : M A := fun st => (Ok (f st), st).

Definition modify (f : State -> State) : M unit := fun st => (Ok tt, f st).

#[global] Instance M_ret : MRet M := @ret.
#[global] Instance M_bind : MBind M := fun A B k m => bind m k.

Fixpoint for_each {A} (l : list A) (body : A -> M unit) : M unit :=
  match l with
  | [] => ret tt
  | x :: l' => body x;; for_each l' body
  end.

(** The indices visited by [for (i = 0; i < n; i++)]. *)
Definition upto (n : Z) : list nat := seq 0 (Z.to_nat n).

(** [a[i]] on an argument array; reading past its end is undefined
    behaviour in C. *)
Definition index {A} (a : list A) (i : nat) : M A :=
  match a !! i with
  | Some x => ret x
  | None => raise invalid_access
  end.

(** ** Memory, list and table primitives *)

(** Reading through an [SMgrRelation]: the pointer must address a live
    entry; anything else is undefined behaviour in C and is reported as
    [invalid_access]. *)
Definition deref (reln : Ptr) : M SMgrRelationData :=
  fun st =>
    match entries st !! reln with
    | Some d => (Ok d, st)
    | None => (Raise invalid_access, st)
    end.

(** Writing the fields of a live entry. *)
Definition store (reln : Ptr) (d : SMgrRelationData) : M unit :=
  fun st =>
    match SMgrRelationHash st with
    | Some h =>
        if decide (is_Some (h !! reln))
        then (Ok tt, set_hash (Some (<[reln := d]> h)) st)
        else (Raise invalid_access, st)
    | None => (Raise invalid_access, st)
    end.

(** [*owner = v] for an owner's variable; [None] is NULL. *)
Definition write_cell (owner : Slot) (v : option Ptr) : M unit :=
  modify (fun st =>
    set_cells (match v with
               | Some p => <[owner := p]> (owner_cells st)
               | None => delete owner (owner_cells st)
               end) st).

(** Modelled from the spec: the side list of handles with no owner, the
    dlist of lib/ilist.h, kept in insertion order.  [dlist_delete] unlinks a
    node from the list it is in; on a node that is in no list, where the C
    code would follow stale links, it does nothing.  What is proved below
    about a routine that unlinks a handle is stated for states in which
    every handle without owner is in the list ([unowned_ok]), or does not
    speak of the list. *)
Definition dlist_push_tail (reln : Ptr) : M unit :=
  modify (fun st => set_unowned (unowned_relns st ++ [reln]) st).

Definition list_remove (reln : Ptr) (l : list Ptr) : list Ptr :=
  filter (fun q => q ≠ reln) l.

Definition dlist_delete (reln : Ptr) : M unit :=
  modify (fun st => set_unowned (list_remove reln (unowned_relns st)) st).

(** Modelled from the spec: the keyed table from storage identity to
    handle, the dynahash table of utils/hash/dynahash.c.  The table owns its
    entries; every entry stores its key, keys are compared by exact equality
    (HASH_BLOBS) and a lookup scans the entries for the key. *)
Definition hash_find (key : RelFileNodeBackend)
    (h : gmap Ptr SMgrRelationData) : option Ptr :=
  (fun r => fst (snd r)) <$>
    list_find (fun e => smgr_rnode (snd e) = key) (map_to_list h).

(** The entry HASH_ENTER hands out on a miss: only the key is filled in;
    smgropen assigns every other field before anything can go wrong. *)
Definition blank_entry (key : RelFileNodeBackend) : SMgrRelationData :=
  {| smgr_rnode := key; smgr_owner := None; smgr_targblock := 0;
     smgr_cached_nblocks := []; smgr_relpersistence := 0;
     reln_smgr := smgr_md |}.

(** [hash_search(SMgrRelationHash, &key, HASH_ENTER, &found)]: the entry
    with that key, or a new entry at an address that no live entry uses. *)
Definition hash_search_enter (key : RelFileNodeBackend) : M (Ptr * bool) :=
  fun st =>
    match SMgrRelationHash st with
    | None => (Raise invalid_access, st)
    | Some h =>
        match hash_find key h with
        | Some p => (Ok (p, true), st)
        | None =>
            let p := fresh (dom h) in
            (Ok (p, false), set_hash (Some (<[p := blank_entry key]> h)) st)
        end
    end.

(** [hash_search(SMgrRelationHash, &key, HASH_FIND, NULL)] *)
Definition hash_search_find (key : RelFileNodeBackend) : M (option Ptr) :=
  fun st =>
    match SMgrRelationHash st with
    | None => (Raise invalid_access, st)
    | Some h => (Ok (hash_find key h), st)
    end.

(** [hash_search(SMgrRelationHash, &key, HASH_REMOVE, NULL)] *)
Definition hash_search_remove (key : RelFileNodeBackend) : M (option Ptr) :=
  fun st =>
    match SMgrRelationHash st with
    | None => (Raise invalid_access, st)
    | Some h =>
        match hash_find key h with
        | Some p => (Ok (Some p), set_hash (Some (delete p h)) st)
        | None => (Ok None, st)
        end
    end.

(** [a[i]] and [a[i] = v] on the per-fork array; an index outside the array
    is undefined behaviour in C. *)
Definition array_get (a : list BlockNumber) (i : ForkNumber) : option BlockNumber :=
  if decide (0 <= i) then a !! Z.to_nat i else None.

Definition array_set (a : list BlockNumber) (i : ForkNumber) (v : BlockNumber)
    : option (list BlockNumber) :=
  if decide (0 <= i < Z.of_nat (length a)) then Some (<[Z.to_nat i := v]> a) else None.

Definition get_cached_nblocks (reln : Ptr) (forknum : ForkNumber) : M BlockNumber :=
  d ← deref reln;
  match array_get (smgr_cached_nblocks d) forknum with
  | Some v => ret v
  | None => raise invalid_access
  end.

Definition set_cached_nblocks (reln : Ptr) (forknum : ForkNumber)
    (v : BlockNumber) : M unit :=
  d ← deref reln;
  match array_set (smgr_cached_nblocks d) forknum v with
  | Some a => store reln (set_smgr_cached_nblocks a d)
  | None => raise invalid_access
  end.

(** ** The routines of smgr.c *)

Section Smgr.

Variable env : Environment.

(** A call that leaves smgr.c: it is appended to the trace, and raises
    when the environment says so. *)
Definition call (ev : Event) : M unit :=
  fun st =>
    let st' := set_trace (trace st ++ [ev]) st in
    if ext_raises env (trace st) ev
    then (Raise (external_error ev), st')
    else (Ok tt, st').

Definition smgr_standard (backend : BackendId) (rnode : RelFileNode) : f_smgr :=
  smgr_md.

Definition smgr (backend : BackendId) (rnode : RelFileNode) : f_smgr :=
  match smgr_hook env with
  | Some hook => hook backend rnode
  | None => smgr_standard backend rnode
  end.

(** smgropen() -- Return an SMgrRelation object, creating it if need be. *)
Definition smgropen (rnode : RelFileNode) (backend : BackendId)
    (relpersistence : Z) : M Ptr :=
  h ← gets SMgrRelationHash;
  (if h is None
   then modify (fun st => set_unowned [] (set_hash (Some ∅) st))
   else ret tt);;
  let brnode := {| node := rnode; backend := backend |} in
  r ← hash_search_enter brnode;
  let reln := fst r in
  (if negb (snd r) then
     store reln
       {| smgr_rnode := brnode;
          smgr_owner := None;
          smgr_targblock := InvalidBlockNumber;
          smgr_cached_nblocks := (fun _ => InvalidBlockNumber) <$> all_forks;
          smgr_relpersistence := relpersistence;
          reln_smgr := smgr backend rnode |};;
     call (Ev_smgr_open (smgr backend rnode) reln);;
     dlist_push_tail reln
   else
     d ← deref reln;
     if decide (smgr_relpersistence d = 0)
     then store reln (set_smgr_relpersistence relpersistence d)
     else if negb (bool_decide (relpersistence = 0)
                   || bool_decide (smgr_relpersistence d = relpersistence))
          then raise (relpersistence_mismatch relpersistence (smgr_relpersistence d))
          else ret tt);;
  ret reln.

(** smgrsetowner() -- Establish a long-lived reference to an SMgrRelation
    object.  [Assert(owner != NULL)] holds by the type of [owner]. *)
Definition smgrsetowner (owner : Slot) (reln : Ptr) : M unit :=
  d ← deref reln;
  (match smgr_owner d with
   | Some old => write_cell old None
   | None => dlist_delete reln
   end);;
  store reln (set_smgr_owner (Some owner) d);;
  write_cell owner (Some reln).

(** smgrclearowner() -- Remove long-lived reference to an SMgrRelation
    object if one exists. *)
Definition smgrclearowner (owner : Slot) (reln : Ptr) : M unit :=
  d ← deref reln;
  if decide (smgr_owner d ≠ Some owner) then ret tt
  else
    write_cell owner None;;
    store reln (set_smgr_owner None d);;
    dlist_push_tail reln.

(** smgrclose() -- Close and delete an SMgrRelation object. *)
Definition smgrclose (reln : Ptr) : M unit :=
  d ← deref reln;
  for_each all_forks (fun forknum => call (Ev_smgr_close (reln_smgr d) reln forknum));;
  let owner := smgr_owner d in
  (if owner is None then dlist_delete reln else ret tt);;
  r ← hash_search_remove (smgr_rnode d);
  (if r is None then raise hashtable_corrupted else ret tt);;
  (if owner is Some o then write_cell o None else ret tt).

(** smgrrelease() -- Release all resources used by this object. *)
Definition smgrrelease (reln : Ptr) : M unit :=
  for_each all_forks (fun forknum =>
    d ← deref reln;
    call (Ev_smgr_close (reln_smgr d) reln forknum);;
    set_cached_nblocks reln forknum InvalidBlockNumber).

(** smgrclosenode() -- Close SMgrRelation object for given RelFileNode, if
    one exists. *)
Definition smgrclosenode (rnode : RelFileNodeBackend) : M unit :=
  h ← gets SMgrRelationHash;
  if h is None then ret tt
  else
    r ← hash_search_find rnode;
    if r is Some reln then smgrclose reln else ret tt.

(** The first loop of smgrdounlinkall: remember the identity of each
    relation in [rnodes] and close its forks at smgr level. *)
Fixpoint close_and_collect (rels : list Ptr) (idx : list nat)
    : M (list RelFileNodeBackend) :=
  match idx with
  | [] => ret []
  | i :: idx' =>
      rel ← index rels i;
      d ← deref rel;
      let rnode := smgr_rnode d in
      for_each all_forks (fun forknum =>
        call (Ev_smgr_close (reln_smgr d) rel forknum));;
      rnodes ← close_and_collect rels idx';
      ret (rnode :: rnodes)
  end.

(** smgrdounlinkall() -- Immediately unlink all forks of all given
    relations.  [rels] holds the [nrels] elements of the argument array. *)
Definition smgrdounlinkall (rels : list Ptr) (nrels : Z) (isRedo : bool) : M unit :=
  if decide (nrels = 0) then ret tt
  else
    call (Ev_DropRelFileNodesAllBuffers rels nrels);;
    rnodes ← close_and_collect rels (upto nrels);
    for_each (upto nrels) (fun i =>
      rnode ← index rnodes i;
      call (Ev_CacheInvalidateSmgr rnode));;
    for_each (upto nrels) (fun i =>
      rel ← index rels i;
      rnode ← index rnodes i;
      d ← deref rel;
      for_each all_forks (fun forknum =>
        call (Ev_smgr_unlink (reln_smgr d) rnode forknum isRedo))).

(** smgrextend() -- Add a new block to a file.  The page in [buffer] is
    only handed on to the backend. *)
Definition smgrextend (reln : Ptr) (forknum : ForkNumber)
    (blocknum : BlockNumber) (skipFsync : bool) : M unit :=
  d ← deref reln;
  call (Ev_smgr_extend (reln_smgr d) reln forknum blocknum skipFsync);;
  c ← get_cached_nblocks reln forknum;
  if decide (c = blocknum)
  then set_cached_nblocks reln forknum (uint32 (blocknum + 1))
  else set_cached_nblocks reln forknum InvalidBlockNumber.

(** smgrnblocks_cached() -- Get the cached number of blocks in the supplied
    relation.  The array is read only when [InRecovery] holds. *)
Definition smgrnblocks_cached (reln : Ptr) (forknum : ForkNumber) : M BlockNumber :=
  in_recovery ← gets InRecovery;
  if in_recovery : bool then
    c ← get_cached_nblocks reln forknum;
    if decide (c ≠ InvalidBlockNumber) then ret c else ret InvalidBlockNumber
  else ret InvalidBlockNumber.

(** The backend's [smgr_nblocks]: a call that returns a BlockNumber. *)
Definition call_nblocks (impl : f_smgr) (reln : Ptr) (forknum : ForkNumber)
    : M BlockNumber :=
  tr ← gets trace;
  call (Ev_smgr_nblocks impl reln forknum);;
  ret (uint32 (ext_nblocks env tr impl reln forknum)).

(** smgrnblocks() -- Calculate the number of blocks in the supplied
    relation. *)
Definition smgrnblocks (reln : Ptr) (forknum : ForkNumber) : M BlockNumber :=
  result ← smgrnblocks_cached reln forknum;
  if decide (result ≠ InvalidBlockNumber) then ret result
  else
    d ← deref reln;
    result ← call_nblocks (reln_smgr d) reln forknum;
    set_cached_nblocks reln forknum result;;
    ret result.

(** One iteration of the loop of smgrtruncate. *)
Definition truncate_fork (reln : Ptr) (forknum : list ForkNumber)
    (nblocks : list BlockNumber) (i : nat) : M unit :=
  f ← index forknum i;
  set_cached_nblocks reln f InvalidBlockNumber;;
  d ← deref reln;
  n ← index nblocks i;
  call (Ev_smgr_truncate (reln_smgr d) reln f n);;
  set_cached_nblocks reln f n.

(** smgrtruncate() -- Truncate the given forks of supplied relation to each
    specified numbers of blocks. *)
Definition smgrtruncate (reln : Ptr) (forknum : list ForkNumber) (nforks : Z)
    (nblocks : list BlockNumber) : M unit :=
  call (Ev_DropRelFileNodeBuffers reln forknum nforks nblocks);;
  d ← deref reln;
  call (Ev_CacheInvalidateSmgr (smgr_rnode d));;
  for_each (upto nforks) (truncate_fork reln forknum nblocks).

(** AtEOXact_SMgr -- all transient SMgrRelation objects are closed.
    [dlist_foreach_modify] fetches the successor of a node before the body
    runs, and the body unlinks only the node it is visiting, so the nodes
    visited are those in the list on entry.  The Assert is kept as an error
    that ends the sweep; it cannot trip while the list holds only handles
    without owner. *)
Definition AtEOXact_SMgr : M unit :=
  l ← gets unowned_relns;
  for_each l (fun rel =>
    d ← deref rel;
    (if smgr_owner d is Some _ then raise assertion_failed else ret tt);;
    smgrclose rel).

(** Modelled from the spec: a sequential scan of the keyed table
    (hash_seq_init and hash_seq_search of utils/hash/dynahash.c), which
    visits every entry once.  The entries visited are those in the table
    when the scan starts; the body of the loops below removes no entry other
    than the one it is visiting. *)
Definition hash_seq (st : State) : list Ptr := fst <$> map_to_list (entries st).

(** smgrreleaseall() -- Release resources used by all objects. *)
Definition smgrreleaseall : M unit :=
  h ← gets SMgrRelationHash;
  if h is None then mret tt
  else
    l ← gets hash_seq;
    for_each l smgrrelease.

(** smgrcloseall() -- Close all existing SMgrRelation objects. *)
Definition smgrcloseall : M unit :=
  h ← gets SMgrRelationHash;
  if h is None then mret tt
  else
    l ← gets hash_seq;
    for_each l smgrclose.

(** ProcessBarrierSmgrRelease -- release all open files when ordered to by
    a ProcSignalBarrier. *)
Definition ProcessBarrierSmgrRelease : M bool :=
  smgrreleaseall;; mret true.

End Smgr.

(** ** Vocabulary of the properties *)

(** At most one entry per storage identity. *)
Definition keys_unique (h : gmap Ptr SMgrRelationData) : Prop :=
  ∀ p q d d', h !! p = Some d → h !! q = Some d' →
    smgr_rnode d = smgr_rnode d' → p = q.

(** The entry smgropen builds on a miss. *)
Definition fresh_entry (env : Environment) (rnode : RelFileNode) (backend : BackendId)
    (relpersistence : Z) : SMgrRelationData :=
  {| smgr_rnode := {| node := rnode; backend := backend |};
     smgr_owner := None;
     smgr_targblock := InvalidBlockNumber;
     smgr_cached_nblocks := (fun _ => InvalidBlockNumber) <$> all_forks;
     smgr_relpersistence := relpersistence;
     reln_smgr := smgr env backend rnode |}.

(** The table smgropen works on: created empty on first use. *)
Definition table_of (st : State) : State :=
  match SMgrRelationHash st with
  | None => set_unowned [] (set_hash (Some ∅) st)
  | Some _ => st
  end.

(** The cached block count of a fork of a handle, as a reader of the state
    sees it: [None] when the pointer is dead or the fork number is outside
    the array. *)
Definition cached_nblocks (st : State) (reln : Ptr) (forknum : ForkNumber)
    : option BlockNumber :=
  d ← entries st !! reln; array_get (smgr_cached_nblocks d) forknum.

(** The backend truncate of fork [forknum] of [reln] was invoked among the
    calls [evs]. *)
Definition truncate_invoked (reln : Ptr) (forknum : ForkNumber)
    (evs : list Event) : Prop :=
  ∃ impl n, Ev_smgr_truncate impl reln forknum n ∈ evs.

(** [plays env m script post st]: run from [st], [m] only makes calls; the
    calls it makes are a prefix of [script], all of [script] when it
    returns, and then its result satisfies [post]; it raises only the error
    of the last call it made, which the environment made raise. *)
Definition plays (env : Environment) {A} (m : M A) (script : list Event)
    (post : A → Prop) (st : State) : Prop :=
  ∃ evs, snd (m st) = set_trace (trace st ++ evs) st
    ∧ evs `prefix_of` script
    ∧ (∀ a, fst (m st) = Ok a → evs = script ∧ post a)
    ∧ (∀ e, fst (m st) = Raise e →
         ∃ before ev, evs = before ++ [ev] ∧ e = external_error ev
           ∧ ext_raises env (trace st ++ before) ev = true).

(** The handle at [rels[i]] with the entry it points to. *)
Definition handle_at (st : State) (rels : list Ptr) (i : nat)
    : option (Ptr * SMgrRelationData) :=
  p ← rels !! i; d ← entries st !! p; Some (p, d).

Definition handles (st : State) (rels : list Ptr) (nrels : Z)
    : list (Ptr * SMgrRelationData) :=
  omap (handle_at st rels) (upto nrels).

(** The backend calls that close, respectively unlink, every fork. *)
Definition close_events (h : Ptr * SMgrRelationData) : list Event :=
  (fun forknum => Ev_smgr_close (reln_smgr (snd h)) (fst h) forknum) <$> all_forks.

Definition unlink_events (isRedo : bool) (h : Ptr * SMgrRelationData) : list Event :=
  (fun forknum => Ev_smgr_unlink (reln_smgr (snd h)) (smgr_rnode (snd h)) forknum isRedo)
    <$> all_forks.

Definition invalidate_event (h : Ptr * SMgrRelationData) : Event :=
  Ev_CacheInvalidateSmgr (smgr_rnode (snd h)).

(** The four steps of a complete smgrdounlinkall, in order: drop the
    buffers, close every fork of every handle, broadcast one invalidation
    per handle, unlink every fork of every handle. *)
Definition unlink_script (st : State) (rels : list Ptr) (nrels : Z)
    (isRedo : bool) : list Event :=
  [Ev_DropRelFileNodesAllBuffers rels nrels]
  ++ flat_map close_events (handles st rels nrels)
  ++ (invalidate_event <$> handles st rels nrels)
  ++ flat_map (unlink_events isRedo) (handles st rels nrels).

Definition is_unlink (ev : Event) : Prop :=
  match ev with Ev_smgr_unlink _ _ _ _ => True | _ => False end.

(** The unowned list holds, once each, exactly the live handles without
    owner. *)
Definition unowned_ok (st : State) : Prop :=
  NoDup (unowned_relns st)
  ∧ ∀ p, p ∈ unowned_relns st ↔
         ∃ d, entries st !! p = Some d ∧ smgr_owner d = None.

(** An owner's variable that holds a handle is the owner of that handle. *)
Definition cells_ok (st : State) : Prop :=
  ∀ o p, owner_cells st !! o = Some p →
         ∃ d, entries st !! p = Some d ∧ smgr_owner d = Some o.

(** The owner of a handle holds that handle. *)
Definition owners_ok (st : State) : Prop :=
  ∀ p d o, entries st !! p = Some d → smgr_owner d = Some o →
           owner_cells st !! o = Some p.

(** A consistent registry: one entry per identity, every handle either in
    the unowned list or bound one-to-one to an owner. *)
Definition registry_ok (st : State) : Prop :=
  keys_unique (entries st) ∧ unowned_ok st ∧ cells_ok st ∧ owners_ok st.


(** What a handle is, apart from its cached block counts: identity, owner,
    target block, persistence, dispatch table and size of the array. *)
Definition skeleton (d : SMgrRelationData)
    : RelFileNodeBackend * option Slot * BlockNumber * Z * f_smgr * nat :=
  (smgr_rnode d, smgr_owner d, smgr_targblock d, smgr_relpersistence d,
   reln_smgr d, length (smgr_cached_nblocks d)).

(** [same_handles st st']: the two states have the same handles at the same
    addresses, the same unowned list and the same owners' variables; they
    may differ in cached block counts and in the trace. *)
Definition same_handles (st st' : State) : Prop :=
  unowned_relns st' = unowned_relns st
  ∧ owner_cells st' = owner_cells st
  ∧ InRecovery st' = InRecovery st
  ∧ (is_Some (SMgrRelationHash st') ↔ is_Some (SMgrRelationHash st))
  ∧ ∀ q, skeleton <$> entries st' !! q = skeleton <$> entries st !! q.

(** [frames m]: however [m] ends, it leaves the handles as they were. *)
Definition frames {A} (m : M A) : Prop :=
  ∀ st r st', m st = (r, st') → same_handles st st'.

(** The routines of smgr.c that work on the registry, as calls a backend can
    make one after the other. *)
Inductive Routine : Type :=
  | Do_smgropen (rnode : RelFileNode) (backend : BackendId) (relpersistence : Z)
  | Do_smgrsetowner (owner : Slot) (reln : Ptr)
  | Do_smgrclearowner (owner : Slot) (reln : Ptr)
  | Do_smgrclose (reln : Ptr)
  | Do_smgrrelease (reln : Ptr)
  | Do_smgrreleaseall
  | Do_smgrcloseall
  | Do_smgrclosenode (rnode : RelFileNodeBackend)
  | Do_smgrdounlinkall (rels : list Ptr) (nrels : Z) (isRedo : bool)
  | Do_smgrextend (reln : Ptr) (forknum : ForkNumber) (blocknum : BlockNumber)
      (skipFsync : bool)
  | Do_smgrnblocks (reln : Ptr) (forknum : ForkNumber)
  | Do_smgrtruncate (reln : Ptr) (forknum : list ForkNumber) (nforks : Z)
      (nblocks : list BlockNumber)
  | Do_AtEOXact_SMgr
  | Do_ProcessBarrierSmgrRelease.

(** The state a routine leaves, whether it returns or raises. *)
Definition run_routine (env : Environment) (c : Routine) (st : State) : State :=
  match c with
  | Do_smgropen rn be relpersistence =>
      snd (smgropen env rn be relpersistence st)
  | Do_smgrsetowner owner reln => snd (smgrsetowner owner reln st)
  | Do_smgrclearowner owner reln => snd (smgrclearowner owner reln st)
  | Do_smgrclose reln => snd (smgrclose env reln st)
  | Do_smgrrelease reln => snd (smgrrelease env reln st)
  | Do_smgrreleaseall => snd (smgrreleaseall env st)
  | Do_smgrcloseall => snd (smgrcloseall env st)
  | Do_smgrclosenode rn => snd (smgrclosenode env rn st)
  | Do_smgrdounlinkall rels nrels isRedo =>
      snd (smgrdounlinkall env rels nrels isRedo st)
  | Do_smgrextend reln forknum blocknum skipFsync =>
      snd (smgrextend env reln forknum blocknum skipFsync st)
  | Do_smgrnblocks reln forknum => snd (smgrnblocks env reln forknum st)
  | Do_smgrtruncate reln forknum nforks nblocks =>
      snd (smgrtruncate env reln forknum nforks nblocks st)
  | Do_AtEOXact_SMgr => snd (AtEOXact_SMgr env st)
  | Do_ProcessBarrierSmgrRelease => snd (ProcessBarrierSmgrRelease env st)
  end.

Definition run_routines (env : Environment) (cs : list Routine) (st : State) : State :=
  fold_left (fun st c => run_routine env c st) cs st.

(** The routines that read and write blocks, or release files, without
    opening or closing a handle. *)
Definition block_routine (c : Routine) : bool :=
  match c with
  | Do_smgrextend _ _ _ _ | Do_smgrnblocks _ _ | Do_smgrtruncate _ _ _ _
  | Do_smgrrelease _ | Do_smgrreleaseall | Do_ProcessBarrierSmgrRelease
  | Do_smgrdounlinkall _ _ _ => true
  | _ => false
  end.

(** [only_calls m]: however [m] ends, the state it leaves differs from the
    one it started in by the calls made. *)
Definition only_calls {A} (m : M A) : Prop :=
  ∀ st r st', m st = (r, st') → ∃ evs, st' = set_trace (trace st ++ evs) st.

(** Every handle has one cached block count per fork. *)
Definition well_sized (st : State) : Prop :=
  ∀ p d, entries st !! p = Some d →
         length (smgr_cached_nblocks d) = length all_forks.

(** An environment whose backend fails to close the visibility map. *)
Definition failing_close_env : Environment :=
  {| smgr_hook := None;
     ext_raises := fun _ ev =>
       match ev with
       | Ev_smgr_close _ _ forknum => bool_decide (forknum = VISIBILITYMAP_FORKNUM)
       | _ => false
       end;
     ext_nblocks := fun _ _ _ _ => 7 |}.

(** An environment whose backend fails to open a relation. *)
Definition failing_open_env : Environment :=
  {| smgr_hook := None;
     ext_raises := fun _ ev =>
       match ev with Ev_smgr_open _ _ => true | _ => false end;
     ext_nblocks := fun _ _ _ _ => 7 |}.

(** An environment in which every fork has 4294967294 blocks, the largest
    count there is. *)
Definition full_fork_env : Environment :=
  {| smgr_hook := None;
     ext_raises := fun _ _ => false;
     ext_nblocks := fun _ _ _ _ => 4294967294 |}.

(** An environment whose backend fails to extend a relation. *)
Definition failing_extend_env : Environment :=
  {| smgr_hook := None;
     ext_raises := fun _ ev =>
       match ev with Ev_smgr_extend _ _ _ _ _ => true | _ => false end;
     ext_nblocks := fun _ _ _ _ => 7 |}.

(** The part of consistency that no routine of smgr.c can break: one entry
    per identity, and every variable that holds a handle is the owner
    recorded in that handle. *)
Definition always_ok (st : State) : Prop :=
  keys_unique (entries st) ∧ cells_ok st.

(** The rule the callers of smgrsetowner follow: the variable that takes a
    handle is NULL or already holds that handle. *)
Definition disciplined (st : State) (c : Routine) : Prop :=
  match c with
  | Do_smgrsetowner owner reln =>
      owner_cells st !! owner = None ∨ owner_cells st !! owner = Some reln
  | _ => True
  end.

(** A sequence of calls in which every call follows the rule. *)
Fixpoint disciplined_run (env : Environment) (cs : list Routine) (st : State) : Prop :=
  match cs with
  | [] => True
  | c :: cs' => disciplined st c ∧ disciplined_run env cs' (run_routine env c st)
  end.

(** ** Concrete environments and states for the examples *)

(** An environment without plugin in which no call raises and every fork
    has seven blocks. *)
Definition quiet_env : Environment :=
  {| smgr_hook := None;
     ext_raises := fun _ _ => false;
     ext_nblocks := fun _ _ _ _ => 7 |}.

(** The state after [smgropen(rnode 5, backend 1, 0)] in a fresh backend:
    one unowned handle of unknown persistence. *)
Definition one_handle_state : State :=
  snd (smgropen quiet_env 5%N 1 0 (initial_state false)).

(** The same handle once its persistence is known to be permanent. *)
Definition permanent_handle_state : State :=
  snd (smgropen quiet_env 5%N 1 RELPERSISTENCE_PERMANENT one_handle_state).

(** The handle of [one_handle_state] after smgrnblocks has asked the
    backend for the sizes of the main fork and of the free-space map. *)
Definition sized_handle_state : State :=
  snd (smgrnblocks quiet_env 1%positive FSM_FORKNUM
         (snd (smgrnblocks quiet_env 1%positive MAIN_FORKNUM one_handle_state))).

(** The same handle, opened by a backend that replays the log. *)
Definition recovery_handle_state : State :=
  snd (smgropen quiet_env 5%N 1 0 (initial_state true)).

(** An environment whose backend fails every truncate. *)
Definition failing_truncate_env : Environment :=
  {| smgr_hook := None;
     ext_raises := fun _ ev =>
       match ev with Ev_smgr_truncate _ _ _ _ => true | _ => false end;
     ext_nblocks := fun _ _ _ _ => 7 |}.

(** Two handles, for relations 5 and 6. *)
Definition two_handles_state : State :=
  snd (smgropen quiet_env 6%N 1 0 one_handle_state).

(** Of the two handles, the first is owned by the variable at address 10. *)
Definition owned_handle_state : State :=
  snd (smgrsetowner 10%positive 1%positive two_handles_state).

(** * Properties *)

(** ** Facts about the primitives *)

Lemma hash_find_Some key h p :
  hash_find key h = Some p → ∃ d, h !! p = Some d ∧ smgr_rnode d = key.
Proof.
  unfold hash_find. intros Hf.
  destruct (list_find _ _) as [[i [q d]]|] eqn:E; simplify_eq/=.
  apply list_find_Some in E as (Hl & Hk & _).
  exists d. split; [|done].
  apply elem_of_map_to_list, list_elem_of_lookup. eauto.
Qed.

Lemma hash_find_None key h :
  hash_find key h = None ↔ ∀ p d, h !! p = Some d → smgr_rnode d ≠ key.
Proof.
  unfold hash_find. rewrite fmap_None, list_find_None, Forall_forall. split.
  - intros H p d Hp. apply (H (p, d)). by apply elem_of_map_to_list.
  - intros H [p d] Hin. apply (H p d). by apply elem_of_map_to_list.
Qed.

Lemma hash_find_is_Some key h p d :
  h !! p = Some d → smgr_rnode d = key → is_Some (hash_find key h).
Proof.
  intros Hp Hk. destruct (hash_find key h) eqn:E; [eauto|].
  rewrite hash_find_None in E. by destruct (E p d Hp).
Qed.

Lemma hash_find_unique h p d :
  keys_unique h → h !! p = Some d → hash_find (smgr_rnode d) h = Some p.
Proof.
  intros Hu Hp.
  destruct (hash_find_is_Some (smgr_rnode d) h p d Hp eq_refl) as [q Hq].
  destruct (hash_find_Some _ _ _ Hq) as (d' & Hq' & Hk).
  by rewrite (Hu p q d d' Hp Hq' (eq_sym Hk)).
Qed.

Lemma keys_unique_empty : keys_unique ∅.
Proof. intros p q d d' Hp. by rewrite lookup_empty in Hp. Qed.

Lemma keys_unique_insert_fresh h p d :
  keys_unique h → hash_find (smgr_rnode d) h = None →
  keys_unique (<[p := d]> h).
Proof.
  intros Hu Hn. rewrite hash_find_None in Hn.
  intros a b da db. rewrite !lookup_insert.
  repeat case_decide; intros; simplify_eq; try done.
  - by destruct (Hn b db).
  - by destruct (Hn a da).
  - eauto.
Qed.

Lemma keys_unique_insert_same_key h p d d' :
  keys_unique h → h !! p = Some d → smgr_rnode d' = smgr_rnode d →
  keys_unique (<[p := d']> h).
Proof.
  intros Hu Hp Hk a b da db. rewrite !lookup_insert.
  repeat case_decide; intros; simplify_eq; try done.
  - rewrite Hk in *. eauto.
  - rewrite Hk in *. eauto.
  - eauto.
Qed.

Lemma keys_unique_delete h p :
  keys_unique h → keys_unique (delete p h).
Proof.
  intros Hu a b da db. rewrite !lookup_delete.
  repeat case_decide; intros; simplify_eq. eauto.
Qed.

(** ** Reading and writing entries *)

Lemma entries_set_hash h st : entries (set_hash (Some h) st) = h.
Proof. done. Qed.

Lemma bind_eq {A B} (m : M A) (k : A → M B) st :
  (m ≫= k) st =
    match m st with
    | (Ok a, st') => k a st'
    | (Raise e, st') => (Raise e, st')
    end.
Proof. done. Qed.

Lemma deref_eq reln st :
  deref reln st =
    match entries st !! reln with
    | Some d => (Ok d, st)
    | None => (Raise invalid_access, st)
    end.
Proof. done. Qed.

Lemma deref_live reln st d :
  entries st !! reln = Some d → deref reln st = (Ok d, st).
Proof. intros H. by rewrite deref_eq, H. Qed.

Lemma store_live reln st d d' :
  entries st !! reln = Some d →
  store reln d' st = (Ok tt, set_hash (Some (<[reln := d']> (entries st))) st).
Proof.
  unfold store, entries. intros H.
  destruct (SMgrRelationHash st) as [h|]; simpl in *.
  - by rewrite decide_True by eauto.
  - by rewrite lookup_empty in H.
Qed.

Lemma array_set_is_Some a i v :
  is_Some (array_get a i) → is_Some (array_set a i v).
Proof.
  unfold array_get, array_set. intros [c H]. case_decide; [|done].
  apply lookup_lt_Some in H. rewrite decide_True by lia. eauto.
Qed.

Lemma array_get_set a i v a' j :
  array_set a i v = Some a' →
  array_get a' j = if decide (i = j) then Some v else array_get a j.
Proof.
  unfold array_get, array_set. intros H. case_decide; simplify_eq.
  destruct (decide (i = j)) as [->|Hne].
  - rewrite decide_True by lia. apply list_lookup_insert_eq. lia.
  - case_decide; [|done]. apply list_lookup_insert_ne. lia.
Qed.


Lemma get_cached_nblocks_eq reln forknum st :
  get_cached_nblocks reln forknum st =
    match cached_nblocks st reln forknum with
    | Some c => (Ok c, st)
    | None => (Raise invalid_access, st)
    end.
Proof.
  unfold get_cached_nblocks, cached_nblocks. rewrite bind_eq, deref_eq.
  destruct (entries st !! reln) as [d|]; simpl; [|done].
  by destruct (array_get _ _).
Qed.

(** A successful write of one cached count: the state afterwards differs
    in that count only. *)
Lemma set_cached_nblocks_live reln forknum v st :
  is_Some (cached_nblocks st reln forknum) →
  ∃ st', set_cached_nblocks reln forknum v st = (Ok tt, st')
    ∧ trace st' = trace st
    ∧ InRecovery st' = InRecovery st
    ∧ (∀ q g, cached_nblocks st' q g =
         if decide (q = reln ∧ g = forknum) then Some v
         else cached_nblocks st q g)
    ∧ (∀ q, reln_smgr <$> entries st' !! q = reln_smgr <$> entries st !! q)
    ∧ (∀ q, smgr_rnode <$> entries st' !! q = smgr_rnode <$> entries st !! q).
Proof.
  unfold cached_nblocks. intros [c Hc].
  destruct (entries st !! reln) as [d|] eqn:Hd; simplify_eq/=.
  destruct (array_set_is_Some _ _ v (mk_is_Some _ _ Hc)) as [a Ha].
  eexists. unfold set_cached_nblocks. rewrite bind_eq, (deref_live _ _ _ Hd), Ha.
  rewrite (store_live _ _ _ _ Hd). split; [done|].
  split; [done|]. split; [done|]. split; [|split].
  - intros q g. rewrite entries_set_hash, lookup_insert.
    destruct (decide (reln = q)) as [->|Hne]; simpl.
    + rewrite (array_get_set _ _ _ _ g Ha), Hd. simpl.
      destruct (decide (forknum = g)) as [->|Hg].
      * by rewrite decide_True.
      * rewrite decide_False; [done|]. intros [_ ?]. done.
    + rewrite decide_False; [done|]. intros [? _]. done.
  - intros q. rewrite entries_set_hash, lookup_insert.
    case_decide; subst; simpl; by rewrite ?Hd.
  - intros q. rewrite entries_set_hash, lookup_insert.
    case_decide; subst; simpl; by rewrite ?Hd.
Qed.

Lemma set_cached_nblocks_dead reln forknum v st :
  cached_nblocks st reln forknum = None →
  set_cached_nblocks reln forknum v st = (Raise invalid_access, st).
Proof.
  unfold cached_nblocks, set_cached_nblocks. intros Hc.
  rewrite bind_eq, deref_eq.
  destruct (entries st !! reln) as [d|] eqn:Hd; simpl in *; [|done].
  unfold array_set, array_get in *. case_decide.
  - apply lookup_ge_None in Hc. by rewrite decide_False by lia.
  - by rewrite decide_False by lia.
Qed.

(** ** The equations of smgropen *)

Ltac unfold_monad :=
  unfold mbind, M_bind, mret, M_ret, bind, ret, raise, gets, modify in *.

Section Facts.

Variable env : Environment.



Lemma smgropen_found rnode backend relpersistence st p d :
  hash_find {| node := rnode; backend := backend |} (entries st) = Some p →
  entries st !! p = Some d →
  smgropen env rnode backend relpersistence st =
    if decide (smgr_relpersistence d = 0)
    then (Ok p, set_hash (Some (<[p := set_smgr_relpersistence relpersistence d]>
                                   (entries st))) st)
    else if bool_decide (relpersistence = 0)
            || bool_decide (smgr_relpersistence d = relpersistence)
         then (Ok p, st)
         else (Raise (relpersistence_mismatch relpersistence
                        (smgr_relpersistence d)), st).
Proof.
  intros Hf Hp. unfold smgropen, hash_search_enter, deref, store. unfold_monad.
  unfold entries in *.
  destruct (SMgrRelationHash st) as [h|] eqn:Eh; simpl in *.
  2:{ by rewrite lookup_empty in Hp. }
  rewrite Eh, Hf. simpl. unfold entries. rewrite Eh. simpl. rewrite Hp.
  case_decide; simpl.
  - rewrite Eh. rewrite decide_True by eauto. done.
  - by destruct (_ || _).
Qed.

Lemma smgropen_miss rnode backend relpersistence st :
  hash_find {| node := rnode; backend := backend |} (entries st) = None →
  let p := fresh (dom (entries st)) in
  let impl := smgr env backend rnode in
  let st1 := set_trace (trace st ++ [Ev_smgr_open impl p])
               (set_hash (Some (<[p := fresh_entry env rnode backend relpersistence]>
                                  (entries st))) (table_of st)) in
  smgropen env rnode backend relpersistence st =
    if ext_raises env (trace st) (Ev_smgr_open impl p)
    then (Raise (external_error (Ev_smgr_open impl p)), st1)
    else (Ok p, set_unowned (unowned_relns (table_of st) ++ [p]) st1).
Proof.
  intros Hf p impl st1.
  unfold smgropen, hash_search_enter, deref, store, call, dlist_push_tail.
  unfold_monad. subst st1 p impl. unfold table_of, fresh_entry, entries in *.
  destruct (SMgrRelationHash st) as [h|] eqn:Eh; simpl in *.
  - rewrite Eh, Hf. simpl. rewrite decide_True by (rewrite lookup_insert_eq; eauto).
    rewrite insert_insert_eq. simpl.
    by destruct (ext_raises _ _ _).
  - rewrite Hf. simpl. rewrite decide_True by (rewrite lookup_insert_eq; eauto).
    rewrite insert_insert_eq. simpl.
    by destruct (ext_raises _ _ _).
Qed.

(** C4: on an existing handle, smgropen with a concrete persistence sets
    the stored persistence when that is unknown (0), succeeds and changes
    nothing when the two are equal, and raises the relpersistence-mismatch
    error when both are concrete and differ; so opening with 'p' twice
    succeeds and opening with 'u' afterwards fails. *)
Theorem smgropen_existing_relpersistence rnode backend relpersistence st p d :
  keys_unique (entries st) →
  entries st !! p = Some d →
  smgr_rnode d = {| node := rnode; backend := backend |} →
  relpersistence ≠ 0 →
  (smgr_relpersistence d = 0 →
     ∃ st', smgropen env rnode backend relpersistence st = (Ok p, st')
       ∧ entries st' !! p = Some (set_smgr_relpersistence relpersistence d))
  ∧ (smgr_relpersistence d = relpersistence →
     smgropen env rnode backend relpersistence st = (Ok p, st))
  ∧ (smgr_relpersistence d ≠ 0 → smgr_relpersistence d ≠ relpersistence →
     smgropen env rnode backend relpersistence st =
       (Raise (relpersistence_mismatch relpersistence (smgr_relpersistence d)), st))
  ∧ (smgr_relpersistence d = 0 →
     ∃ s1 s2,
       smgropen env rnode backend RELPERSISTENCE_PERMANENT st = (Ok p, s1)
       ∧ smgropen env rnode backend RELPERSISTENCE_PERMANENT s1 = (Ok p, s2)
       ∧ smgr_relpersistence <$> entries s2 !! p = Some RELPERSISTENCE_PERMANENT
       ∧ smgropen env rnode backend RELPERSISTENCE_UNLOGGED s2 =
           (Raise (relpersistence_mismatch RELPERSISTENCE_UNLOGGED
                     RELPERSISTENCE_PERMANENT), s2)).
Proof.
  intros Hu Hp Hk Hrp.
  assert (Hf : hash_find {| node := rnode; backend := backend |} (entries st) = Some p).
  { rewrite <- Hk. by apply hash_find_unique. }
  repeat split.
  - intros H0. eexists. rewrite (smgropen_found _ _ _ _ _ _ Hf Hp).
    rewrite decide_True by done. split; [done|].
    by rewrite entries_set_hash, lookup_insert_eq.
  - intros He. rewrite (smgropen_found _ _ _ _ _ _ Hf Hp).
    rewrite decide_False by lia.
    by rewrite (bool_decide_eq_true_2 _ He), orb_true_r.
  - intros H0 Hne. rewrite (smgropen_found _ _ _ _ _ _ Hf Hp).
    rewrite decide_False by done.
    by rewrite !bool_decide_eq_false_2.
  - intros H0.
    set (d1 := set_smgr_relpersistence RELPERSISTENCE_PERMANENT d).
    set (s1 := set_hash (Some (<[p := d1]> (entries st))) st).
    assert (Hu1 : keys_unique (entries s1)).
    { by apply (keys_unique_insert_same_key _ p d). }
    assert (Hp1 : entries s1 !! p = Some d1).
    { unfold s1. by rewrite entries_set_hash, lookup_insert_eq. }
    assert (Hf1 : hash_find {| node := rnode; backend := backend |} (entries s1) = Some p).
    { rewrite <- Hk. by apply (hash_find_unique _ _ d1). }
    exists s1, s1. split; [|split; [|split]].
    + rewrite (smgropen_found _ _ _ _ _ _ Hf Hp). by rewrite decide_True.
    + by rewrite (smgropen_found _ _ _ _ _ _ Hf1 Hp1).
    + by rewrite Hp1.
    + by rewrite (smgropen_found _ _ _ _ _ _ Hf1 Hp1).
Qed.

(** C10: on an existing handle whose persistence is already concrete,
    smgropen with the unknown persistence 0 returns the handle, raises no
    error and leaves the whole state, hence the stored persistence,
    unchanged. *)
Theorem smgropen_unknown_hint_keeps_relpersistence rnode backend st p d :
  keys_unique (entries st) →
  entries st !! p = Some d →
  smgr_rnode d = {| node := rnode; backend := backend |} →
  smgr_relpersistence d ≠ 0 →
  smgropen env rnode backend 0 st = (Ok p, st).
Proof.
  intros Hu Hp Hk Hrp.
  assert (Hf : hash_find {| node := rnode; backend := backend |} (entries st) = Some p).
  { rewrite <- Hk. by apply hash_find_unique. }
  rewrite (smgropen_found _ _ _ _ _ _ Hf Hp).
  by rewrite decide_False.
Qed.

End Facts.

(** Key uniqueness of a concrete table can be checked by listing the keys. *)
Lemma keys_unique_NoDup h :
  NoDup ((fun e => smgr_rnode (snd e)) <$> map_to_list h) → keys_unique h.
Proof.
  intros Hnd p q d d' Hp Hq Hk.
  apply elem_of_map_to_list, list_elem_of_lookup in Hp as [i Hi].
  apply elem_of_map_to_list, list_elem_of_lookup in Hq as [j Hj].
  assert (i = j).
  { eapply NoDup_lookup; [exact Hnd| |];
      rewrite list_lookup_fmap; [rewrite Hi|rewrite Hj]; simpl; [done|].
    by rewrite Hk. }
  subst. rewrite Hi in Hj. by simplify_eq.
Qed.

Lemma smgropen_existing_relpersistence_witness :
  ∃ st', smgropen quiet_env 5%N 1 RELPERSISTENCE_UNLOGGED one_handle_state = (Ok 1%positive, st')
    ∧ entries st' !! 1%positive =
        Some (set_smgr_relpersistence RELPERSISTENCE_UNLOGGED (fresh_entry quiet_env 5%N 1 0)).
Proof.
  destruct (smgropen_existing_relpersistence quiet_env 5%N 1 RELPERSISTENCE_UNLOGGED
              one_handle_state 1%positive (fresh_entry quiet_env 5%N 1 0))
    as (H & _).
  - apply keys_unique_NoDup. vm_compute. repeat constructor. set_solver.
  - vm_compute. reflexivity.
  - reflexivity.
  - vm_compute. discriminate.
  - apply H. reflexivity.
Defined.

Lemma smgropen_unknown_hint_keeps_relpersistence_witness :
  smgropen quiet_env 5%N 1 0 permanent_handle_state = (Ok 1%positive, permanent_handle_state).
Proof.
  apply (smgropen_unknown_hint_keeps_relpersistence quiet_env 5%N 1
           permanent_handle_state 1%positive
           (fresh_entry quiet_env 5%N 1 RELPERSISTENCE_PERMANENT)).
  - apply keys_unique_NoDup. vm_compute. repeat constructor. set_solver.
  - vm_compute. reflexivity.
  - reflexivity.
  - vm_compute. discriminate.
Defined.

(** ** The cache of block counts *)

Section BlockCounts.

Variable env : Environment.

Lemma call_eq ev st :
  call env ev st =
    if ext_raises env (trace st) ev
    then (Raise (external_error ev), set_trace (trace st ++ [ev]) st)
    else (Ok tt, set_trace (trace st ++ [ev]) st).
Proof. done. Qed.

Lemma cached_nblocks_set_trace t st reln forknum :
  cached_nblocks (set_trace t st) reln forknum = cached_nblocks st reln forknum.
Proof. done. Qed.

Lemma cached_nblocks_live st reln forknum c :
  cached_nblocks st reln forknum = Some c → is_Some (entries st !! reln).
Proof. unfold cached_nblocks. destruct (entries st !! reln); [eauto|done]. Qed.

(** C5: after an extend at a block number [blocknum] (InvalidBlockNumber
    is not one) that the backend carries out, the cached count of the fork
    is [blocknum + 1] if it was [blocknum] before, and InvalidBlockNumber
    (unknown) for every other previous value, the unknown one included. *)
Theorem smgrextend_cached_nblocks reln forknum blocknum skipFsync st d c :
  entries st !! reln = Some d →
  cached_nblocks st reln forknum = Some c →
  0 <= blocknum < InvalidBlockNumber →
  ext_raises env (trace st)
    (Ev_smgr_extend (reln_smgr d) reln forknum blocknum skipFsync) = false →
  ∃ st', smgrextend env reln forknum blocknum skipFsync st = (Ok tt, st')
    ∧ cached_nblocks st' reln forknum =
        Some (if decide (c = blocknum) then blocknum + 1 else InvalidBlockNumber).
Proof.
  intros Hd Hc Hb Hq. unfold smgrextend.
  rewrite bind_eq, (deref_live _ _ _ Hd), bind_eq, call_eq, Hq.
  rewrite bind_eq, get_cached_nblocks_eq, cached_nblocks_set_trace, Hc.
  set (st1 := set_trace _ st).
  assert (Hs : is_Some (cached_nblocks st1 reln forknum)) by (exists c; exact Hc).
  destruct (decide (c = blocknum)) as [->|Hne].
  - destruct (set_cached_nblocks_live reln forknum (uint32 (blocknum + 1)) st1 Hs)
      as (st' & Hrun & _ & _ & Hget & _).
    exists st'. split; [done|]. rewrite Hget, decide_True by done.
    unfold uint32. rewrite Z.mod_small; [done|]. unfold InvalidBlockNumber in Hb. lia.
  - destruct (set_cached_nblocks_live reln forknum InvalidBlockNumber st1 Hs)
      as (st' & Hrun & _ & _ & Hget & _).
    exists st'. split; [done|]. by rewrite Hget, decide_True.
Qed.

Lemma index_eq {A} (a : list A) i x st :
  a !! i = Some x → index a i st = (Ok x, st).
Proof. unfold index. by intros ->. Qed.

(** One iteration of the truncate loop: either the fork cannot be
    addressed and nothing happens, or the count is invalidated, the backend
    is called, and the count is set to the new value if the call returns. *)
Lemma truncate_fork_cases reln forknum nblocks i f n st :
  forknum !! i = Some f → nblocks !! i = Some n →
  (cached_nblocks st reln f = None
   ∧ truncate_fork env reln forknum nblocks i st = (Raise invalid_access, st))
  ∨ (∃ d st',
       entries st !! reln = Some d
       ∧ let ev := Ev_smgr_truncate (reln_smgr d) reln f n in
         let fails := ext_raises env (trace st) ev in
         truncate_fork env reln forknum nblocks i st =
           (if fails then Raise (external_error ev) else Ok tt, st')
         ∧ trace st' = trace st ++ [ev]
         ∧ InRecovery st' = InRecovery st
         ∧ (∀ q g, cached_nblocks st' q g =
              if decide (q = reln ∧ g = f)
              then Some (if fails then InvalidBlockNumber else n)
              else cached_nblocks st q g)).
Proof.
  intros Hf Hn. unfold truncate_fork.
  rewrite bind_eq, (index_eq _ _ _ _ Hf), bind_eq.
  destruct (cached_nblocks st reln f) as [c|] eqn:Hc.
  2:{ left. by rewrite (set_cached_nblocks_dead _ _ _ _ Hc). }
  right.
  destruct (set_cached_nblocks_live reln f InvalidBlockNumber st
              (mk_is_Some _ _ Hc)) as (st1 & -> & Ht1 & Hr1 & Hc1 & Hs1 & _).
  destruct (cached_nblocks_live _ _ _ _ Hc) as [d Hd].
  assert (∃ d1, entries st1 !! reln = Some d1 ∧ reln_smgr d1 = reln_smgr d)
    as (d1 & Hd1 & Himpl).
  { specialize (Hs1 reln). rewrite Hd in Hs1. simpl in Hs1.
    destruct (entries st1 !! reln) as [d1|]; simplify_eq/=. eauto. }
  rewrite bind_eq, (deref_live _ _ _ Hd1), bind_eq, (index_eq _ _ _ _ Hn).
  rewrite bind_eq, call_eq, Himpl, Ht1.
  exists d. destruct (ext_raises _ _ _) eqn:Hq.
  - eexists. split; [done|]. simpl. split; [done|]. split; [done|].
    split; [done|]. intros q g. rewrite cached_nblocks_set_trace. apply Hc1.
  - set (st2 := set_trace _ st1).
    assert (Hs2 : is_Some (cached_nblocks st2 reln f)).
    { unfold st2. rewrite cached_nblocks_set_trace, Hc1, decide_True; eauto. }
    destruct (set_cached_nblocks_live reln f n st2 Hs2)
      as (st3 & -> & Ht3 & Hr3 & Hc3 & _).
    exists st3. split; [done|]. simpl. split; [done|].
    split; [by rewrite Ht3|].
    split; [by rewrite Hr3|]. intros q g. rewrite Hc3.
    case_decide; [done|]. unfold st2. rewrite cached_nblocks_set_trace, Hc1.
    by rewrite decide_False.
Qed.

Lemma truncate_invoked_nil reln g : ¬ truncate_invoked reln g [].
Proof. intros (impl & n & H). by apply elem_of_nil in H. Qed.

Lemma truncate_invoked_cons reln g impl f n evs :
  truncate_invoked reln g (Ev_smgr_truncate impl reln f n :: evs) ↔
  g = f ∨ truncate_invoked reln g evs.
Proof.
  split.
  - intros (impl' & n' & H). apply elem_of_cons in H as [H|H].
    + left. by simplify_eq.
    + right. by exists impl', n'.
  - intros [->|(impl' & n' & H)].
    + exists impl, n. apply elem_of_cons. by left.
    + exists impl', n'. apply elem_of_cons. by right.
Qed.

Lemma truncate_invoked_dec reln g evs :
  truncate_invoked reln g evs ∨ ¬ truncate_invoked reln g evs.
Proof.
  induction evs as [|ev evs IH].
  - right. apply truncate_invoked_nil.
  - destruct IH as [(impl & n & H)|IH].
    { left. exists impl, n. apply elem_of_cons. by right. }
    destruct ev as [| | | | |impl r f n| | |];
      try (right; intros (impl' & n' & H);
           apply elem_of_cons in H as [H|H]; [done|]; apply IH; by exists impl', n').
    destruct (decide (r = reln)) as [->|Hr]; [destruct (decide (g = f)) as [->|Hg]|].
    + left. apply truncate_invoked_cons. by left.
    + right. rewrite truncate_invoked_cons. by intros [?|?].
    + right. intros (impl' & n' & H). apply elem_of_cons in H as [H|H].
      * by simplify_eq.
      * apply IH. by exists impl', n'.
Qed.

(** The truncate loop, whatever its outcome.  [evs] are the backend calls
    it made. *)
Lemma truncate_loop reln forknum nblocks idx :
  Forall (fun i => i < length forknum ∧ i < length nblocks)%nat idx →
  ∀ st r st',
  for_each idx (truncate_fork env reln forknum nblocks) st = (r, st') →
  ∃ evs,
    trace st' = trace st ++ evs
    ∧ InRecovery st' = InRecovery st
    ∧ (∀ ev, ev ∈ evs → ∃ impl i g n,
         ev = Ev_smgr_truncate impl reln g n ∧ i ∈ idx
         ∧ forknum !! i = Some g ∧ nblocks !! i = Some n)
    ∧ (∀ g, truncate_invoked reln g evs →
         cached_nblocks st' reln g = Some InvalidBlockNumber
         ∨ ∃ impl n, Ev_smgr_truncate impl reln g n ∈ evs
             ∧ cached_nblocks st' reln g = Some n)
    ∧ (∀ q g, (q = reln → ¬ truncate_invoked reln g evs) →
         cached_nblocks st' q g = cached_nblocks st q g)
    ∧ (∀ impl g n, r = Raise (external_error (Ev_smgr_truncate impl reln g n)) →
         cached_nblocks st' reln g = Some InvalidBlockNumber)
    ∧ (r = Ok tt →
         (∀ g, truncate_invoked reln g evs →
            ∃ impl n, Ev_smgr_truncate impl reln g n ∈ evs
              ∧ cached_nblocks st' reln g = Some n)
         ∧ (∀ i g, i ∈ idx → forknum !! i = Some g → truncate_invoked reln g evs)).
Proof.
  induction 1 as [|i idx [Hi1 Hi2] Hall IH]; intros st r st' Hrun; simpl in Hrun.
  { unfold mret, M_ret, ret in Hrun. simplify_eq. exists [].
    rewrite app_nil_r. repeat split; try done.
    - intros ev Hx. by apply elem_of_nil in Hx.
    - intros g Hx. by destruct (truncate_invoked_nil _ _ Hx).
    - intros g Hx. by destruct (truncate_invoked_nil _ _ Hx).
    - intros i g Hx. by apply elem_of_nil in Hx. }
  destruct (lookup_lt_is_Some_2 forknum i Hi1) as [f Hf].
  destruct (lookup_lt_is_Some_2 nblocks i Hi2) as [n Hn].
  rewrite bind_eq in Hrun.
  destruct (truncate_fork_cases reln forknum nblocks i f n st Hf Hn)
    as [[Hnone Heq]|(d & st1 & Hd & Heq & Ht1 & Hr1 & Hc1)].
  { rewrite Heq in Hrun. simplify_eq. exists []. rewrite app_nil_r.
    repeat split; try done.
    - intros ev Hx. by apply elem_of_nil in Hx.
    - intros g Hx. by destruct (truncate_invoked_nil _ _ Hx). }
  simpl in Heq. rewrite Heq in Hrun. clear Heq.
  set (ev := Ev_smgr_truncate (reln_smgr d) reln f n) in *.
  destruct (ext_raises env (trace st) ev) eqn:Hq.
  - simplify_eq. exists [ev]. split; [done|]. split; [done|].
    split; [|split; [|split; [|split; [|done]]]].
    + intros ev' Hx. apply list_elem_of_singleton in Hx as ->.
      exists (reln_smgr d), i, f, n. repeat split; try done. apply elem_of_cons. by left.
    + intros g Hx. apply truncate_invoked_cons in Hx as [->|Hx].
      * left. by rewrite Hc1, decide_True.
      * by destruct (truncate_invoked_nil _ _ Hx).
    + intros q g Hx. rewrite Hc1. case_decide as Hqg; [|done].
      destruct Hqg as [-> ->]. destruct Hx; [done|].
      apply truncate_invoked_cons. by left.
    + intros impl g n' Hx. simplify_eq. by rewrite Hc1, decide_True.
  - destruct (IH _ _ _ Hrun) as (evs & Ht & Hr & Hform & Hin & Hout & Hfail & Hok).
    exists (ev :: evs). split; [by rewrite Ht, Ht1, <- app_assoc|].
    split; [by rewrite Hr|].
    assert (Hkeep : ∀ g, truncate_invoked reln g (ev :: evs) →
              ¬ truncate_invoked reln g evs →
              g = f ∧ cached_nblocks st' reln g = Some n).
    { intros g Hx Hno. apply truncate_invoked_cons in Hx as [->|Hx]; [|done].
      split; [done|]. rewrite Hout by done. by rewrite Hc1, decide_True. }
    split; [|split; [|split; [|split]]].
    + intros ev' Hx. apply elem_of_cons in Hx as [->|Hx].
      * exists (reln_smgr d), i, f, n. repeat split; try done. apply elem_of_cons. by left.
      * destruct (Hform _ Hx) as (impl & j & g & m & -> & Hj & ? & ?).
        exists impl, j, g, m. repeat split; try done. apply elem_of_cons. by right.
    + intros g Hx. destruct (truncate_invoked_dec reln g evs) as [Hyes|Hno].
      * destruct (Hin g Hyes) as [?|(impl & m & Hm & ?)]; [by left|].
        right. exists impl, m. split; [|done]. apply elem_of_cons. by right.
      * destruct (Hkeep g Hx Hno) as [-> Hc]. right.
        exists (reln_smgr d), n. split; [|done]. apply elem_of_cons. by left.
    + intros q g Hx. rewrite Hout.
      * rewrite Hc1. case_decide as Hqg; [|done]. destruct Hqg as [-> ->].
        destruct Hx; [done|]. apply truncate_invoked_cons. by left.
      * intros -> Hyes. apply Hx; [done|]. apply truncate_invoked_cons. by right.
    + done.
    + intros ->. destruct (Hok eq_refl) as [Hok1 Hok2]. split.
      * intros g Hx. destruct (truncate_invoked_dec reln g evs) as [Hyes|Hno].
        -- destruct (Hok1 g Hyes) as (impl & m & Hm & ?).
           exists impl, m. split; [|done]. apply elem_of_cons. by right.
        -- destruct (Hkeep g Hx Hno) as [-> Hc].
           exists (reln_smgr d), n. split; [|done]. apply elem_of_cons. by left.
      * intros j g Hj Hg. apply truncate_invoked_cons.
        apply elem_of_cons in Hj as [->|Hj].
        -- left. by simplify_eq.
        -- right. by apply (Hok2 j).
Qed.

Lemma truncate_invoked_cons_other reln g ev evs :
  (∀ impl r f n, ev ≠ Ev_smgr_truncate impl r f n) →
  truncate_invoked reln g (ev :: evs) ↔ truncate_invoked reln g evs.
Proof.
  intros Hev. split; intros (impl & n & Hin); exists impl, n.
  - apply elem_of_cons in Hin as [Hin|Hin]; [|done]. by destruct (Hev impl reln g n).
  - apply elem_of_cons. by right.
Qed.

Lemma upto_bound n i : i ∈ upto n → (i < Z.to_nat n)%nat.
Proof. unfold upto. rewrite elem_of_seq. lia. Qed.

(** The outcome of smgrtruncate, whatever it is.  [evs] are the calls it
    made. *)
Lemma smgrtruncate_outcome reln forknum nforks nblocks st r st' :
  (Z.to_nat nforks ≤ length forknum)%nat →
  (Z.to_nat nforks ≤ length nblocks)%nat →
  smgrtruncate env reln forknum nforks nblocks st = (r, st') →
  ∃ evs,
    trace st' = trace st ++ evs
    ∧ InRecovery st' = InRecovery st
    ∧ (∀ g, truncate_invoked reln g evs →
         cached_nblocks st' reln g = Some InvalidBlockNumber
         ∨ ∃ i n, forknum !! i = Some g ∧ nblocks !! i = Some n
             ∧ cached_nblocks st' reln g = Some n)
    ∧ (∀ g, ¬ truncate_invoked reln g evs →
         cached_nblocks st' reln g = cached_nblocks st reln g)
    ∧ (∀ impl g n, r = Raise (external_error (Ev_smgr_truncate impl reln g n)) →
         cached_nblocks st' reln g = Some InvalidBlockNumber)
    ∧ (r = Ok tt → ∀ i g, (i < Z.to_nat nforks)%nat → forknum !! i = Some g →
         ∃ j n, forknum !! j = Some g ∧ nblocks !! j = Some n
           ∧ cached_nblocks st' reln g = Some n).
Proof.
  intros Hlf Hln Hrun. unfold smgrtruncate in Hrun.
  rewrite bind_eq, call_eq in Hrun.
  set (ev1 := Ev_DropRelFileNodeBuffers reln forknum nforks nblocks) in *.
  assert (Hno1 : ∀ g evs, (∀ ev, ev ∈ evs → ∀ impl r f n,
                   ev ≠ Ev_smgr_truncate impl r f n) →
                 ¬ truncate_invoked reln g evs).
  { intros g evs Hall (impl & n & Hin). by destruct (Hall _ Hin impl reln g n). }
  destruct (ext_raises env (trace st) ev1).
  { simplify_eq. exists [ev1]. repeat split; try done.
    intros g Hinv. destruct (Hno1 g [ev1]); [|done].
    intros ev Hin. by apply list_elem_of_singleton in Hin as ->. }
  rewrite bind_eq, deref_eq in Hrun. simpl in Hrun.
  change (entries (set_trace (trace st ++ [ev1]) st)) with (entries st) in Hrun.
  destruct (entries st !! reln) as [d|] eqn:Hd.
  2:{ simplify_eq. exists [ev1]. repeat split; try done.
      intros g Hinv. destruct (Hno1 g [ev1]); [|done].
      intros ev Hin. by apply list_elem_of_singleton in Hin as ->. }
  rewrite bind_eq, call_eq in Hrun. simpl in Hrun.
  set (ev2 := Ev_CacheInvalidateSmgr (smgr_rnode d)) in *.
  destruct (ext_raises env (trace st ++ [ev1]) ev2).
  { simplify_eq. exists [ev1; ev2]. simpl. rewrite <- app_assoc.
    repeat split; try done.
    intros g Hinv. destruct (Hno1 g [ev1; ev2]); [|done].
    intros ev Hin. apply elem_of_cons in Hin as [->|Hin]; [done|].
    by apply list_elem_of_singleton in Hin as ->. }
  apply truncate_loop in Hrun
    as (evs & Ht & Hrec & Hform & Hin & Hout & Hfail & Hok).
  2:{ apply Forall_forall. intros i Hi. apply upto_bound in Hi. lia. }
  simpl in Ht. exists (ev1 :: ev2 :: evs).
  assert (Hiff : ∀ g, truncate_invoked reln g (ev1 :: ev2 :: evs)
                      ↔ truncate_invoked reln g evs).
  { intros g. by rewrite !truncate_invoked_cons_other. }
  split; [by rewrite Ht, <- !app_assoc|]. split; [done|].
  assert (Hreq : ∀ g impl n, Ev_smgr_truncate impl reln g n ∈ evs →
            ∃ i, forknum !! i = Some g ∧ nblocks !! i = Some n).
  { intros g impl n Hev. destruct (Hform _ Hev) as (? & i & ? & ? & ? & _ & ? & ?).
    simplify_eq. eauto. }
  split; [|split; [|split]].
  - intros g Hinv. apply Hiff in Hinv.
    destruct (Hin g Hinv) as [?|(impl & n & Hev & Hc)]; [by left|right].
    destruct (Hreq _ _ _ Hev) as (i & ? & ?). by exists i, n.
  - intros g Hinv. rewrite Hout; [done|]. intros _ Hyes. by apply Hinv, Hiff.
  - done.
  - intros -> i g Hi Hg. destruct (Hok eq_refl) as [Hok1 Hok2].
    destruct (Hok1 g) as (impl & n & Hev & Hc).
    { apply (Hok2 i); [|done]. unfold upto. apply elem_of_seq. lia. }
    destruct (Hreq _ _ _ Hev) as (j & ? & ?). by exists j, n.
Qed.

(** C7, as the code has it: smgrtruncate sets the cached count of a fork to
    InvalidBlockNumber before it invokes the backend truncate of that fork
    and to the new count once that call has returned.  Whatever the
    outcome, a fork whose backend truncate was invoked has a cached count
    that is unknown or a new count requested for it; a fork whose backend
    truncate was not invoked (one that comes after a failure) keeps the
    cached count it had; the fork whose backend truncate raised is unknown;
    and when smgrtruncate returns, every listed fork has a new count. *)
Theorem smgrtruncate_cached_nblocks reln forknum nforks nblocks st r st' :
  (Z.to_nat nforks ≤ length forknum)%nat →
  (Z.to_nat nforks ≤ length nblocks)%nat →
  smgrtruncate env reln forknum nforks nblocks st = (r, st') →
  ∃ evs,
    trace st' = trace st ++ evs
    ∧ (∀ g, truncate_invoked reln g evs →
         cached_nblocks st' reln g = Some InvalidBlockNumber
         ∨ ∃ i n, forknum !! i = Some g ∧ nblocks !! i = Some n
             ∧ cached_nblocks st' reln g = Some n)
    ∧ (∀ g, ¬ truncate_invoked reln g evs →
         cached_nblocks st' reln g = cached_nblocks st reln g)
    ∧ (∀ impl g n, r = Raise (external_error (Ev_smgr_truncate impl reln g n)) →
         cached_nblocks st' reln g = Some InvalidBlockNumber)
    ∧ (r = Ok tt → ∀ i g, (i < Z.to_nat nforks)%nat → forknum !! i = Some g →
         ∃ j n, forknum !! j = Some g ∧ nblocks !! j = Some n
           ∧ cached_nblocks st' reln g = Some n).
Proof.
  intros Hlf Hln Hrun.
  destruct (smgrtruncate_outcome _ _ _ _ _ _ _ Hlf Hln Hrun)
    as (evs & Ht & _ & H1 & H2 & H3 & H4).
  exists evs. auto.
Qed.

Lemma smgrnblocks_cached_eq reln forknum st :
  smgrnblocks_cached reln forknum st =
    if InRecovery st then
      match cached_nblocks st reln forknum with
      | Some c => (Ok c, st)
      | None => (Raise invalid_access, st)
      end
    else (Ok InvalidBlockNumber, st).
Proof.
  unfold smgrnblocks_cached. rewrite bind_eq. simpl.
  destruct (InRecovery st); [|done].
  rewrite bind_eq, get_cached_nblocks_eq.
  destruct (cached_nblocks st reln forknum) as [c|]; [|done].
  case_decide as Hc; [done|]. by rewrite Hc.
Qed.


End BlockCounts.

Lemma smgrextend_cached_nblocks_witness :
  ∃ st', smgrextend quiet_env 1%positive MAIN_FORKNUM 7 false sized_handle_state = (Ok tt, st')
    ∧ cached_nblocks st' 1%positive MAIN_FORKNUM = Some 8.
Proof.
  apply (smgrextend_cached_nblocks quiet_env 1%positive MAIN_FORKNUM 7 false
           sized_handle_state
           (set_smgr_cached_nblocks [7; 7; InvalidBlockNumber; InvalidBlockNumber]
              (fresh_entry quiet_env 5%N 1 0)) 7).
  - vm_compute. reflexivity.
  - vm_compute. reflexivity.
  - vm_compute. split; [discriminate|reflexivity].
  - reflexivity.
Defined.


(** C7, as stated, fails: when the backend truncate of the main fork
    raises, the free-space map, listed after it, keeps the cached count 7
    it had, which is neither unknown nor its new count 1. *)
Lemma smgrtruncate_later_fork_keeps_count :
  let out := smgrtruncate failing_truncate_env 1%positive
               [MAIN_FORKNUM; FSM_FORKNUM] 2 [5; 1] sized_handle_state in
  fst out = Raise (external_error (Ev_smgr_truncate smgr_md 1%positive MAIN_FORKNUM 5))
  ∧ cached_nblocks sized_handle_state 1%positive FSM_FORKNUM = Some 7
  ∧ cached_nblocks (snd out) 1%positive FSM_FORKNUM = Some 7
  ∧ ¬ (cached_nblocks (snd out) 1%positive FSM_FORKNUM = Some InvalidBlockNumber
       ∨ cached_nblocks (snd out) 1%positive FSM_FORKNUM = Some 1).
Proof.
  vm_compute. repeat split; intros [H|H]; discriminate H.
Qed.

Lemma smgrtruncate_cached_nblocks_witness :
  let st := sized_handle_state in
  let out := smgrtruncate failing_truncate_env 1%positive
               [MAIN_FORKNUM; FSM_FORKNUM] 2 [5; 1] st in
  ∃ evs,
    trace (snd out) = trace st ++ evs
    ∧ (∀ g, truncate_invoked 1%positive g evs →
         cached_nblocks (snd out) 1%positive g = Some InvalidBlockNumber
         ∨ ∃ i n, [MAIN_FORKNUM; FSM_FORKNUM] !! i = Some g ∧ [5; 1] !! i = Some n
             ∧ cached_nblocks (snd out) 1%positive g = Some n)
    ∧ (∀ g, ¬ truncate_invoked 1%positive g evs →
         cached_nblocks (snd out) 1%positive g = cached_nblocks st 1%positive g)
    ∧ (∀ impl g n,
         fst out = Raise (external_error (Ev_smgr_truncate impl 1%positive g n)) →
         cached_nblocks (snd out) 1%positive g = Some InvalidBlockNumber)
    ∧ (fst out = Ok tt → ∀ i g, (i < Z.to_nat 2)%nat →
         [MAIN_FORKNUM; FSM_FORKNUM] !! i = Some g →
         ∃ j n, [MAIN_FORKNUM; FSM_FORKNUM] !! j = Some g ∧ [5; 1] !! j = Some n
           ∧ cached_nblocks (snd out) 1%positive g = Some n).
Proof.
  intros st out.
  apply (smgrtruncate_cached_nblocks failing_truncate_env 1%positive
           [MAIN_FORKNUM; FSM_FORKNUM] 2 [5; 1] st (fst out) (snd out)).
  - simpl. lia.
  - simpl. lia.
  - apply surjective_pairing.
Defined.

(** ** Routines that only make calls *)

Section Calls.

Variable env : Environment.

Lemma set_trace_id st : set_trace (trace st) st = st.
Proof. by destruct st. Qed.

Lemma plays_pure {A} (m : M A) (post : A → Prop) st a :
  m st = (Ok a, st) → post a → plays env m [] post st.
Proof.
  intros Hm Hpost. exists []. rewrite Hm. simpl. rewrite app_nil_r, set_trace_id.
  split; [done|]. split; [done|]. split; [|done].
  intros ? [= <-]. done.
Qed.

Lemma plays_call ev st : plays env (call env ev) [ev] (fun _ => True) st.
Proof.
  exists [ev]. rewrite call_eq. destruct (ext_raises _ _ _) eqn:Hq; simpl.
  - split; [done|]. split; [done|]. split; [done|]. intros e [= <-].
    exists [], ev. by rewrite app_nil_r.
  - done.
Qed.

Lemma plays_bind {A B} (m : M A) (k : A → M B) s1 s2 P Q st :
  plays env m s1 P st →
  (∀ a, P a → plays env (k a) s2 Q (set_trace (trace st ++ s1) st)) →
  plays env (m ≫= k) (s1 ++ s2) Q st.
Proof.
  intros (evs1 & Hst1 & Hpre1 & Hok1 & Hfail1) Hk. unfold plays. rewrite bind_eq.
  destruct (m st) as [[a|e] st1]; simpl in *.
  - destruct (Hok1 a eq_refl) as [-> HP]. subst st1.
    destruct (Hk a HP) as (evs2 & Hst2 & Hpre2 & Hok2 & Hfail2).
    exists (s1 ++ evs2). simpl in Hst2. rewrite Hst2, <- app_assoc.
    split; [done|]. split; [by apply prefix_app|]. split.
    + intros b Hb. destruct (Hok2 b Hb) as [-> HQ]. done.
    + intros e He. destruct (Hfail2 e He) as (before & ev & -> & -> & Hq).
      exists (s1 ++ before), ev. simpl in Hq.
      split; [by rewrite app_assoc|]. split; [done|]. by rewrite app_assoc.
  - exists evs1. split; [done|]. split; [by apply prefix_app_r|].
    split; [done|]. intros ? [= <-]. by apply Hfail1.
Qed.


Lemma plays_for_each {A} (l : list A) (body : A → M unit) script st :
  (∀ x, x ∈ l → ∀ st', entries st' = entries st →
     plays env (body x) (script x) (fun _ => True) st') →
  ∀ st', entries st' = entries st →
    plays env (for_each l body) (flat_map script l) (fun _ => True) st'.
Proof.
  induction l as [|x l IH]; intros Hbody st' Hst'; simpl.
  - by apply (plays_pure _ _ _ tt).
  - apply (plays_bind _ _ _ _ (fun _ => True)).
    + apply Hbody; [|done]. apply elem_of_cons. by left.
    + intros _ _. apply IH; [|done].
      intros y Hy. apply Hbody. apply elem_of_cons. by right.
Qed.

Lemma plays_index {A} (a : list A) i x st :
  a !! i = Some x → plays env (index a i) [] (fun y => y = x) st.
Proof.
  intros Hi. by apply (plays_pure _ _ _ x); [apply index_eq|].
Qed.

Lemma plays_deref reln d st :
  entries st !! reln = Some d →
  plays env (deref reln) [] (fun y => y = d) st.
Proof.
  intros Hd. by apply (plays_pure _ _ _ d); [apply deref_live|].
Qed.

Lemma plays_script {A} (m : M A) s s' (P : A → Prop) st :
  plays env m s P st → s = s' → plays env m s' P st.
Proof. by intros ? <-. Qed.

Lemma flat_map_omap {A B C} (f : B → list C) (g : A → option B) (l : list A) :
  flat_map f (omap g l) =
  flat_map (fun i => match g i with Some x => f x | None => [] end) l.
Proof.
  induction l as [|i l IH]; simpl; [done|].
  destruct (g i); simpl; [f_equal|]; exact IH.
Qed.

Lemma fmap_omap_flat_map {A B C} (f : B → C) (g : A → option B) (l : list A) :
  f <$> omap g l =
  flat_map (fun i => match g i with Some x => [f x] | None => [] end) l.
Proof.
  induction l as [|i l IH]; simpl; [done|].
  destruct (g i); simpl; [f_equal|]; exact IH.
Qed.

Lemma omap_lookup_total {A B} (g : A → option B) (l : list A) (j : nat) i :
  (∀ i, i ∈ l → is_Some (g i)) → l !! j = Some i → omap g l !! j = g i.
Proof.
  revert j. induction l as [|x l IH]; intros j Hall Hj; [done|].
  destruct (Hall x) as [y Hy]; [apply elem_of_cons; by left|].
  simpl. rewrite Hy. destruct j as [|j]; simpl in *.
  - by simplify_eq.
  - apply IH; [|done]. intros k Hk. apply Hall, elem_of_cons. by right.
Qed.

Lemma plays_close_forks (h : Ptr * SMgrRelationData) st :
  plays env (for_each all_forks (fun forknum =>
           call env (Ev_smgr_close (reln_smgr (snd h)) (fst h) forknum)))
    (close_events h) (fun _ => True) st.
Proof.
  eapply plays_script.
  - apply (plays_for_each _ _
             (fun forknum => [Ev_smgr_close (reln_smgr (snd h)) (fst h) forknum]) st);
      [|done].
    intros f _ st' _. apply plays_call.
  - unfold close_events. by induction all_forks as [|f l IH]; simpl; rewrite ?IH.
Qed.

Lemma plays_unlink_forks isRedo (h : Ptr * SMgrRelationData) st :
  plays env (for_each all_forks (fun forknum =>
           call env (Ev_smgr_unlink (reln_smgr (snd h)) (smgr_rnode (snd h))
                       forknum isRedo)))
    (unlink_events isRedo h) (fun _ => True) st.
Proof.
  eapply plays_script.
  - apply (plays_for_each _ _
             (fun forknum => [Ev_smgr_unlink (reln_smgr (snd h))
                                (smgr_rnode (snd h)) forknum isRedo]) st);
      [|done].
    intros f _ st' _. apply plays_call.
  - unfold unlink_events. by induction all_forks as [|f l IH]; simpl; rewrite ?IH.
Qed.

Lemma handle_at_Some st rels i p d :
  handle_at st rels i = Some (p, d) ↔ rels !! i = Some p ∧ entries st !! p = Some d.
Proof.
  unfold handle_at. split.
  - intros H. destruct (rels !! i) as [q|]; simpl in *; [|done].
    destruct (entries st !! q) as [e|] eqn:E; simpl in *; by simplify_eq.
  - intros [-> Hd]. simpl. by rewrite Hd.
Qed.

(** The first loop: the forks of every handle are closed, and [rnodes]
    receives the identities in order. *)
Lemma plays_close_and_collect st rels idx :
  (∀ i, i ∈ idx → is_Some (handle_at st rels i)) →
  ∀ st', entries st' = entries st →
    plays env (close_and_collect env rels idx)
      (flat_map close_events (omap (handle_at st rels) idx))
      (fun rnodes => rnodes =
         (fun h => smgr_rnode (snd h)) <$> omap (handle_at st rels) idx)
      st'.
Proof.
  induction idx as [|i idx IH]; intros Hall st' Hst'; simpl.
  - by apply (plays_pure _ _ _ []).
  - destruct (Hall i) as [[p d] Hh]; [apply elem_of_cons; by left|].
    rewrite Hh. simpl. apply handle_at_Some in Hh as [Hp Hd].
    eapply plays_script.
    + eapply plays_bind; [by apply plays_index|]. intros ? ->.
      eapply plays_bind;
        [apply (plays_deref p d); change (entries st' !! p = Some d); by rewrite Hst'|].
      intros ? ->.
      eapply plays_bind; [apply (plays_close_forks (p, d))|]. intros _ _.
      eapply plays_bind.
      * apply IH; [|done]. intros j Hj. apply Hall, elem_of_cons. by right.
      * intros rnodes ->. by eapply plays_pure.
    + simpl. by rewrite app_nil_r.
Qed.

Lemma plays_smgrdounlinkall st rels nrels isRedo :
  nrels ≠ 0 →
  (∀ i, (i < Z.to_nat nrels)%nat → is_Some (handle_at st rels i)) →
  plays env (smgrdounlinkall env rels nrels isRedo)
    (unlink_script st rels nrels isRedo) (fun _ => True) st.
Proof.
  intros Hn Hlive. unfold smgrdounlinkall. rewrite decide_False by done.
  assert (Hall : ∀ i, i ∈ upto nrels → is_Some (handle_at st rels i)).
  { intros i Hi. by apply Hlive, upto_bound. }
  unfold unlink_script, handles.
  eapply plays_bind; [apply plays_call|]. intros _ _.
  eapply plays_bind; [by apply plays_close_and_collect|]. intros ? ->.
  eapply plays_bind.
  - eapply plays_script; [|symmetry; apply fmap_omap_flat_map].
    apply (plays_for_each _ _ _ st); [|done].
    intros i Hi st' Hst'.
    destruct (Hall i Hi) as [[p d] Hh]. rewrite Hh.
    eapply plays_script.
    + eapply plays_bind.
      * apply plays_index. rewrite list_lookup_fmap.
        rewrite (omap_lookup_total _ _ i i Hall), Hh; [done|].
        apply lookup_seq. apply upto_bound in Hi. lia.
      * intros ? ->. apply plays_call.
    + done.
  - intros _ _. eapply plays_script; [|symmetry; apply flat_map_omap].
    apply (plays_for_each _ _ _ st); [|done].
    intros i Hi st' Hst'.
    destruct (Hall i Hi) as [[p d] Hh]. rewrite Hh.
    pose proof Hh as Hh'. apply handle_at_Some in Hh' as [Hp Hd].
    eapply plays_script.
    + eapply plays_bind; [by apply plays_index|]. intros ? ->.
      eapply plays_bind.
      * apply plays_index. rewrite list_lookup_fmap.
        rewrite (omap_lookup_total _ _ i i Hall), Hh; [done|].
        apply lookup_seq. apply upto_bound in Hi. lia.
      * intros ? ->.
        eapply plays_bind;
          [apply (plays_deref p d); change (entries st' !! p = Some d); by rewrite Hst'|].
        intros ? ->.
        apply (plays_unlink_forks isRedo (p, d)).
    + done.
Qed.

Lemma prefix_before_unlink (before after : list Event) ev A U :
  before ++ ev :: after `prefix_of` A ++ U →
  Forall (fun e => ¬ is_unlink e) A → is_unlink ev →
  A `prefix_of` before.
Proof.
  revert before. induction A as [|a A IH]; intros before Hpre Hnot Hev.
  - apply prefix_nil.
  - apply Forall_cons in Hnot as [Ha HA]. destruct before as [|b before]; simpl in Hpre.
    + apply prefix_cons_inv_1 in Hpre. by subst.
    + pose proof (prefix_cons_inv_1 _ _ _ _ Hpre) as ->.
      apply prefix_cons, IH; [|done|done]. by apply prefix_cons_inv_2 in Hpre.
Qed.

Lemma omap_length_le {A B} (g : A → option B) (l : list A) :
  (length (omap g l) ≤ length l)%nat.
Proof.
  induction l as [|x l IH]; [done|].
  change (omap g (x :: l)) with
    (match g x with Some y => y :: omap g l | None => omap g l end).
  destruct (g x); simpl; lia.
Qed.

Lemma handles_all st rels nrels :
  (∀ i, (i < Z.to_nat nrels)%nat → is_Some (handle_at st rels i)) →
  fst <$> handles st rels nrels = take (Z.to_nat nrels) rels.
Proof.
  unfold handles, upto. generalize (Z.to_nat nrels). intros n Hlive.
  apply list_eq. intros j. rewrite list_lookup_fmap.
  destruct (decide (j < n)%nat) as [Hj|Hj].
  - rewrite (omap_lookup_total _ _ j j).
    + destruct (Hlive j Hj) as [[p d] Hh]. rewrite Hh. simpl.
      apply handle_at_Some in Hh as [Hp _]. by rewrite lookup_take_lt.
    + intros i Hi. apply Hlive. apply elem_of_seq in Hi. lia.
    + by apply lookup_seq.
  - rewrite lookup_take_ge by lia.
    assert (Hnone : omap (handle_at st rels) (seq 0 n) !! j = None).
    { apply lookup_ge_None. etrans; [apply omap_length_le|]. rewrite length_seq. lia. }
    by rewrite Hnone.
Qed.

Lemma before_unlink_no_unlink st rels nrels :
  Forall (fun e => ¬ is_unlink e)
    ([Ev_DropRelFileNodesAllBuffers rels nrels]
     ++ flat_map close_events (handles st rels nrels)
     ++ (invalidate_event <$> handles st rels nrels)).
Proof.
  apply Forall_forall. intros e He.
  apply elem_of_app in He as [He|He].
  { apply list_elem_of_singleton in He as ->. by intros []. }
  apply elem_of_app in He as [He|He].
  - apply list_elem_of_In, in_flat_map in He as (h & _ & He).
    apply list_elem_of_In, list_elem_of_fmap in He as (f & -> & _). by intros [].
  - apply list_elem_of_fmap in He as (h & -> & _). by intros [].
Qed.

(** C8: in every execution of smgrdounlinkall over a non-empty array of
    live handles the calls made are a prefix of: drop the buffers of all
    the handles, close every fork of every handle, broadcast one
    invalidation per handle, unlink every fork of every handle; they are
    all of these when the routine returns.  Hence whenever a fork is
    unlinked, the buffers were dropped, every fork of every handle was
    closed and the invalidation of every handle was broadcast before.  The
    routine stops early only when one of these calls raises, with the error
    of that call: when none of them raises it returns, having made them
    all. *)
Theorem smgrdounlinkall_order st rels nrels isRedo r st' :
  nrels ≠ 0 →
  (∀ i, (i < Z.to_nat nrels)%nat → is_Some (handle_at st rels i)) →
  smgrdounlinkall env rels nrels isRedo st = (r, st') →
  let hs := handles st rels nrels in
  fst <$> hs = take (Z.to_nat nrels) rels
  ∧ ∃ evs,
      trace st' = trace st ++ evs
      ∧ evs `prefix_of` unlink_script st rels nrels isRedo
      ∧ (r = Ok tt → evs = unlink_script st rels nrels isRedo)
      ∧ (∀ before ev after, evs = before ++ ev :: after → is_unlink ev →
           [Ev_DropRelFileNodesAllBuffers rels nrels]
           ++ flat_map close_events hs ++ (invalidate_event <$> hs)
           `prefix_of` before)
      ∧ (r = Ok tt
         ∨ ∃ before ev, evs = before ++ [ev] ∧ r = Raise (external_error ev)
             ∧ ext_raises env (trace st ++ before) ev = true)
      ∧ ((∀ tr ev, ev ∈ unlink_script st rels nrels isRedo →
            ext_raises env tr ev = false) →
         r = Ok tt ∧ evs = unlink_script st rels nrels isRedo).
Proof.
  intros Hn Hlive Hrun hs. split; [by apply handles_all|].
  destruct (plays_smgrdounlinkall st rels nrels isRedo Hn Hlive)
    as (evs & Hst & Hpre & Hok & Hfail).
  rewrite Hrun in Hst, Hok, Hfail. simpl in Hst, Hok, Hfail. exists evs.
  assert (Hcases : r = Ok tt
            ∨ ∃ before ev, evs = before ++ [ev] ∧ r = Raise (external_error ev)
                ∧ ext_raises env (trace st ++ before) ev = true).
  { destruct r as [[]|e]; [by left|]. right.
    destruct (Hfail e eq_refl) as (before & ev & -> & -> & Hq).
    by exists before, ev. }
  split; [by rewrite Hst|]. split; [done|]. split; [|split; [|split; [done|]]].
  - intros ->. by destruct (Hok tt eq_refl).
  - intros before ev after -> Hev.
    eapply prefix_before_unlink; [|apply before_unlink_no_unlink|exact Hev].
    unfold unlink_script in Hpre. rewrite <- !app_assoc. exact Hpre.
  - intros Hquiet. destruct Hcases as [->|(before & ev & -> & _ & Hq)].
    + split; [done|]. by destruct (Hok tt eq_refl).
    + rewrite Hquiet in Hq; [done|].
      destruct Hpre as [rest ->]. apply elem_of_app. left.
      apply elem_of_app. right. apply elem_of_cons. by left.
Qed.

End Calls.

Lemma smgrdounlinkall_order_witness :
  let st := two_handles_state in
  let rels := [2%positive; 1%positive] in
  let out := smgrdounlinkall quiet_env rels 2 true st in
  let hs := handles st rels 2 in
  fst <$> hs = take (Z.to_nat 2) rels
  ∧ fst out = Ok tt
  ∧ trace (snd out) = trace st ++ unlink_script st rels 2 true
  ∧ ∀ before ev after,
      unlink_script st rels 2 true = before ++ ev :: after → is_unlink ev →
      [Ev_DropRelFileNodesAllBuffers rels 2]
      ++ flat_map close_events hs ++ (invalidate_event <$> hs)
      `prefix_of` before.
Proof.
  intros st rels out hs.
  destruct (smgrdounlinkall_order quiet_env st rels 2 true (fst out) (snd out))
    as (Hhs & evs & Ht & _ & _ & Horder & _ & Hall).
  - discriminate.
  - intros [|[|i]] Hi; [vm_compute; eauto..|simpl in Hi; lia].
  - apply surjective_pairing.
  - destruct Hall as [Hr Hevs]; [reflexivity|].
    split; [exact Hhs|]. split; [exact Hr|]. rewrite <- Hevs.
    split; [exact Ht|exact Horder].
Defined.

(** ** The ownership protocol *)

Lemma elem_of_list_remove (p q : Ptr) l :
  p ∈ list_remove q l ↔ p ∈ l ∧ p ≠ q.
Proof. unfold list_remove. rewrite list_elem_of_filter. tauto. Qed.

Lemma NoDup_list_remove (q : Ptr) l : NoDup l → NoDup (list_remove q l).
Proof. apply NoDup_filter. Qed.

Lemma list_remove_not_in (q : Ptr) l : q ∉ l → list_remove q l = l.
Proof.
  unfold list_remove. induction l as [|x l IH]; intros Hq; [done|].
  apply not_elem_of_cons in Hq as [Hne Hq].
  rewrite filter_cons_True by done. by rewrite IH.
Qed.

Lemma smgrsetowner_live owner reln st d :
  entries st !! reln = Some d →
  ∃ st', smgrsetowner owner reln st = (Ok tt, st')
    ∧ entries st' = <[reln := set_smgr_owner (Some owner) d]> (entries st)
    ∧ owner_cells st' =
        <[owner := reln]> (match smgr_owner d with
                           | Some old => delete old (owner_cells st)
                           | None => owner_cells st
                           end)
    ∧ unowned_relns st' =
        match smgr_owner d with
        | Some _ => unowned_relns st
        | None => list_remove reln (unowned_relns st)
        end
    ∧ trace st' = trace st ∧ InRecovery st' = InRecovery st.
Proof.
  intros Hd. unfold smgrsetowner. rewrite bind_eq, (deref_live _ _ _ Hd).
  rewrite bind_eq. destruct (smgr_owner d) as [old|] eqn:Ho.
  - unfold write_cell at 1, modify at 1. rewrite bind_eq.
    erewrite store_live by exact Hd. eexists. split; [done|]. done.
  - unfold dlist_delete, modify at 1. rewrite bind_eq.
    erewrite store_live by exact Hd. eexists. split; [done|]. done.
Qed.

Lemma smgrclearowner_live owner reln st d :
  entries st !! reln = Some d →
  ∃ st', smgrclearowner owner reln st = (Ok tt, st')
    ∧ if decide (smgr_owner d = Some owner)
      then entries st' = <[reln := set_smgr_owner None d]> (entries st)
           ∧ owner_cells st' = delete owner (owner_cells st)
           ∧ unowned_relns st' = unowned_relns st ++ [reln]
           ∧ trace st' = trace st ∧ InRecovery st' = InRecovery st
      else st' = st.
Proof.
  intros Hd. unfold smgrclearowner. rewrite bind_eq, (deref_live _ _ _ Hd).
  destruct (decide (smgr_owner d = Some owner)) as [Ho|Ho].
  - rewrite decide_False by (intros Hn; by apply Hn).
    unfold write_cell, modify at 1. rewrite bind_eq, bind_eq.
    erewrite store_live by exact Hd. eexists. split; [done|]. done.
  - rewrite decide_True by done. eexists. split; done.
Qed.

(** smgrsetowner keeps the unowned list exact, whatever the variable
    [owner] held before. *)
Lemma smgrsetowner_unowned_ok owner reln st st' d :
  unowned_ok st → entries st !! reln = Some d →
  entries st' = <[reln := set_smgr_owner (Some owner) d]> (entries st) →
  unowned_relns st' =
    match smgr_owner d with
    | Some _ => unowned_relns st
    | None => list_remove reln (unowned_relns st)
    end →
  unowned_ok st'.
Proof.
  intros [Hnd Hin] Hd He Hu. split.
  - rewrite Hu. destruct (smgr_owner d); [done|]. by apply NoDup_list_remove.
  - intros p. rewrite He, lookup_insert.
    destruct (decide (reln = p)) as [<-|Hne].
    + split.
      * rewrite Hu. intros Hp. destruct (smgr_owner d) as [old|] eqn:Ho.
        -- apply Hin in Hp as (d' & Hd' & Hnone). simplify_eq.
        -- apply elem_of_list_remove in Hp as [_ Hp]. done.
      * intros (d' & Hd' & Hnone). by simplify_eq.
    + rewrite <- Hin, Hu. destruct (smgr_owner d); [done|].
      rewrite elem_of_list_remove.
      split; [by intros [? _]|]. intros ?. split; [done|congruence].
Qed.

(** smgrsetowner keeps the registry consistent when the variable [owner]
    was NULL or already held the handle. *)
Lemma smgrsetowner_registry_ok owner reln st st' d :
  registry_ok st → entries st !! reln = Some d →
  smgrsetowner owner reln st = (Ok tt, st') →
  owner_cells st !! owner = None ∨ owner_cells st !! owner = Some reln →
  registry_ok st'.
Proof.
  intros (Hkeys & Hun & Hcells & Hown) Hd Hrun Hfree.
  destruct (smgrsetowner_live owner reln st d Hd)
    as (st0 & Hrun0 & He & Hc & Hu & _ & _).
  rewrite Hrun in Hrun0. simplify_eq.
  split; [|split; [by eapply smgrsetowner_unowned_ok|split]].
  - rewrite He. by apply (keys_unique_insert_same_key _ _ d).
  - intros o p. rewrite Hc, He, lookup_insert.
    destruct (decide (owner = o)) as [<-|Hne].
    { intros [= <-]. rewrite lookup_insert_eq. eauto. }
    intros Hop.
    assert (Hop' : owner_cells st !! o = Some p ∧ smgr_owner d ≠ Some o).
    { destruct (smgr_owner d) as [old|]; [|done].
      rewrite lookup_delete in Hop. case_decide; [done|]. split; [done|congruence]. }
    destruct Hop' as [Hop' Hno].
    destruct (Hcells o p Hop') as (dp & Hdp & Hpo).
    rewrite lookup_insert_ne; [eauto|]. intros <-. by simplify_eq.
  - intros p dp o. rewrite He, Hc, lookup_insert.
    destruct (decide (reln = p)) as [<-|Hne].
    { intros [= <-] [= <-]. by rewrite lookup_insert_eq. }
    intros Hdp Hpo. pose proof (Hown p dp o Hdp Hpo) as Hcell.
    rewrite lookup_insert_ne.
    + destruct (smgr_owner d) as [old|] eqn:Hold; [|done].
      rewrite lookup_delete_ne; [done|]. intros <-.
      pose proof (Hown reln d old Hd Hold). congruence.
    + intros <-. destruct Hfree; congruence.
Qed.

Lemma registry_ok_initial in_recovery : registry_ok (initial_state in_recovery).
Proof.
  split; [apply keys_unique_empty|]. split; [split|split].
  - constructor.
  - intros p. split.
    + intros H. by apply elem_of_nil in H.
    + intros (d & Hd & _). unfold entries in Hd. simpl in Hd.
      by rewrite lookup_empty in Hd.
  - intros o p H. simpl in H. by rewrite lookup_empty in H.
  - intros p d o H. unfold entries in H. simpl in H. by rewrite lookup_empty in H.
Qed.

(** C1, as the code has it: on a live handle of a consistent registry,
    smgrsetowner nulls the variable of a previous, different owner of the
    handle, takes the handle out of the unowned list, and makes the handle
    and the variable [owner] point to each other.  It does not touch any
    other handle: a handle that [owner] held before keeps its
    back-reference.  The registry stays consistent, the binding one-to-one,
    when [owner] was NULL or already held the handle. *)
Theorem smgrsetowner_binding owner reln st d :
  registry_ok st →
  entries st !! reln = Some d →
  ∃ st', smgrsetowner owner reln st = (Ok tt, st')
    ∧ (∀ old, smgr_owner d = Some old → old ≠ owner →
         owner_cells st' !! old = None)
    ∧ (reln ∉ unowned_relns st')
    ∧ entries st' !! reln = Some (set_smgr_owner (Some owner) d)
    ∧ owner_cells st' !! owner = Some reln
    ∧ (∀ q, q ≠ reln → entries st' !! q = entries st !! q)
    ∧ (owner_cells st !! owner = None ∨ owner_cells st !! owner = Some reln →
       registry_ok st').
Proof.
  intros Hok Hd. pose proof Hok as (Hkeys & Hun & Hcells & Hown).
  destruct (smgrsetowner_live owner reln st d Hd)
    as (st' & Hrun & He & Hc & Hu & _ & _).
  assert (Hun' : unowned_ok st') by (by eapply smgrsetowner_unowned_ok).
  exists st'. split; [done|]. split; [|split; [|split; [|split; [|split]]]].
  - intros old Hold Hne. rewrite Hc, Hold, lookup_insert_ne by done.
    apply lookup_delete_eq.
  - intros Hin. apply Hun' in Hin as (d' & Hd' & Hnone).
    rewrite He, lookup_insert_eq in Hd'. by simplify_eq.
  - by rewrite He, lookup_insert_eq.
  - by rewrite Hc, lookup_insert_eq.
  - intros q Hq. by rewrite He, lookup_insert_ne.
  - intros Hfree. by eapply smgrsetowner_registry_ok.
Qed.

(** C1, as stated, fails: when the variable at address 10 holds handle 1
    and takes handle 2, handle 1 keeps its back-reference to that variable,
    so that two handles name the same owner. *)
Lemma smgrsetowner_keeps_previous_occupant :
  let st := owned_handle_state in
  let out := smgrsetowner 10%positive 2%positive st in
  owner_cells st !! 10%positive = Some 1%positive
  ∧ smgr_owner <$> entries st !! 1%positive = Some (Some 10%positive)
  ∧ fst out = Ok tt
  ∧ owner_cells (snd out) !! 10%positive = Some 2%positive
  ∧ smgr_owner <$> entries (snd out) !! 2%positive = Some (Some 10%positive)
  ∧ smgr_owner <$> entries (snd out) !! 1%positive = Some (Some 10%positive).
Proof. vm_compute. repeat split. Qed.

(** C3: on a live handle of a consistent registry, smgrsetowner followed
    by smgrclearowner with the same variable leaves the handle without
    owner and in the unowned list; before, between and after the two calls
    the handle is never both in the unowned list and held by an owner's
    variable. *)
Theorem smgrsetowner_smgrclearowner owner reln st d :
  unowned_ok st → cells_ok st →
  entries st !! reln = Some d →
  ∃ st1 st2,
    smgrsetowner owner reln st = (Ok tt, st1)
    ∧ smgrclearowner owner reln st1 = (Ok tt, st2)
    ∧ smgr_owner <$> entries st2 !! reln = Some None
    ∧ reln ∈ unowned_relns st2
    ∧ (∀ o, owner_cells st2 !! o ≠ Some reln)
    ∧ (∀ s, s ∈ [st; st1; st2] →
         ¬ (reln ∈ unowned_relns s ∧ ∃ o, owner_cells s !! o = Some reln)).
Proof.
  intros Hun Hcells Hd.
  destruct (smgrsetowner_live owner reln st d Hd)
    as (st1 & Hrun1 & He1 & Hc1 & Hu1 & _ & _).
  assert (Hd1 : entries st1 !! reln = Some (set_smgr_owner (Some owner) d)).
  { by rewrite He1, lookup_insert_eq. }
  destruct (smgrclearowner_live owner reln st1 _ Hd1) as (st2 & Hrun2 & Hpost).
  rewrite decide_True in Hpost by done.
  destruct Hpost as (He2 & Hc2 & Hu2 & _ & _).
  assert (Hun1 : unowned_ok st1) by (by eapply smgrsetowner_unowned_ok).
  assert (Hnot1 : reln ∉ unowned_relns st1).
  { intros Hin. apply Hun1 in Hin as (d' & Hd' & Hnone). by simplify_eq. }
  assert (Hfree2 : ∀ o, owner_cells st2 !! o ≠ Some reln).
  { intros o Ho. rewrite Hc2, Hc1, lookup_delete in Ho.
    case_decide as Hne; [done|]. rewrite lookup_insert_ne in Ho by done.
    assert (Ho' : owner_cells st !! o = Some reln ∧ smgr_owner d ≠ Some o).
    { destruct (smgr_owner d) as [old|]; [|done].
      rewrite lookup_delete in Ho. case_decide; [done|]. split; [done|congruence]. }
    destruct Ho' as [Ho' Hno]. destruct (Hcells o reln Ho') as (d' & Hd' & Ho'').
    by simplify_eq. }
  exists st1, st2. split; [done|]. split; [done|].
  split; [by rewrite He2, lookup_insert_eq|].
  split; [rewrite Hu2; apply elem_of_app; right; by apply list_elem_of_singleton|].
  split; [done|].
  intros s Hs [Hin (o & Ho)].
  apply elem_of_cons in Hs as [->|Hs]; [|apply elem_of_cons in Hs as [->|Hs]].
  - apply Hun in Hin as (d' & Hd' & Hnone).
    destruct (Hcells o reln Ho) as (d'' & Hd'' & Hsome). by simplify_eq.
  - done.
  - apply list_elem_of_singleton in Hs as ->. by apply (Hfree2 o).
Qed.

(** ** The registry under smgropen *)

Section Registry.

Variable env : Environment.

(** How smgropen ends: a hit leaves the set of entries as it is and returns
    the entry found or raises the mismatch error; a miss adds one entry, at
    a fresh address. *)
Lemma smgropen_outcome rnode backend relpersistence st r st' :
  smgropen env rnode backend relpersistence st = (r, st') →
  let key := {| node := rnode; backend := backend |} in
  (∃ p d d', hash_find key (entries st) = Some p
     ∧ entries st !! p = Some d
     ∧ entries st' = <[p := d']> (entries st)
     ∧ smgr_rnode d' = key ∧ smgr_owner d' = smgr_owner d
     ∧ smgr_cached_nblocks d' = smgr_cached_nblocks d
     ∧ unowned_relns st' = unowned_relns st
     ∧ owner_cells st' = owner_cells st
     ∧ (∀ q, r = Ok q → q = p))
  ∨ (∃ p, hash_find key (entries st) = None
     ∧ entries st !! p = None
     ∧ entries st' = <[p := fresh_entry env rnode backend relpersistence]> (entries st)
     ∧ owner_cells st' = owner_cells st
     ∧ (∀ q, r = Ok q →
          q = p ∧ unowned_relns st' = unowned_relns (table_of st) ++ [p])).
Proof.
  intros Hrun key.
  destruct (hash_find key (entries st)) as [p|] eqn:Hf.
  - left. destruct (hash_find_Some _ _ _ Hf) as (d & Hd & Hk).
    rewrite (smgropen_found env _ _ _ _ _ _ Hf Hd) in Hrun.
    case_decide.
    + simplify_eq. exists p, d, (set_smgr_relpersistence relpersistence d).
      repeat split; try done. by intros q [= <-].
    + exists p, d, d. rewrite insert_id by done.
      destruct (_ || _); simplify_eq; repeat split; try done.
      by intros q [= <-].
  - right. rewrite (smgropen_miss env _ _ _ _ Hf) in Hrun.
    exists (fresh (dom (entries st))).
    split; [done|]. split; [apply not_elem_of_dom, is_fresh|].
    assert (Hcells : owner_cells (table_of st) = owner_cells st).
    { unfold table_of. by destruct (SMgrRelationHash st). }
    destruct (ext_raises _ _ _); simplify_eq; repeat split; try done;
      try (simpl; exact Hcells); congruence.
Qed.

Lemma smgropen_keys_unique rnode backend relpersistence st r st' :
  keys_unique (entries st) →
  smgropen env rnode backend relpersistence st = (r, st') →
  keys_unique (entries st').
Proof.
  intros Hu Hrun.
  destruct (smgropen_outcome _ _ _ _ _ _ Hrun)
    as [(p & d & d' & Hf & Hd & -> & Hk & _)|(p & Hf & Hd & -> & _)].
  - apply (keys_unique_insert_same_key _ _ d); [done..|].
    rewrite Hk. destruct (hash_find_Some _ _ _ Hf) as (d0 & Hd0 & Hk0). by simplify_eq.
  - by apply keys_unique_insert_fresh.
Qed.



(** Consistency looks at the identity and the owner of an entry only. *)
Lemma registry_ok_update st st' p d d' :
  registry_ok st → entries st !! p = Some d →
  entries st' = <[p := d']> (entries st) →
  smgr_rnode d' = smgr_rnode d → smgr_owner d' = smgr_owner d →
  unowned_relns st' = unowned_relns st → owner_cells st' = owner_cells st →
  registry_ok st'.
Proof.
  intros (Hkeys & [Hnd Hin] & Hcells & Hown) Hd He Hk Ho Hu Hc.
  split; [|split; [split|split]].
  - rewrite He. by apply (keys_unique_insert_same_key _ _ d).
  - by rewrite Hu.
  - intros q. rewrite Hu, Hin, He, lookup_insert.
    destruct (decide (p = q)) as [<-|Hne]; [|done]. split.
    + intros (d0 & Hd0 & Hnone). simplify_eq. exists d'. by rewrite Ho.
    + intros (d0 & [= <-] & Hnone). exists d. by rewrite <- Ho.
  - intros o q. rewrite Hc, He, lookup_insert. intros Hoq.
    destruct (Hcells o q Hoq) as (dq & Hdq & Hqo).
    destruct (decide (p = q)) as [<-|Hne]; [|eauto].
    simplify_eq. exists d'. by rewrite Ho.
  - intros q dq o. rewrite Hc, He, lookup_insert.
    destruct (decide (p = q)) as [<-|Hne].
    + intros [= <-]. rewrite Ho. by apply Hown.
    + apply Hown.
Qed.

Lemma unowned_ok_table_of st :
  unowned_ok st → unowned_relns (table_of st) = unowned_relns st.
Proof.
  intros [_ Hin]. unfold table_of.
  destruct (SMgrRelationHash st) as [h|] eqn:Eh; [done|]. simpl.
  destruct (unowned_relns st) as [|p l] eqn:El; [done|].
  destruct (proj1 (Hin p)) as (d & Hd & _); [apply elem_of_cons; by left|].
  unfold entries in Hd. rewrite Eh in Hd. simpl in Hd. by rewrite lookup_empty in Hd.
Qed.

(** smgropen keeps the registry consistent when it returns. *)
Lemma smgropen_registry_ok rnode backend relpersistence st p st' :
  registry_ok st →
  smgropen env rnode backend relpersistence st = (Ok p, st') →
  registry_ok st'.
Proof.
  intros Hok Hrun.
  destruct (smgropen_outcome _ _ _ _ _ _ Hrun)
    as [(p0 & d & d' & Hf & Hd & He & Hk & Ho & _ & Hu & Hc & _)
       |(p0 & Hf & Hd & He & Hc & Hq)].
  { eapply registry_ok_update; try done.
    destruct (hash_find_Some _ _ _ Hf) as (d0 & Hd0 & Hk0). simplify_eq.
    by rewrite Hk. }
  destruct (Hq p eq_refl) as [-> Hu]. clear Hq.
  destruct Hok as (Hkeys & Hun & Hcells & Hown).
  rewrite (unowned_ok_table_of _ Hun) in Hu. destruct Hun as [Hnd Hin].
  assert (Hnew : p0 ∉ unowned_relns st).
  { intros Hp. apply Hin in Hp as (d & Hd' & _). congruence. }
  split; [|split; [split|split]].
  - rewrite He. by apply keys_unique_insert_fresh.
  - rewrite Hu. apply NoDup_app. split; [done|]. split; [|apply NoDup_singleton].
    intros q Hq Hq'. apply list_elem_of_singleton in Hq' as ->. done.
  - intros q. rewrite Hu, He, elem_of_app, list_elem_of_singleton, lookup_insert.
    destruct (decide (p0 = q)) as [<-|Hne].
    + split; [|by right]. intros _. by eexists.
    + rewrite Hin. split; [|by left]. by intros [?|?].
  - intros o q. rewrite Hc, He. intros Hoq.
    destruct (Hcells o q Hoq) as (dq & Hdq & Hqo).
    rewrite lookup_insert_ne; [eauto|]. intros <-. congruence.
  - intros q dq o. rewrite Hc, He, lookup_insert.
    destruct (decide (p0 = q)) as [<-|Hne]; [by intros [= <-]|]. apply Hown.
Qed.

End Registry.


Lemma registry_ok_two_handles : registry_ok two_handles_state.
Proof.
  apply (smgropen_registry_ok quiet_env 6%N 1 0 one_handle_state 2%positive).
  - apply (smgropen_registry_ok quiet_env 5%N 1 0 (initial_state false) 1%positive).
    + apply registry_ok_initial.
    + vm_compute. reflexivity.
  - vm_compute. reflexivity.
Qed.

Lemma smgrsetowner_binding_witness :
  ∃ st', smgrsetowner 10%positive 1%positive two_handles_state = (Ok tt, st')
    ∧ entries st' !! 1%positive =
        Some (set_smgr_owner (Some 10%positive) (fresh_entry quiet_env 5%N 1 0))
    ∧ owner_cells st' !! 10%positive = Some 1%positive
    ∧ registry_ok st'.
Proof.
  destruct (smgrsetowner_binding 10%positive 1%positive two_handles_state
              (fresh_entry quiet_env 5%N 1 0))
    as (st' & Hrun & _ & _ & Hentry & Hcell & _ & Hok).
  - apply registry_ok_two_handles.
  - vm_compute. reflexivity.
  - exists st'. split; [exact Hrun|]. split; [exact Hentry|].
    split; [exact Hcell|]. apply Hok. left. vm_compute. reflexivity.
Defined.

Lemma smgrsetowner_smgrclearowner_witness :
  ∃ st1 st2,
    smgrsetowner 10%positive 1%positive two_handles_state = (Ok tt, st1)
    ∧ smgrclearowner 10%positive 1%positive st1 = (Ok tt, st2)
    ∧ smgr_owner <$> entries st2 !! 1%positive = Some None
    ∧ 1%positive ∈ unowned_relns st2.
Proof.
  destruct (smgrsetowner_smgrclearowner 10%positive 1%positive two_handles_state
              (fresh_entry quiet_env 5%N 1 0))
    as (st1 & st2 & H1 & H2 & H3 & H4 & _).
  - apply registry_ok_two_handles.
  - apply registry_ok_two_handles.
  - vm_compute. reflexivity.
  - exists st1, st2. repeat split; assumption.
Defined.

(** ** The end-of-transaction sweep *)

Section Sweep.

Variable env : Environment.

(** The backend never fails to close a fork. *)
Hypothesis close_succeeds :
  ∀ tr impl reln forknum,
    ext_raises env tr (Ev_smgr_close impl reln forknum) = false.

Lemma close_forks_run (h : Ptr * SMgrRelationData) st :
  for_each all_forks (fun forknum =>
    call env (Ev_smgr_close (reln_smgr (snd h)) (fst h) forknum)) st =
  (Ok tt, set_trace (trace st ++ close_events h) st).
Proof.
  unfold close_events. revert st.
  induction all_forks as [|f l IH]; intros st; simpl.
  - unfold mret, M_ret, ret. by rewrite app_nil_r, set_trace_id.
  - rewrite bind_eq, call_eq, close_succeeds, IH. simpl.
    by rewrite <- app_assoc.
Qed.

Lemma hash_search_remove_live st p d :
  keys_unique (entries st) → entries st !! p = Some d →
  hash_search_remove (smgr_rnode d) st =
    (Ok (Some p), set_hash (Some (delete p (entries st))) st).
Proof.
  intros Hu Hd. pose proof (hash_find_unique _ _ _ Hu Hd) as Hf.
  unfold hash_search_remove, entries in *.
  destruct (SMgrRelationHash st) as [h|]; simpl in *.
  - by rewrite Hf.
  - by rewrite lookup_empty in Hd.
Qed.

(** Closing a handle that has no owner. *)
Lemma smgrclose_unowned st p d :
  keys_unique (entries st) → entries st !! p = Some d → smgr_owner d = None →
  ∃ st', smgrclose env p st = (Ok tt, st')
    ∧ entries st' = delete p (entries st)
    ∧ unowned_relns st' = list_remove p (unowned_relns st)
    ∧ owner_cells st' = owner_cells st
    ∧ trace st' = trace st ++ close_events (p, d).
Proof.
  intros Hu Hd Ho. unfold smgrclose.
  rewrite bind_eq, (deref_live _ _ _ Hd), bind_eq.
  rewrite (close_forks_run (p, d)), Ho.
  unfold dlist_delete, modify at 1. rewrite bind_eq, bind_eq.
  erewrite hash_search_remove_live by done.
  eexists. split; [done|]. done.
Qed.

(** The loop of AtEOXact_SMgr over the unowned list [l]. *)
Lemma sweep_loop l :
  ∀ st, keys_unique (entries st) → unowned_ok st → unowned_relns st = l →
  ∃ st' evs,
    for_each l (fun rel =>
      d ← deref rel;
      (if smgr_owner d is Some _ then raise assertion_failed else mret tt);;
      smgrclose env rel) st = (Ok tt, st')
    ∧ unowned_relns st' = []
    ∧ (∀ q, entries st' !! q = if decide (q ∈ l) then None else entries st !! q)
    ∧ owner_cells st' = owner_cells st
    ∧ trace st' = trace st ++ evs
    ∧ (∀ ev, ev ∈ evs → ∃ impl q forknum,
         ev = Ev_smgr_close impl q forknum ∧ q ∈ l)
    ∧ (∀ q d ev, q ∈ l → entries st !! q = Some d →
         ev ∈ close_events (q, d) → ev ∈ evs).
Proof.
  induction l as [|p l IH]; intros st Hu [Hnd Hin] Hl.
  { exists st, []. simpl. rewrite app_nil_r. repeat split; try done.
    - intros ev Hev. by apply elem_of_nil in Hev.
    - intros q d ev Hq. by apply elem_of_nil in Hq. }
  destruct (proj1 (Hin p)) as (d & Hd & Ho); [rewrite Hl; apply elem_of_cons; by left|].
  destruct (smgrclose_unowned st p d Hu Hd Ho) as (st1 & Hrun & He & Hun & Hc & Ht).
  rewrite Hl in Hnd. apply NoDup_cons in Hnd as [Hp Hnd'].
  assert (Hl1 : unowned_relns st1 = l).
  { rewrite Hun, Hl. unfold list_remove. rewrite filter_cons_False by (intros H; by apply H).
    by apply list_remove_not_in. }
  destruct (IH st1) as (st' & evs & Hloop & Hempty & Hent & Hcells & Htr & Hform & Hall).
  - rewrite He. by apply keys_unique_delete.
  - split; [by rewrite Hl1|]. intros q. rewrite Hl1, He, lookup_delete.
    destruct (decide (p = q)) as [<-|Hne].
    + split; [done|]. by intros (? & ? & _).
    + rewrite <- Hin, Hl, elem_of_cons. split; [by right|]. intros [?|?]; [congruence|done].
  - done.
  - exists st', (close_events (p, d) ++ evs). cbn [for_each].
    rewrite bind_eq, bind_eq, (deref_live _ _ _ Hd), Ho. cbv beta iota.
    rewrite bind_eq. unfold mret at 1, M_ret at 1, ret at 1. rewrite Hrun, Hloop.
    split; [done|]. split; [done|]. split; [|split; [|split; [|split]]].
    + intros q. rewrite Hent, He, lookup_delete.
      destruct (decide (p = q)) as [<-|Hne].
      * rewrite (decide_True (P := p ∈ p :: l)) by (apply elem_of_cons; by left).
        by destruct (decide (p ∈ l)).
      * destruct (decide (q ∈ l)) as [Hq|Hq].
        -- rewrite decide_True; [done|]. apply elem_of_cons. by right.
        -- rewrite decide_False; [done|]. intros Hq'.
           apply elem_of_cons in Hq' as [?|?]; [congruence|done].
    + by rewrite Hcells.
    + by rewrite Htr, Ht, <- app_assoc.
    + intros ev Hev. apply elem_of_app in Hev as [Hev|Hev].
      * apply list_elem_of_fmap in Hev as (f & -> & _).
        exists (reln_smgr d), p, f. split; [done|]. apply elem_of_cons. by left.
      * destruct (Hform ev Hev) as (impl & q & f & -> & Hq).
        exists impl, q, f. split; [done|]. apply elem_of_cons. by right.
    + intros q dq ev Hq Hdq Hev. apply elem_of_app.
      apply elem_of_cons in Hq as [->|Hq].
      * left. by simplify_eq.
      * right. apply (Hall q dq); [done| |done].
        rewrite He, lookup_delete_ne; [done|]. intros <-. done.
Qed.

Lemma fresh_entry_cached_nblocks rnode backend relpersistence forknum :
  0 <= forknum <= MAX_FORKNUM →
  array_get (smgr_cached_nblocks (fresh_entry env rnode backend relpersistence))
    forknum = Some InvalidBlockNumber.
Proof.
  unfold MAX_FORKNUM, INIT_FORKNUM. intros Hf.
  assert (forknum = 0 ∨ forknum = 1 ∨ forknum = 2 ∨ forknum = 3)
    as [->|[->|[->| ->]]] by lia; reflexivity.
Qed.

(** C9: in a consistent registry, and with a backend that closes forks
    without error, AtEOXact_SMgr returns; it has closed every fork of every
    handle that had no owner and removed those handles from the table; it
    has made no call for, and left in place, every handle that had an
    owner; and smgropen for the identity of a removed handle then finds no
    entry and creates a new one whose cached block counts are all
    InvalidBlockNumber. *)
Theorem AtEOXact_SMgr_closes_unowned st :
  registry_ok st →
  ∃ st' evs,
    AtEOXact_SMgr env st = (Ok tt, st')
    ∧ (∀ p d, entries st !! p = Some d → smgr_owner d = None →
         entries st' !! p = None)
    ∧ (∀ p d, entries st !! p = Some d → smgr_owner d ≠ None →
         entries st' !! p = Some d)
    ∧ owner_cells st' = owner_cells st
    ∧ trace st' = trace st ++ evs
    ∧ (∀ ev, ev ∈ evs → ∃ impl q forknum d,
         ev = Ev_smgr_close impl q forknum
         ∧ entries st !! q = Some d ∧ smgr_owner d = None)
    ∧ (∀ p d forknum, entries st !! p = Some d → smgr_owner d = None →
         forknum ∈ all_forks → Ev_smgr_close (reln_smgr d) p forknum ∈ evs)
    ∧ (∀ p d relpersistence r st'',
         entries st !! p = Some d → smgr_owner d = None →
         smgropen env (node (smgr_rnode d)) (backend (smgr_rnode d))
           relpersistence st' = (r, st'') →
         ∃ q, entries st' !! q = None
           ∧ entries st'' !! q =
               Some (fresh_entry env (node (smgr_rnode d)) (backend (smgr_rnode d))
                       relpersistence)
           ∧ (∀ forknum, 0 <= forknum <= MAX_FORKNUM →
                cached_nblocks st'' q forknum = Some InvalidBlockNumber)
           ∧ (r = Ok q
              ∨ ∃ impl, r = Raise (external_error (Ev_smgr_open impl q)))).
Proof.
  intros (Hkeys & Hun & Hcells & Hown).
  destruct (sweep_loop (unowned_relns st) st Hkeys Hun eq_refl)
    as (st' & evs & Hloop & Hempty & Hent & Hc & Ht & Hform & Hall).
  destruct Hun as [Hnd Hin].
  exists st', evs. split; [|split; [|split; [|split; [|split; [|split; [|split]]]]]].
  - unfold AtEOXact_SMgr. rewrite bind_eq. exact Hloop.
  - intros p d Hd Ho. rewrite Hent, decide_True; [done|]. apply Hin. eauto.
  - intros p d Hd Ho. rewrite Hent, decide_False; [done|].
    intros Hp. apply Hin in Hp as (d' & Hd' & Hnone). by simplify_eq.
  - done.
  - done.
  - intros ev Hev. destruct (Hform ev Hev) as (impl & q & f & -> & Hq).
    apply Hin in Hq as (d & Hd & Ho). by exists impl, q, f, d.
  - intros p d f Hd Ho Hf. apply (Hall p d); [apply Hin; eauto|done|].
    unfold close_events. simpl. by apply (list_elem_of_fmap_2 _ all_forks f).
  - intros p d rp r st'' Hd Ho Hrun.
    assert (Hmiss : hash_find {| node := node (smgr_rnode d);
                                 backend := backend (smgr_rnode d) |}
                      (entries st') = None).
    { apply hash_find_None. intros q dq Hq Hk. rewrite Hent in Hq.
      case_decide as Hql; [done|].
      assert (q = p); [|subst q].
      { apply (Hkeys q p dq d); [done..|]. rewrite Hk. by destruct (smgr_rnode d). }
      apply Hql, Hin. eauto. }
    rewrite (smgropen_miss env _ _ _ _ Hmiss) in Hrun.
    exists (fresh (dom (entries st'))).
    split; [apply not_elem_of_dom, is_fresh|].
    assert (Hnew : entries st'' !! fresh (dom (entries st')) =
              Some (fresh_entry env (node (smgr_rnode d)) (backend (smgr_rnode d)) rp)).
    { destruct (ext_raises _ _ _); simplify_eq;
        exact (lookup_insert_eq (entries st') _ _). }
    split; [done|]. split.
    + intros f Hf. unfold cached_nblocks. rewrite Hnew.
      exact (fresh_entry_cached_nblocks _ _ _ f Hf).
    + destruct (ext_raises _ _ _); simplify_eq; [right|left]; eauto.
Qed.

End Sweep.

Lemma registry_ok_owned_handle : registry_ok owned_handle_state.
Proof.
  apply (smgrsetowner_registry_ok 10%positive 1%positive two_handles_state
           owned_handle_state (fresh_entry quiet_env 5%N 1 0)).
  - apply registry_ok_two_handles.
  - vm_compute. reflexivity.
  - vm_compute. reflexivity.
  - left. vm_compute. reflexivity.
Qed.

Lemma AtEOXact_SMgr_closes_unowned_witness :
  ∃ st', AtEOXact_SMgr quiet_env owned_handle_state = (Ok tt, st')
    ∧ entries st' !! 2%positive = None
    ∧ entries st' !! 1%positive =
        Some (set_smgr_owner (Some 10%positive) (fresh_entry quiet_env 5%N 1 0)).
Proof.
  destruct (AtEOXact_SMgr_closes_unowned quiet_env (fun _ _ _ _ => eq_refl)
              owned_handle_state registry_ok_owned_handle)
    as (st' & evs & Hrun & Hgone & Hkept & _).
  exists st'. split; [exact Hrun|]. split.
  - apply (Hgone 2%positive (fresh_entry quiet_env 6%N 1 0)).
    + vm_compute. reflexivity.
    + reflexivity.
  - apply (Hkept 1%positive
             (set_smgr_owner (Some 10%positive) (fresh_entry quiet_env 5%N 1 0))).
    + vm_compute. reflexivity.
    + discriminate.
Defined.

(** The life of a handle, end to end: handle 1 is created unowned and given
    to the variable at address 10; a first sweep leaves it in place; once
    the variable has given it up a second sweep removes it, and smgropen for
    the same relation builds a new entry with unknown block counts. *)
Example handle_life_cycle :
  let st1 := snd (smgrsetowner 10%positive 1%positive sized_handle_state) in
  let st2 := snd (AtEOXact_SMgr quiet_env st1) in
  let st3 := snd (smgrclearowner 10%positive 1%positive st2) in
  let st4 := snd (AtEOXact_SMgr quiet_env st3) in
  let out := smgropen quiet_env 5%N 1 0 st4 in
  cached_nblocks st2 1%positive MAIN_FORKNUM = Some 7
  ∧ entries st4 !! 1%positive = None
  ∧ fst out = Ok 1%positive
  ∧ cached_nblocks (snd out) 1%positive MAIN_FORKNUM = Some InvalidBlockNumber
  ∧ cached_nblocks (snd out) 1%positive FSM_FORKNUM = Some InvalidBlockNumber.
Proof. vm_compute. repeat split. Qed.

(** ** Routines that leave the handles alone *)

Section Frames.

Variable env : Environment.

Lemma same_handles_refl st : same_handles st st.
Proof. by repeat split. Qed.

Lemma same_handles_trans st1 st2 st3 :
  same_handles st1 st2 → same_handles st2 st3 → same_handles st1 st3.
Proof.
  intros (Hu & Hc & Hr & Hh & Hs) (Hu' & Hc' & Hr' & Hh' & Hs').
  split; [congruence|]. split; [congruence|]. split; [congruence|].
  split; [by rewrite Hh'|]. intros q. by rewrite Hs'.
Qed.

Lemma same_handles_set_trace t st : same_handles st (set_trace t st).
Proof. by repeat split. Qed.

Lemma array_set_same_length a i v a' :
  array_set a i v = Some a' → length a' = length a.
Proof.
  unfold array_set. intros H. case_decide; simplify_eq. apply length_insert.
Qed.

Lemma frames_ret {A} (a : A) : frames (mret a).
Proof. intros st r st' [= <- <-]. apply same_handles_refl. Qed.

Lemma frames_raise {A} e : frames (@raise A e).
Proof. intros st r st' [= <- <-]. apply same_handles_refl. Qed.

Lemma frames_gets {A} (f : State → A) : frames (gets f).
Proof. intros st r st' [= <- <-]. apply same_handles_refl. Qed.

Lemma frames_bind {A B} (m : M A) (k : A → M B) :
  frames m → (∀ a, frames (k a)) → frames (m ≫= k).
Proof.
  intros Hm Hk st r st' Hrun. rewrite bind_eq in Hrun.
  destruct (m st) as [[a|e] st1] eqn:Em.
  - eapply same_handles_trans; [by eapply Hm|by eapply Hk].
  - simplify_eq. by eapply Hm.
Qed.

Lemma frames_for_each {A} (l : list A) (body : A → M unit) :
  (∀ x, frames (body x)) → frames (for_each l body).
Proof.
  intros Hbody. induction l as [|x l IH]; simpl.
  - apply frames_ret.
  - apply frames_bind; [apply Hbody|]. intros _. apply IH.
Qed.

Lemma frames_call ev : frames (call env ev).
Proof.
  intros st r st' Hrun. rewrite call_eq in Hrun.
  destruct (ext_raises _ _ _); simplify_eq; apply same_handles_set_trace.
Qed.

Lemma frames_deref reln : frames (deref reln).
Proof.
  intros st r st' Hrun. rewrite deref_eq in Hrun.
  destruct (entries st !! reln); simplify_eq; apply same_handles_refl.
Qed.

Lemma frames_index {A} (a : list A) i : frames (index a i).
Proof.
  unfold index. destruct (a !! i); [apply frames_ret|apply frames_raise].
Qed.

Lemma frames_get_cached_nblocks reln forknum :
  frames (get_cached_nblocks reln forknum).
Proof.
  intros st r st' Hrun. rewrite get_cached_nblocks_eq in Hrun.
  destruct (cached_nblocks _ _ _); simplify_eq; apply same_handles_refl.
Qed.

Lemma frames_set_cached_nblocks reln forknum v :
  frames (set_cached_nblocks reln forknum v).
Proof.
  intros st r st' Hrun. unfold set_cached_nblocks in Hrun.
  rewrite bind_eq, deref_eq in Hrun.
  destruct (entries st !! reln) as [d|] eqn:Hd;
    [|simplify_eq; apply same_handles_refl].
  destruct (array_set _ _ _) as [a|] eqn:Ha;
    [|unfold raise in Hrun; simplify_eq; apply same_handles_refl].
  rewrite (store_live _ _ _ _ Hd) in Hrun. simplify_eq.
  split; [done|]. split; [done|]. split; [done|]. split.
  - split; [|by eauto]. intros _. unfold entries in Hd.
    destruct (SMgrRelationHash st); [eauto|]. simpl in Hd.
    by rewrite lookup_empty in Hd.
  - intros q. rewrite entries_set_hash, lookup_insert.
    case_decide; [subst q|done]. rewrite Hd. simpl. unfold skeleton. simpl.
    by rewrite (array_set_same_length _ _ _ _ Ha).
Qed.

Lemma frames_smgrnblocks_cached reln forknum :
  frames (smgrnblocks_cached reln forknum).
Proof.
  unfold smgrnblocks_cached. apply frames_bind; [apply frames_gets|].
  intros [|]; [|apply frames_ret].
  apply frames_bind; [apply frames_get_cached_nblocks|].
  intros c. case_decide; apply frames_ret.
Qed.

Lemma frames_smgrnblocks reln forknum : frames (smgrnblocks env reln forknum).
Proof.
  unfold smgrnblocks. apply frames_bind; [apply frames_smgrnblocks_cached|].
  intros c. case_decide; [apply frames_ret|].
  apply frames_bind; [apply frames_deref|]. intros d.
  apply frames_bind.
  - unfold call_nblocks. apply frames_bind; [apply frames_gets|]. intros tr.
    apply frames_bind; [apply frames_call|]. intros _. apply frames_ret.
  - intros n. apply frames_bind; [apply frames_set_cached_nblocks|].
    intros _. apply frames_ret.
Qed.

Lemma frames_smgrextend reln forknum blocknum skipFsync :
  frames (smgrextend env reln forknum blocknum skipFsync).
Proof.
  unfold smgrextend. apply frames_bind; [apply frames_deref|]. intros d.
  apply frames_bind; [apply frames_call|]. intros _.
  apply frames_bind; [apply frames_get_cached_nblocks|]. intros c.
  case_decide; apply frames_set_cached_nblocks.
Qed.

Lemma frames_smgrtruncate reln forknum nforks nblocks :
  frames (smgrtruncate env reln forknum nforks nblocks).
Proof.
  unfold smgrtruncate. apply frames_bind; [apply frames_call|]. intros _.
  apply frames_bind; [apply frames_deref|]. intros d.
  apply frames_bind; [apply frames_call|]. intros _.
  apply frames_for_each. intros i. unfold truncate_fork.
  apply frames_bind; [apply frames_index|]. intros f.
  apply frames_bind; [apply frames_set_cached_nblocks|]. intros _.
  apply frames_bind; [apply frames_deref|]. intros d'.
  apply frames_bind; [apply frames_index|]. intros n.
  apply frames_bind; [apply frames_call|]. intros _.
  apply frames_set_cached_nblocks.
Qed.

Lemma frames_smgrrelease reln : frames (smgrrelease env reln).
Proof.
  unfold smgrrelease. apply frames_for_each. intros f.
  apply frames_bind; [apply frames_deref|]. intros d.
  apply frames_bind; [apply frames_call|]. intros _.
  apply frames_set_cached_nblocks.
Qed.

Lemma frames_close_and_collect rels idx : frames (close_and_collect env rels idx).
Proof.
  induction idx as [|i idx IH]; cbn [close_and_collect]; [apply frames_ret|].
  apply frames_bind; [apply frames_index|]. intros rel.
  apply frames_bind; [apply frames_deref|]. intros d.
  apply frames_bind; [apply frames_for_each; intros f; apply frames_call|].
  intros _. apply frames_bind; [apply IH|]. intros rnodes. apply frames_ret.
Qed.

Lemma frames_smgrdounlinkall rels nrels isRedo :
  frames (smgrdounlinkall env rels nrels isRedo).
Proof.
  unfold smgrdounlinkall. case_decide; [apply frames_ret|].
  apply frames_bind; [apply frames_call|]. intros _.
  apply frames_bind; [apply frames_close_and_collect|]. intros rnodes.
  apply frames_bind.
  - apply frames_for_each. intros i.
    apply frames_bind; [apply frames_index|]. intros rn. apply frames_call.
  - intros _. apply frames_for_each. intros i.
    apply frames_bind; [apply frames_index|]. intros rel.
    apply frames_bind; [apply frames_index|]. intros rn.
    apply frames_bind; [apply frames_deref|]. intros d.
    apply frames_for_each. intros f. apply frames_call.
Qed.

Lemma frames_smgrreleaseall : frames (smgrreleaseall env).
Proof.
  unfold smgrreleaseall. apply frames_bind; [apply frames_gets|].
  intros [h|]; [|apply frames_ret].
  apply frames_bind; [apply frames_gets|]. intros l.
  apply frames_for_each. intros p. apply frames_smgrrelease.
Qed.

Lemma skeleton_eq d d' :
  skeleton d = skeleton d' →
  smgr_rnode d = smgr_rnode d' ∧ smgr_owner d = smgr_owner d'
  ∧ smgr_relpersistence d = smgr_relpersistence d'
  ∧ reln_smgr d = reln_smgr d'
  ∧ length (smgr_cached_nblocks d) = length (smgr_cached_nblocks d').
Proof. unfold skeleton. intros [= -> -> _ -> -> ->]. done. Qed.

Lemma same_handles_entry st st' q d' :
  same_handles st st' → entries st' !! q = Some d' →
  ∃ d, entries st !! q = Some d ∧ skeleton d = skeleton d'.
Proof.
  intros (_ & _ & _ & _ & Hs) Hq. specialize (Hs q). rewrite Hq in Hs.
  destruct (entries st !! q) as [d|]; simpl in Hs; [|done].
  exists d. split; [done|]. congruence.
Qed.

Lemma same_handles_entry_back st st' q d :
  same_handles st st' → entries st !! q = Some d →
  ∃ d', entries st' !! q = Some d' ∧ skeleton d = skeleton d'.
Proof.
  intros (_ & _ & _ & _ & Hs) Hq. specialize (Hs q). rewrite Hq in Hs.
  destruct (entries st' !! q) as [d'|]; simpl in Hs; [|done].
  exists d'. split; [done|]. congruence.
Qed.

(** Consistency of the registry does not depend on cached block counts. *)
Lemma registry_ok_same_handles st st' :
  registry_ok st → same_handles st st' → registry_ok st'.
Proof.
  intros (Hkeys & [Hnd Hin] & Hcells & Hown) Hsame.
  pose proof Hsame as (Hu & Hc & _ & _ & _).
  split; [|split; [split|split]].
  - intros p q d d' Hp Hq Hk.
    destruct (same_handles_entry _ _ _ _ Hsame Hp) as (e & He & Hse).
    destruct (same_handles_entry _ _ _ _ Hsame Hq) as (e' & He' & Hse').
    apply (Hkeys p q e e' He He').
    apply skeleton_eq in Hse as (? & _), Hse' as (? & _). congruence.
  - by rewrite Hu.
  - intros p. rewrite Hu, Hin. split.
    + intros (d & Hd & Ho).
      destruct (same_handles_entry_back _ _ _ _ Hsame Hd) as (d' & Hd' & Hsk).
      exists d'. split; [done|]. apply skeleton_eq in Hsk as (_ & ? & _). congruence.
    + intros (d' & Hd' & Ho).
      destruct (same_handles_entry _ _ _ _ Hsame Hd') as (d & Hd & Hsk).
      exists d. split; [done|]. apply skeleton_eq in Hsk as (_ & ? & _). congruence.
  - intros o p. rewrite Hc. intros Hop.
    destruct (Hcells o p Hop) as (d & Hd & Ho).
    destruct (same_handles_entry_back _ _ _ _ Hsame Hd) as (d' & Hd' & Hsk).
    exists d'. split; [done|]. apply skeleton_eq in Hsk as (_ & ? & _). congruence.
  - intros p d' o Hd' Ho. rewrite Hc.
    destruct (same_handles_entry _ _ _ _ Hsame Hd') as (d & Hd & Hsk).
    apply (Hown p d o Hd). apply skeleton_eq in Hsk as (_ & ? & _). congruence.
Qed.

Lemma frames_ProcessBarrierSmgrRelease : frames (ProcessBarrierSmgrRelease env).
Proof.
  unfold ProcessBarrierSmgrRelease.
  apply frames_bind; [apply frames_smgrreleaseall|]. intros _. apply frames_ret.
Qed.

Lemma frames_snd {A} (m : M A) st : frames m → same_handles st (snd (m st)).
Proof. intros Hm. destruct (m st) as [r st'] eqn:E. by eapply Hm. Qed.

(** X1: the routines that extend, measure and truncate a fork, that release
    the files of one or all handles or unlink relations never add, remove,
    re-key or re-own a handle, however they end: identity, owner, target
    block, persistence and dispatch table of every handle, the unowned list
    and the owners' variables are as before, and a consistent registry
    stays consistent. *)
Theorem block_routines_keep_handles c st :
  block_routine c = true →
  same_handles st (run_routine env c st)
  ∧ (registry_ok st → registry_ok (run_routine env c st)).
Proof.
  intros Hc.
  assert (Hsame : same_handles st (run_routine env c st)).
  { destruct c; try discriminate Hc; simpl; apply frames_snd.
    - apply frames_smgrrelease.
    - apply frames_smgrreleaseall.
    - apply frames_smgrdounlinkall.
    - apply frames_smgrextend.
    - apply frames_smgrnblocks.
    - apply frames_smgrtruncate.
    - apply frames_ProcessBarrierSmgrRelease. }
  split; [done|]. intros Hok. by eapply registry_ok_same_handles.
Qed.

(** *** Routines that only make calls *)

Lemma only_calls_pure {A} (m : M A) :
  (∀ st, snd (m st) = st) → only_calls m.
Proof.
  intros Hm st r st' Hrun. exists []. specialize (Hm st). rewrite Hrun in Hm.
  simpl in Hm. subst st'. by rewrite app_nil_r, set_trace_id.
Qed.

Lemma only_calls_call ev : only_calls (call env ev).
Proof.
  intros st r st' Hrun. exists [ev]. rewrite call_eq in Hrun.
  by destruct (ext_raises _ _ _); simplify_eq.
Qed.

Lemma only_calls_deref reln : only_calls (deref reln).
Proof.
  apply only_calls_pure. intros st. rewrite deref_eq. by destruct (_ !! _).
Qed.

Lemma only_calls_index {A} (a : list A) i : only_calls (index a i).
Proof. apply only_calls_pure. intros st. unfold index. by destruct (_ !! _). Qed.

Lemma only_calls_bind {A B} (m : M A) (k : A → M B) :
  only_calls m → (∀ a, only_calls (k a)) → only_calls (m ≫= k).
Proof.
  intros Hm Hk st r st' Hrun. rewrite bind_eq in Hrun.
  destruct (m st) as [[a|e] st1] eqn:Em.
  - destruct (Hm _ _ _ Em) as (evs1 & ->).
    destruct (Hk a _ _ _ Hrun) as (evs2 & ->).
    exists (evs1 ++ evs2). simpl. by rewrite app_assoc.
  - simplify_eq. by eapply Hm.
Qed.

Lemma only_calls_for_each {A} (l : list A) (body : A → M unit) :
  (∀ x, only_calls (body x)) → only_calls (for_each l body).
Proof.
  intros Hbody. induction l as [|x l IH]; simpl.
  - by apply only_calls_pure.
  - apply only_calls_bind; [apply Hbody|]. intros _. apply IH.
Qed.

Lemma only_calls_close_and_collect rels idx :
  only_calls (close_and_collect env rels idx).
Proof.
  induction idx as [|i idx IH]; cbn [close_and_collect];
    [by apply only_calls_pure|].
  apply only_calls_bind; [apply only_calls_index|]. intros rel.
  apply only_calls_bind; [apply only_calls_deref|]. intros d.
  apply only_calls_bind;
    [apply only_calls_for_each; intros f; apply only_calls_call|].
  intros _. apply only_calls_bind; [apply IH|]. intros rnodes.
  by apply only_calls_pure.
Qed.

(** X2: smgrdounlinkall never touches the registry.  However it ends, and
    whatever the array holds, the state afterwards is the state before with
    more calls in the trace: the handles of the unlinked relations are
    still in the table, with their owners and their cached block counts.
    With [nrels = 0] it returns at once and makes no call. *)
Theorem smgrdounlinkall_keeps_state rels nrels isRedo st r st' :
  smgrdounlinkall env rels nrels isRedo st = (r, st') →
  (∃ evs, st' = set_trace (trace st ++ evs) st)
  ∧ entries st' = entries st
  ∧ (nrels = 0 → r = Ok tt ∧ st' = st).
Proof.
  intros Hrun.
  assert (Hcalls : ∃ evs, st' = set_trace (trace st ++ evs) st).
  { revert Hrun. generalize st r st'.
    change (only_calls (smgrdounlinkall env rels nrels isRedo)).
    unfold smgrdounlinkall. case_decide; [by apply only_calls_pure|].
    apply only_calls_bind; [apply only_calls_call|]. intros _.
    apply only_calls_bind; [apply only_calls_close_and_collect|]. intros rnodes.
    apply only_calls_bind.
    - apply only_calls_for_each. intros i.
      apply only_calls_bind; [apply only_calls_index|]. intros rn.
      apply only_calls_call.
    - intros _. apply only_calls_for_each. intros i.
      apply only_calls_bind; [apply only_calls_index|]. intros rel.
      apply only_calls_bind; [apply only_calls_index|]. intros rn.
      apply only_calls_bind; [apply only_calls_deref|]. intros d.
      apply only_calls_for_each. intros f. apply only_calls_call. }
  split; [done|]. split.
  - by destruct Hcalls as (evs & ->).
  - intros ->. unfold smgrdounlinkall in Hrun. rewrite decide_True in Hrun by done.
    unfold mret, M_ret, ret in Hrun. by simplify_eq.
Qed.

End Frames.

Lemma block_routines_keep_handles_witness :
  same_handles sized_handle_state
    (run_routine failing_truncate_env
       (Do_smgrtruncate 1%positive [MAIN_FORKNUM; FSM_FORKNUM] 2 [5; 1])
       sized_handle_state).
Proof.
  apply (block_routines_keep_handles failing_truncate_env
           (Do_smgrtruncate 1%positive [MAIN_FORKNUM; FSM_FORKNUM] 2 [5; 1])
           sized_handle_state).
  reflexivity.
Defined.

Lemma smgrdounlinkall_keeps_state_witness :
  let out := smgrdounlinkall quiet_env [2%positive; 1%positive] 2 true
               two_handles_state in
  entries (snd out) = entries two_handles_state.
Proof.
  intros out.
  apply (smgrdounlinkall_keeps_state quiet_env [2%positive; 1%positive] 2 true
           two_handles_state (fst out) (snd out)).
  apply surjective_pairing.
Defined.

(** ** Closing handles *)

Section Closing.

Variable env : Environment.

(** A loop of calls either makes them all, or raises at one of them. *)
Lemma for_each_call_outcome {A} (l : list A) (ev : A → Event) st r st' :
  for_each l (fun x => call env (ev x)) st = (r, st') →
  (r = Ok tt ∧ st' = set_trace (trace st ++ (ev <$> l)) st)
  ∨ (∃ evs x tr, r = Raise (external_error (ev x)) ∧ x ∈ l
       ∧ ext_raises env tr (ev x) = true
       ∧ st' = set_trace (trace st ++ evs) st).
Proof.
  revert st. induction l as [|x l IH]; intros st Hrun; cbn [for_each] in Hrun.
  - left. unfold mret, M_ret, ret in Hrun. simplify_eq. simpl.
    by rewrite app_nil_r, set_trace_id.
  - rewrite bind_eq, call_eq in Hrun. destruct (ext_raises _ _ _) eqn:Hx.
    + right. simplify_eq. exists [ev x], x, (trace st). split; [done|].
      split; [apply elem_of_cons; by left|done].
    + destruct (IH _ Hrun) as [[-> ->]|(evs & y & tr & -> & Hy & Htr & ->)].
      * left. split; [done|]. simpl. by rewrite <- app_assoc.
      * right. exists (ev x :: evs), y, tr. split; [done|].
        split; [apply elem_of_cons; by right|]. split; [done|].
        simpl. by rewrite <- app_assoc.
Qed.

(** smgrclose on a live handle: either a backend close raises and only the
    trace has changed, or the entry found under the handle's identity is
    removed. *)
Lemma smgrclose_outcome st p d r st' :
  entries st !! p = Some d →
  smgrclose env p st = (r, st') →
  (∃ evs ev tr, r = Raise (external_error ev) ∧ ev ∈ close_events (p, d)
     ∧ ext_raises env tr ev = true
     ∧ st' = set_trace (trace st ++ evs) st)
  ∨ (∃ q, r = Ok tt
       ∧ hash_find (smgr_rnode d) (entries st) = Some q
       ∧ entries st' = delete q (entries st)
       ∧ unowned_relns st' =
           (if smgr_owner d is Some _ then unowned_relns st
            else list_remove p (unowned_relns st))
       ∧ owner_cells st' =
           (if smgr_owner d is Some o then delete o (owner_cells st)
            else owner_cells st)
       ∧ trace st' = trace st ++ close_events (p, d)
       ∧ InRecovery st' = InRecovery st).
Proof.
  intros Hd Hrun. unfold smgrclose in Hrun.
  rewrite bind_eq, (deref_live _ _ _ Hd), bind_eq in Hrun.
  destruct (for_each all_forks _ st) as [r1 st1] eqn:Hloop.
  apply (for_each_call_outcome all_forks
           (fun forknum => Ev_smgr_close (reln_smgr d) p forknum)) in Hloop
    as [[-> ->]|(evs & f & tr & -> & Hf & Htr & ->)].
  2:{ left. simplify_eq. exists evs, (Ev_smgr_close (reln_smgr d) p f), tr.
      split; [done|]. split; [|done].
      by apply (list_elem_of_fmap_2 _ all_forks f). }
  right. destruct (hash_find_is_Some (smgr_rnode d) _ p d Hd eq_refl) as [q Hq].
  exists q.
  assert (Hh : SMgrRelationHash st = Some (entries st)).
  { unfold entries in *. destruct (SMgrRelationHash st); [done|].
    simpl in Hd. by rewrite lookup_empty in Hd. }
  assert (Hrem : ∀ s, SMgrRelationHash s = SMgrRelationHash st →
            hash_search_remove (smgr_rnode d) s =
              (Ok (Some q), set_hash (Some (delete q (entries st))) s)).
  { intros s Hs. unfold hash_search_remove. by rewrite Hs, Hh, Hq. }
  destruct (smgr_owner d) as [o|] eqn:Ho.
  - rewrite bind_eq in Hrun. unfold ret at 1 in Hrun. cbv beta iota in Hrun.
    rewrite bind_eq, Hrem in Hrun by done. cbv beta iota in Hrun.
    rewrite bind_eq in Hrun. unfold ret, write_cell, modify in Hrun.
    by simplify_eq.
  - rewrite bind_eq in Hrun. unfold dlist_delete at 1, modify at 1 in Hrun.
    cbv beta iota in Hrun.
    rewrite bind_eq, Hrem in Hrun by done. cbv beta iota in Hrun.
    rewrite bind_eq in Hrun. unfold ret in Hrun. by simplify_eq.
Qed.

(** What a successful smgrclose does to a consistent registry. *)
Lemma smgrclose_ok st p d st' :
  registry_ok st → entries st !! p = Some d →
  smgrclose env p st = (Ok tt, st') →
  entries st' = delete p (entries st)
  ∧ unowned_relns st' = list_remove p (unowned_relns st)
  ∧ owner_cells st' =
      (if smgr_owner d is Some o then delete o (owner_cells st)
       else owner_cells st)
  ∧ trace st' = trace st ++ close_events (p, d)
  ∧ InRecovery st' = InRecovery st
  ∧ registry_ok st'.
Proof.
  intros (Hkeys & [Hnd Hin] & Hcells & Hown) Hd Hrun.
  destruct (smgrclose_outcome _ _ _ _ _ Hd Hrun)
    as [(evs & ev & tr & [=] & _)|(q & _ & Hq & He & Hu & Hc & Ht & Hr)].
  rewrite (hash_find_unique _ _ _ Hkeys Hd) in Hq. simplify_eq.
  assert (Hu' : unowned_relns st' = list_remove q (unowned_relns st)).
  { rewrite Hu. destruct (smgr_owner d) as [o|] eqn:Ho; [|done].
    symmetry. apply list_remove_not_in. intros Hq.
    apply Hin in Hq as (d' & Hd' & Hnone). by simplify_eq. }
  split; [done|]. split; [done|]. split; [done|]. split; [done|]. split; [done|].
  split; [|split; [split|split]].
  - rewrite He. by apply keys_unique_delete.
  - rewrite Hu'. by apply NoDup_list_remove.
  - intros p. rewrite Hu', elem_of_list_remove, Hin, He, lookup_delete.
    case_decide as Hpq.
    + subst p. split; [by intros [_ ?]|]. by intros (? & ? & _).
    + split; [by intros [? _]|]. intros ?. split; [done|congruence].
  - intros o p. rewrite Hc, He. intros Hop.
    assert (Hop' : owner_cells st !! o = Some p ∧ smgr_owner d ≠ Some o).
    { destruct (smgr_owner d) as [o'|]; [|done].
      rewrite lookup_delete in Hop. case_decide; [done|]. split; [done|congruence]. }
    destruct Hop' as [Hop' Hne]. destruct (Hcells o p Hop') as (dp & Hdp & Hpo).
    rewrite lookup_delete_ne; [eauto|]. intros <-. by simplify_eq.
  - intros p dp o. rewrite He, Hc, lookup_delete. case_decide as Hpq; [done|].
    intros Hdp Hpo. pose proof (Hown p dp o Hdp Hpo) as Hcell.
    destruct (smgr_owner d) as [o'|] eqn:Ho; [|done].
    rewrite lookup_delete_ne; [done|]. intros <-.
    pose proof (Hown q d o' Hd Ho). congruence.
Qed.

(** X3: in a consistent registry, smgrclose on a live handle can fail only
    because the backend fails to close one of the forks, and then the
    handle is still entirely there: the table, the unowned list and the
    owners' variables are as they were, and the registry is still
    consistent. *)
Theorem smgrclose_failure_keeps_handle st p d e st' :
  registry_ok st →
  entries st !! p = Some d →
  smgrclose env p st = (Raise e, st') →
  (∃ forknum, e = external_error (Ev_smgr_close (reln_smgr d) p forknum))
  ∧ entries st' = entries st
  ∧ unowned_relns st' = unowned_relns st
  ∧ owner_cells st' = owner_cells st
  ∧ registry_ok st'.
Proof.
  intros Hok Hd Hrun.
  destruct (smgrclose_outcome _ _ _ _ _ Hd Hrun)
    as [(evs & ev & tr & [= ->] & Hev & _ & ->)|(q & [=] & _)].
  split; [apply list_elem_of_fmap in Hev as (f & -> & _); by exists f|].
  split; [done|]. split; [done|]. split; [done|].
  eapply registry_ok_same_handles; [done|]. apply same_handles_set_trace.
Qed.

(** X4: a successful smgrclose on a live handle of a consistent registry
    has closed every fork, removes that handle and no other from the table,
    takes it out of the unowned list, nulls the variable of its owner and
    no other variable, and leaves the registry consistent; no entry is left
    for the identity of the handle. *)
Theorem smgrclose_removes_handle st p d st' :
  registry_ok st → entries st !! p = Some d →
  smgrclose env p st = (Ok tt, st') →
  entries st' = delete p (entries st)
  ∧ hash_find (smgr_rnode d) (entries st') = None
  ∧ (p ∉ unowned_relns st')
  ∧ (∀ o, owner_cells st' !! o ≠ Some p)
  ∧ (∀ o, smgr_owner d ≠ Some o → owner_cells st' !! o = owner_cells st !! o)
  ∧ trace st' = trace st ++ close_events (p, d)
  ∧ registry_ok st'.
Proof.
  intros Hok Hd Hrun.
  destruct (smgrclose_ok _ _ _ _ Hok Hd Hrun) as (He & Hu & Hc & Ht & _ & Hok').
  destruct Hok as (Hkeys & _ & _ & _).
  split; [done|]. split; [|split; [|split; [|split; [|done]]]].
  - apply hash_find_None. intros q dq. rewrite He, lookup_delete.
    case_decide as Hpq; [done|]. intros Hq Hk. apply Hpq. by eapply Hkeys.
  - rewrite Hu, elem_of_list_remove. by intros [_ ?].
  - intros o Ho. destruct Hok' as (_ & _ & Hcells' & _).
    destruct (Hcells' o p Ho) as (d' & Hd' & _).
    by rewrite He, lookup_delete_eq in Hd'.
  - intros o Ho. rewrite Hc. destruct (smgr_owner d) as [o'|]; [|done].
    rewrite lookup_delete_ne; [done|]. congruence.
Qed.

(** X5: smgropen for an identity that has no entry, followed by smgrclose
    of the handle it returns, restores the registry: the table, the unowned
    list and the owners' variables are what they were before the two
    calls. *)
Theorem smgropen_smgrclose_round_trip rnode backend relpersistence st p st1 st2 :
  registry_ok st →
  hash_find {| node := rnode; backend := backend |} (entries st) = None →
  smgropen env rnode backend relpersistence st = (Ok p, st1) →
  smgrclose env p st1 = (Ok tt, st2) →
  entries st1 !! p = Some (fresh_entry env rnode backend relpersistence)
  ∧ entries st2 = entries st
  ∧ unowned_relns st2 = unowned_relns st
  ∧ owner_cells st2 = owner_cells st.
Proof.
  intros Hok Hmiss Hopen Hclose.
  pose proof (smgropen_registry_ok env _ _ _ _ _ _ Hok Hopen) as Hok1.
  destruct (smgropen_outcome env _ _ _ _ _ _ Hopen)
    as [(p0 & d & d' & Hf & _)|(p0 & _ & Hnew & He1 & Hc1 & Hq)].
  { simpl in Hf. congruence. }
  destruct (Hq p eq_refl) as [-> Hu1]. clear Hq.
  assert (Hp : entries st1 !! p0 = Some (fresh_entry env rnode backend relpersistence)).
  { by rewrite He1, lookup_insert_eq. }
  destruct (smgrclose_ok _ _ _ _ Hok1 Hp Hclose) as (He2 & Hu2 & Hc2 & _).
  destruct Hok as (_ & Hun & _ & _).
  split; [done|]. split; [|split].
  - rewrite He2, He1. by apply delete_insert_id.
  - rewrite Hu2, Hu1, (unowned_ok_table_of _ Hun).
    unfold list_remove. rewrite filter_app, filter_cons_False, filter_nil, app_nil_r
      by (intros Hne; by apply Hne).
    apply list_remove_not_in. intros Hin. destruct Hun as [_ Hun].
    apply Hun in Hin as (d & Hd & _). congruence.
  - by rewrite Hc2, Hc1.
Qed.

Lemma hash_find_empty key : hash_find key ∅ = None.
Proof. apply hash_find_None. intros p d H. by rewrite lookup_empty in H. Qed.

Lemma table_is_entries st p d :
  entries st !! p = Some d → SMgrRelationHash st = Some (entries st).
Proof.
  unfold entries. destruct (SMgrRelationHash st); [done|]. simpl.
  by rewrite lookup_empty.
Qed.

Lemma set_hash_entries st :
  is_Some (SMgrRelationHash st) → set_hash (Some (entries st)) st = st.
Proof. unfold entries. intros [h Hh]. destruct st. simpl in *. by subst. Qed.

(** smgropen with unknown persistence on an identity that has an entry
    returns that entry and changes nothing. *)
Lemma smgropen_hit_unknown key st p :
  hash_find key (entries st) = Some p →
  smgropen env (node key) (backend key) 0 st = (Ok p, st).
Proof.
  intros Hf. destruct (hash_find_Some _ _ _ Hf) as (d & Hd & Hk).
  assert (Hkey : {| node := node key; backend := backend key |} = key)
    by (by destruct key).
  rewrite <- Hkey in Hf at 1.
  rewrite (smgropen_found env _ _ _ _ _ _ Hf Hd). case_decide as Hrp; [|done].
  assert (Hsame : set_smgr_relpersistence 0 d = d).
  { destruct d. unfold set_smgr_relpersistence. simpl in *. by subst. }
  rewrite Hsame, (insert_id _ _ _ Hd), set_hash_entries; [done|].
  rewrite (table_is_entries _ _ _ Hd). eauto.
Qed.

Lemma smgrclosenode_eq key st :
  smgrclosenode env key st =
    match hash_find key (entries st) with
    | Some p => smgrclose env p st
    | None => (Ok tt, st)
    end.
Proof.
  unfold smgrclosenode. rewrite bind_eq. unfold gets.
  destruct (SMgrRelationHash st) as [h|] eqn:Hh.
  - rewrite bind_eq. unfold hash_search_find, entries. rewrite Hh. simpl.
    by destruct (hash_find key h).
  - unfold entries. rewrite Hh. simpl. by rewrite hash_find_empty.
Qed.

(** X6: smgrclosenode does nothing, and makes no call, when the identity has
    no entry, and so when the table has never been set up.  When the
    identity has an entry it does what smgrclose does on that handle, which
    is also what smgropen with unknown persistence followed by smgrclose
    does. *)
Theorem smgrclosenode_spec key st :
  (hash_find key (entries st) = None → smgrclosenode env key st = (Ok tt, st))
  ∧ (∀ p, hash_find key (entries st) = Some p →
       smgrclosenode env key st = smgrclose env p st
       ∧ (smgropen env (node key) (backend key) 0 ≫= smgrclose env) st
         = smgrclosenode env key st).
Proof.
  rewrite smgrclosenode_eq. split.
  - by intros ->.
  - intros p Hf. rewrite Hf. split; [done|].
    by rewrite bind_eq, (smgropen_hit_unknown _ _ _ Hf).
Qed.

End Closing.

(** ** Closing and releasing every handle *)

Section CloseAll.

Variable env : Environment.

(** The backend never fails to close a fork. *)
Hypothesis close_succeeds :
  ∀ tr impl reln forknum,
    ext_raises env tr (Ev_smgr_close impl reln forknum) = false.

Lemma smgrclose_returns st p d :
  entries st !! p = Some d → ∃ st', smgrclose env p st = (Ok tt, st').
Proof.
  intros Hd. destruct (smgrclose env p st) as [r st'] eqn:Hrun.
  destruct (smgrclose_outcome env _ _ _ _ _ Hd Hrun)
    as [(evs & ev & tr & _ & Hev & Htr & _)|(q & -> & _)]; [|eauto].
  apply list_elem_of_fmap in Hev as (f & -> & _).
  by rewrite close_succeeds in Htr.
Qed.

Lemma hash_seq_spec st p : p ∈ hash_seq st ↔ is_Some (entries st !! p).
Proof.
  unfold hash_seq. rewrite list_elem_of_fmap. split.
  - intros ([q d] & -> & Hin). apply elem_of_map_to_list in Hin. eauto.
  - intros [d Hd]. exists (p, d). split; [done|]. by apply elem_of_map_to_list.
Qed.

Lemma hash_seq_NoDup st : NoDup (hash_seq st).
Proof. apply NoDup_fst_map_to_list. Qed.

(** The loop of smgrcloseall over distinct live handles. *)
Lemma closeall_loop l :
  ∀ st, registry_ok st → NoDup l →
  (∀ p, p ∈ l → is_Some (entries st !! p)) →
  ∃ st' evs,
    for_each l (smgrclose env) st = (Ok tt, st')
    ∧ registry_ok st'
    ∧ (∀ q, entries st' !! q = if decide (q ∈ l) then None else entries st !! q)
    ∧ trace st' = trace st ++ evs
    ∧ (∀ q d ev, q ∈ l → entries st !! q = Some d →
         ev ∈ close_events (q, d) → ev ∈ evs).
Proof.
  induction l as [|p l IH]; intros st Hok Hnd Hlive.
  { exists st, []. cbn [for_each]. rewrite app_nil_r.
    split; [done|]. split; [done|]. split; [done|]. split; [done|].
    intros q d ev Hq. by apply elem_of_nil in Hq. }
  apply NoDup_cons in Hnd as [Hp Hnd].
  destruct (Hlive p) as [d Hd]; [apply elem_of_cons; by left|].
  destruct (smgrclose_returns st p d Hd) as (st1 & Hrun).
  destruct (smgrclose_ok env _ _ _ _ Hok Hd Hrun) as (He & _ & _ & Ht & _ & Hok1).
  destruct (IH st1 Hok1 Hnd) as (st' & evs & Hloop & Hok' & Hent & Htr & Hall).
  { intros q Hq. rewrite He, lookup_delete_ne by (intros <-; done).
    apply Hlive, elem_of_cons. by right. }
  exists st', (close_events (p, d) ++ evs). cbn [for_each].
  rewrite bind_eq, Hrun, Hloop. split; [done|]. split; [done|].
  split; [|split].
  - intros q. rewrite Hent, He, lookup_delete.
    destruct (decide (p = q)) as [<-|Hne].
    + rewrite (decide_True (P := p ∈ p :: l)) by (apply elem_of_cons; by left).
      by destruct (decide (p ∈ l)).
    + destruct (decide (q ∈ l)) as [Hq|Hq].
      * rewrite decide_True; [done|]. apply elem_of_cons. by right.
      * rewrite decide_False; [done|]. intros Hq'.
        apply elem_of_cons in Hq' as [?|?]; [congruence|done].
  - by rewrite Htr, Ht, <- app_assoc.
  - intros q dq ev Hq Hdq Hev. apply elem_of_app.
    apply elem_of_cons in Hq as [->|Hq].
    + left. by simplify_eq.
    + right. apply (Hall q dq); [done| |done].
      rewrite He, lookup_delete_ne; [done|]. intros <-. done.
Qed.

(** X7: smgrcloseall does nothing when the table has never been set up.
    Otherwise, in a consistent registry and with a backend that closes forks
    without error, it returns after closing every fork of every handle, and
    leaves an empty table, an empty unowned list and no owner's variable
    holding a handle. *)
Theorem smgrcloseall_empties_registry st :
  (SMgrRelationHash st = None → smgrcloseall env st = (Ok tt, st))
  ∧ (registry_ok st →
     ∃ st' evs,
       smgrcloseall env st = (Ok tt, st')
       ∧ entries st' = ∅
       ∧ unowned_relns st' = []
       ∧ owner_cells st' = ∅
       ∧ trace st' = trace st ++ evs
       ∧ (∀ p d forknum, entries st !! p = Some d → forknum ∈ all_forks →
            Ev_smgr_close (reln_smgr d) p forknum ∈ evs)).
Proof.
  split.
  { intros Hh. unfold smgrcloseall. rewrite bind_eq. unfold gets. by rewrite Hh. }
  intros Hok. unfold smgrcloseall. rewrite bind_eq. unfold gets at 1.
  destruct (SMgrRelationHash st) as [h|] eqn:Hh.
  - rewrite bind_eq. unfold gets.
    destruct (closeall_loop (hash_seq st) st Hok (hash_seq_NoDup st))
      as (st' & evs & Hloop & Hok' & Hent & Htr & Hall).
    { intros p. apply hash_seq_spec. }
    exists st', evs. split; [done|].
    assert (He : entries st' = ∅).
    { apply map_empty. intros q. rewrite Hent. case_decide as Hq; [done|].
      destruct (entries st !! q) eqn:E; [|done].
      destruct Hq. apply hash_seq_spec. eauto. }
    destruct Hok' as (_ & [_ Hin] & Hcells & _).
    split; [done|]. split; [|split; [|split; [done|]]].
    + destruct (unowned_relns st') as [|p l] eqn:El; [done|].
      destruct (proj1 (Hin p)) as (d & Hd & _); [apply elem_of_cons; by left|].
      by rewrite He, lookup_empty in Hd.
    + apply map_empty. intros o. destruct (owner_cells st' !! o) as [p|] eqn:Ho; [|done].
      destruct (Hcells o p Ho) as (d & Hd & _). by rewrite He, lookup_empty in Hd.
    + intros p d f Hd Hf. apply (Hall p d); [apply hash_seq_spec; eauto|done|].
      by apply (list_elem_of_fmap_2 _ all_forks f).
  - exists st, []. rewrite app_nil_r.
    assert (He : entries st = ∅) by (unfold entries; by rewrite Hh).
    destruct Hok as (_ & [_ Hin] & Hcells & _).
    split; [done|]. split; [done|]. split; [|split; [|split; [done|]]].
    + destruct (unowned_relns st) as [|p l] eqn:El; [done|].
      destruct (proj1 (Hin p)) as (d & Hd & _); [apply elem_of_cons; by left|].
      by rewrite He, lookup_empty in Hd.
    + apply map_empty. intros o. destruct (owner_cells st !! o) as [p|] eqn:Ho; [|done].
      destruct (Hcells o p Ho) as (d & Hd & _). by rewrite He, lookup_empty in Hd.
    + intros p d f Hd. by rewrite He, lookup_empty in Hd.
Qed.

Lemma all_forks_cached st p d forknum :
  entries st !! p = Some d →
  length (smgr_cached_nblocks d) = length all_forks →
  forknum ∈ all_forks → is_Some (cached_nblocks st p forknum).
Proof.
  intros Hd Hlen Hf. unfold cached_nblocks. rewrite Hd. simpl.
  unfold all_forks in *. apply elem_of_seqZ in Hf. rewrite length_seqZ in Hlen.
  unfold array_get. rewrite decide_True by lia.
  apply lookup_lt_is_Some_2. lia.
Qed.

(** The loop of smgrrelease over the forks [l] of a live handle. *)
Lemma release_loop p impl l :
  ∀ st, reln_smgr <$> entries st !! p = Some impl →
  (∀ f, f ∈ l → is_Some (cached_nblocks st p f)) →
  ∃ st',
    for_each l (fun forknum =>
      d ← deref p;
      call env (Ev_smgr_close (reln_smgr d) p forknum);;
      set_cached_nblocks p forknum InvalidBlockNumber) st = (Ok tt, st')
    ∧ trace st' = trace st ++ ((fun forknum => Ev_smgr_close impl p forknum) <$> l)
    ∧ (∀ q g, cached_nblocks st' q g =
         if decide (q = p ∧ g ∈ l) then Some InvalidBlockNumber
         else cached_nblocks st q g).
Proof.
  induction l as [|f l IH]; intros st Himpl Hsized.
  { exists st. cbn [for_each]. rewrite app_nil_r. split; [done|]. split; [done|].
    intros q g. rewrite decide_False; [done|]. intros [_ Hg].
    by apply elem_of_nil in Hg. }
  destruct (entries st !! p) as [d|] eqn:Hd; simplify_eq/=.
  set (st1 := set_trace (trace st ++ [Ev_smgr_close (reln_smgr d) p f]) st).
  destruct (set_cached_nblocks_live p f InvalidBlockNumber st1)
    as (st2 & Hset & Ht2 & _ & Hc2 & Hs2 & _).
  { apply Hsized. apply elem_of_cons. by left. }
  destruct (IH st2) as (st' & Hloop & Ht & Hc).
  { rewrite Hs2. unfold st1. change (entries (set_trace _ st)) with (entries st).
    by rewrite Hd. }
  { intros g Hg. rewrite Hc2. case_decide; [eauto|].
    unfold st1. rewrite cached_nblocks_set_trace. apply Hsized, elem_of_cons.
    by right. }
  exists st'. rewrite bind_eq, bind_eq, (deref_live _ _ _ Hd), bind_eq, call_eq.
  rewrite close_succeeds. fold st1. rewrite Hset, Hloop.
  split; [done|]. split.
  - rewrite Ht, Ht2. unfold st1. simpl. by rewrite <- app_assoc.
  - intros q g. rewrite Hc, Hc2. unfold st1. rewrite cached_nblocks_set_trace.
    destruct (decide (q = p ∧ g ∈ l)) as [[-> Hg]|Hno].
    + rewrite decide_True; [done|]. split; [done|]. apply elem_of_cons. by right.
    + destruct (decide (q = p ∧ g = f)) as [[-> ->]|Hno'].
      * rewrite decide_True; [done|]. split; [done|]. apply elem_of_cons. by left.
      * rewrite decide_False; [done|]. intros [-> Hg].
        apply elem_of_cons in Hg as [->|Hg]; [by apply Hno'|by apply Hno].
Qed.

Lemma smgrrelease_run st p d :
  entries st !! p = Some d →
  length (smgr_cached_nblocks d) = length all_forks →
  ∃ st', smgrrelease env p st = (Ok tt, st')
    ∧ trace st' = trace st ++ close_events (p, d)
    ∧ same_handles st st'
    ∧ (∀ q g, cached_nblocks st' q g =
         if decide (q = p ∧ g ∈ all_forks) then Some InvalidBlockNumber
         else cached_nblocks st q g).
Proof.
  intros Hd Hlen.
  destruct (release_loop p (reln_smgr d) all_forks st) as (st' & Hrun & Ht & Hc).
  { by rewrite Hd. }
  { intros f Hf. by eapply all_forks_cached. }
  exists st'. split; [exact Hrun|]. split; [exact Ht|]. split; [|exact Hc].
  by eapply (frames_smgrrelease env p).
Qed.

(** X8: smgrrelease on a live handle, with a backend that closes forks
    without error, returns after closing every fork; it sets the cached
    block count of every fork of that handle to InvalidBlockNumber, leaves
    the counts of the other handles alone, and the handle remains what it
    was: same address, identity, owner, persistence and dispatch table. *)
Theorem smgrrelease_resets_counts st p d :
  entries st !! p = Some d →
  length (smgr_cached_nblocks d) = length all_forks →
  ∃ st', smgrrelease env p st = (Ok tt, st')
    ∧ trace st' = trace st ++ close_events (p, d)
    ∧ same_handles st st'
    ∧ (∀ forknum, forknum ∈ all_forks →
         cached_nblocks st' p forknum = Some InvalidBlockNumber)
    ∧ (∀ q g, q ≠ p → cached_nblocks st' q g = cached_nblocks st q g).
Proof.
  intros Hd Hlen.
  destruct (smgrrelease_run st p d Hd Hlen) as (st' & Hrun & Ht & Hsame & Hc).
  exists st'. split; [done|]. split; [done|]. split; [done|]. split.
  - intros f Hf. by rewrite Hc, decide_True.
  - intros q g Hq. rewrite Hc, decide_False; [done|]. by intros [? _].
Qed.

Lemma well_sized_same_handles st st' :
  well_sized st → same_handles st st' → well_sized st'.
Proof.
  intros Hw Hsame p d' Hd'.
  destruct (same_handles_entry _ _ _ _ Hsame Hd') as (d & Hd & Hsk).
  apply skeleton_eq in Hsk as (_ & _ & _ & _ & Hlen). rewrite <- Hlen. by eapply Hw.
Qed.

(** The loop of smgrreleaseall over live handles. *)
Lemma releaseall_loop l :
  ∀ st, well_sized st → (∀ p, p ∈ l → is_Some (entries st !! p)) →
  ∃ st' evs,
    for_each l (smgrrelease env) st = (Ok tt, st')
    ∧ same_handles st st'
    ∧ trace st' = trace st ++ evs
    ∧ (∀ q d ev, q ∈ l → entries st !! q = Some d →
         ev ∈ close_events (q, d) → ev ∈ evs)
    ∧ (∀ q g, cached_nblocks st' q g =
         if decide (q ∈ l ∧ g ∈ all_forks) then Some InvalidBlockNumber
         else cached_nblocks st q g).
Proof.
  induction l as [|p l IH]; intros st Hw Hlive.
  { exists st, []. cbn [for_each]. rewrite app_nil_r.
    split; [done|]. split; [apply same_handles_refl|]. split; [done|]. split.
    - intros q d ev Hq. by apply elem_of_nil in Hq.
    - intros q g. rewrite decide_False; [done|]. intros [Hq _].
      by apply elem_of_nil in Hq. }
  destruct (Hlive p) as [d Hd]; [apply elem_of_cons; by left|].
  destruct (smgrrelease_run st p d Hd (Hw p d Hd)) as (st1 & Hrun & Ht1 & Hsame1 & Hc1).
  destruct (IH st1) as (st' & evs & Hloop & Hsame & Ht & Hall & Hc).
  { by eapply well_sized_same_handles. }
  { intros q Hq. destruct (Hlive q) as [dq Hdq]; [apply elem_of_cons; by right|].
    destruct (same_handles_entry_back _ _ _ _ Hsame1 Hdq) as (dq' & Hdq' & _). eauto. }
  exists st', (close_events (p, d) ++ evs). cbn [for_each].
  rewrite bind_eq, Hrun, Hloop. split; [done|].
  split; [by eapply same_handles_trans|]. split; [|split].
  - by rewrite Ht, Ht1, <- app_assoc.
  - intros q dq ev Hq Hdq Hev. apply elem_of_app.
    apply elem_of_cons in Hq as [->|Hq]; [left; by simplify_eq|right].
    destruct (same_handles_entry_back _ _ _ _ Hsame1 Hdq) as (dq' & Hdq' & Hsk).
    apply (Hall q dq'); [done..|].
    apply skeleton_eq in Hsk as (_ & _ & _ & Himpl & _).
    unfold close_events in *. simpl in *. by rewrite <- Himpl.
  - intros q g. rewrite Hc, Hc1.
    destruct (decide (q ∈ l ∧ g ∈ all_forks)) as [[Hq Hg]|Hno].
    + rewrite decide_True; [done|]. split; [|done]. apply elem_of_cons. by right.
    + destruct (decide (q = p ∧ g ∈ all_forks)) as [[-> Hg]|Hno'].
      * rewrite decide_True; [done|]. split; [|done]. apply elem_of_cons. by left.
      * rewrite decide_False; [done|]. intros [Hq Hg].
        apply elem_of_cons in Hq as [->|Hq]; [by apply Hno'|by apply Hno].
Qed.

(** X9: ProcessBarrierSmgrRelease reports success and does what
    smgrreleaseall does: nothing when the table has never been set up;
    otherwise, with a backend that closes forks without error, it closes
    every fork of every handle and sets every cached block count to
    InvalidBlockNumber, while every handle stays in the table as it was. *)
Theorem ProcessBarrierSmgrRelease_releases st :
  (SMgrRelationHash st = None →
   ProcessBarrierSmgrRelease env st = (Ok true, st))
  ∧ (well_sized st →
     ∃ st' evs,
       ProcessBarrierSmgrRelease env st = (Ok true, st')
       ∧ smgrreleaseall env st = (Ok tt, st')
       ∧ same_handles st st'
       ∧ trace st' = trace st ++ evs
       ∧ (∀ p d forknum, entries st !! p = Some d → forknum ∈ all_forks →
            Ev_smgr_close (reln_smgr d) p forknum ∈ evs
            ∧ cached_nblocks st' p forknum = Some InvalidBlockNumber)).
Proof.
  unfold ProcessBarrierSmgrRelease, smgrreleaseall. split.
  { intros Hh. rewrite !bind_eq. unfold gets. by rewrite Hh. }
  intros Hw. rewrite !bind_eq. unfold gets at 1 3.
  destruct (SMgrRelationHash st) as [h|] eqn:Hh.
  - rewrite !bind_eq. unfold gets.
    destruct (releaseall_loop (hash_seq st) st Hw) as (st' & evs & -> & Hsame & Ht & Hall & Hc).
    { intros p. apply hash_seq_spec. }
    exists st', evs. split; [done|]. split; [done|]. split; [done|]. split; [done|].
    intros p d f Hd Hf.
    assert (Hp : p ∈ hash_seq st) by (apply hash_seq_spec; eauto). split.
    + apply (Hall p d); [done..|]. by apply (list_elem_of_fmap_2 _ all_forks f).
    + by rewrite Hc, decide_True.
  - exists st, []. rewrite app_nil_r. split; [done|]. split; [done|].
    split; [apply same_handles_refl|]. split; [done|].
    intros p d f Hd. unfold entries in Hd. rewrite Hh in Hd. simpl in Hd.
    by rewrite lookup_empty in Hd.
Qed.

End CloseAll.

(** ** Giving up and passing on ownership *)

Lemma smgrclearowner_registry_ok owner reln st d st' :
  registry_ok st → entries st !! reln = Some d →
  smgrclearowner owner reln st = (Ok tt, st') →
  registry_ok st'.
Proof.
  intros Hok Hd Hrun.
  destruct (smgrclearowner_live owner reln st d Hd) as (st0 & Hrun0 & Hpost).
  rewrite Hrun in Hrun0. simplify_eq.
  destruct (decide (smgr_owner d = Some owner)) as [Ho|Ho]; [|by subst].
  destruct Hpost as (He & Hc & Hu & _ & _).
  destruct Hok as (Hkeys & [Hnd Hin] & Hcells & Hown).
  assert (Hnot : reln ∉ unowned_relns st).
  { intros Hr. apply Hin in Hr as (d' & Hd' & Hnone). by simplify_eq. }
  split; [|split; [split|split]].
  - rewrite He. by apply (keys_unique_insert_same_key _ _ d).
  - rewrite Hu. apply NoDup_app. split; [done|]. split; [|apply NoDup_singleton].
    intros q Hq Hq'. apply list_elem_of_singleton in Hq' as ->. done.
  - intros q. rewrite Hu, He, elem_of_app, list_elem_of_singleton, lookup_insert.
    destruct (decide (reln = q)) as [<-|Hne].
    + split; [|by right]. intros _. by eexists.
    + rewrite Hin. split; [|by left]. by intros [?|?].
  - intros o q. rewrite Hc, He, lookup_delete. case_decide as Hoo; [done|].
    intros Hoq. destruct (Hcells o q Hoq) as (dq & Hdq & Hqo).
    rewrite lookup_insert_ne; [eauto|]. intros <-. simplify_eq.
  - intros q dq o. rewrite He, Hc, lookup_insert.
    destruct (decide (reln = q)) as [<-|Hne]; [by intros [= <-]|].
    intros Hdq Hqo. pose proof (Hown q dq o Hdq Hqo) as Hcell.
    rewrite lookup_delete_ne; [done|]. intros <-.
    pose proof (Hown reln d owner Hd Ho). congruence.
Qed.

(** X10: smgrclearowner called by someone who is not the owner of the
    handle changes nothing at all; called by the owner it nulls the owner's
    variable, clears the back-reference and appends the handle to the
    unowned list; either way a consistent registry stays consistent. *)
Theorem smgrclearowner_spec owner reln st d :
  registry_ok st → entries st !! reln = Some d →
  ∃ st', smgrclearowner owner reln st = (Ok tt, st')
    ∧ registry_ok st'
    ∧ (smgr_owner d ≠ Some owner → st' = st)
    ∧ (smgr_owner d = Some owner →
       owner_cells st' = delete owner (owner_cells st)
       ∧ unowned_relns st' = unowned_relns st ++ [reln]
       ∧ entries st' = <[reln := set_smgr_owner None d]> (entries st)).
Proof.
  intros Hok Hd.
  destruct (smgrclearowner_live owner reln st d Hd) as (st' & Hrun & Hpost).
  exists st'. split; [done|]. split; [by eapply smgrclearowner_registry_ok|].
  split.
  - intros Hne. by rewrite decide_False in Hpost.
  - intros Ho. rewrite decide_True in Hpost by done.
    by destruct Hpost as (? & ? & ? & _).
Qed.

Lemma list_remove_append_Permutation (x : Ptr) l :
  NoDup l → x ∈ l → list_remove x l ++ [x] ≡ₚ l.
Proof.
  unfold list_remove. induction l as [|y l IH]; intros Hnd Hx.
  { by apply elem_of_nil in Hx. }
  apply NoDup_cons in Hnd as [Hy Hnd].
  destruct (decide (y = x)) as [->|Hne].
  - rewrite filter_cons_False by (intros H; by apply H).
    fold (list_remove x l). rewrite (list_remove_not_in _ _ Hy).
    symmetry. apply Permutation_cons_append.
  - rewrite filter_cons_True by done. simpl. f_equiv. apply IH; [done|].
    apply elem_of_cons in Hx as [?|?]; [congruence|done].
Qed.

(** X11: on a handle without owner and an empty variable, smgrsetowner
    followed by smgrclearowner with that variable gives back the table and
    the owners' variables exactly; the unowned list holds the same handles,
    with this handle moved to the end. *)
Theorem smgrsetowner_smgrclearowner_round_trip owner reln st d :
  registry_ok st → entries st !! reln = Some d → smgr_owner d = None →
  owner_cells st !! owner = None →
  ∃ st1 st2,
    smgrsetowner owner reln st = (Ok tt, st1)
    ∧ smgrclearowner owner reln st1 = (Ok tt, st2)
    ∧ entries st2 = entries st
    ∧ owner_cells st2 = owner_cells st
    ∧ unowned_relns st2 = list_remove reln (unowned_relns st) ++ [reln]
    ∧ unowned_relns st2 ≡ₚ unowned_relns st.
Proof.
  intros (_ & [Hnd Hin] & _ & _) Hd Ho Hfree.
  destruct (smgrsetowner_live owner reln st d Hd)
    as (st1 & Hrun1 & He1 & Hc1 & Hu1 & _ & _).
  rewrite Ho in Hc1, Hu1.
  assert (Hd1 : entries st1 !! reln = Some (set_smgr_owner (Some owner) d)).
  { by rewrite He1, lookup_insert_eq. }
  destruct (smgrclearowner_live owner reln st1 _ Hd1) as (st2 & Hrun2 & Hpost).
  rewrite decide_True in Hpost by done. destruct Hpost as (He2 & Hc2 & Hu2 & _ & _).
  exists st1, st2. split; [done|]. split; [done|].
  assert (Hback : set_smgr_owner None (set_smgr_owner (Some owner) d) = d).
  { destruct d. unfold set_smgr_owner. simpl in *. by subst. }
  split; [|split; [|split]].
  - rewrite He2, He1, insert_insert_eq, Hback. by apply insert_id.
  - rewrite Hc2, Hc1. by apply delete_insert_id.
  - by rewrite Hu2, Hu1.
  - rewrite Hu2, Hu1. apply list_remove_append_Permutation; [done|].
    apply Hin. eauto.
Qed.

(** X12: passing a handle from its owner to an empty variable nulls the
    old owner's variable, binds the handle to the new one and keeps the
    registry consistent; a later smgrclearowner by the old owner then
    changes nothing, so the new owner keeps the handle. *)
Theorem smgrsetowner_transfer old owner reln st d :
  registry_ok st → entries st !! reln = Some d → smgr_owner d = Some old →
  old ≠ owner → owner_cells st !! owner = None →
  ∃ st1,
    smgrsetowner owner reln st = (Ok tt, st1)
    ∧ registry_ok st1
    ∧ owner_cells st1 !! old = None
    ∧ owner_cells st1 !! owner = Some reln
    ∧ smgr_owner <$> entries st1 !! reln = Some (Some owner)
    ∧ unowned_relns st1 = unowned_relns st
    ∧ smgrclearowner old reln st1 = (Ok tt, st1).
Proof.
  intros Hok Hd Ho Hne Hfree.
  destruct (smgrsetowner_live owner reln st d Hd)
    as (st1 & Hrun1 & He1 & Hc1 & Hu1 & _ & _).
  rewrite Ho in Hc1, Hu1.
  assert (Hd1 : entries st1 !! reln = Some (set_smgr_owner (Some owner) d)).
  { by rewrite He1, lookup_insert_eq. }
  exists st1. split; [done|].
  split; [eapply smgrsetowner_registry_ok; eauto|].
  split; [by rewrite Hc1, lookup_insert_ne, lookup_delete_eq|].
  split; [by rewrite Hc1, lookup_insert_eq|].
  split; [by rewrite Hd1|]. split; [done|].
  destruct (smgrclearowner_live old reln st1 _ Hd1) as (st2 & Hrun2 & Hpost).
  rewrite decide_False in Hpost by (simpl; congruence). by subst.
Qed.

(** ** What every routine keeps *)

Section Always.

Variable env : Environment.

Lemma always_ok_same_handles st st' :
  always_ok st → same_handles st st' → always_ok st'.
Proof.
  intros [Hkeys Hcells] Hsame. pose proof Hsame as (_ & Hc & _). split.
  - intros p q d d' Hp Hq Hk.
    destruct (same_handles_entry _ _ _ _ Hsame Hp) as (e & He & Hse).
    destruct (same_handles_entry _ _ _ _ Hsame Hq) as (e' & He' & Hse').
    apply (Hkeys p q e e' He He').
    apply skeleton_eq in Hse as (? & _), Hse' as (? & _). congruence.
  - intros o p. rewrite Hc. intros Hop.
    destruct (Hcells o p Hop) as (d & Hd & Ho).
    destruct (same_handles_entry_back _ _ _ _ Hsame Hd) as (d' & Hd' & Hsk).
    exists d'. split; [done|]. apply skeleton_eq in Hsk as (_ & ? & _). congruence.
Qed.

Lemma always_ok_smgropen rnode backend relpersistence st :
  always_ok st → always_ok (snd (smgropen env rnode backend relpersistence st)).
Proof.
  intros [Hkeys Hcells].
  destruct (smgropen env rnode backend relpersistence st) as [r st'] eqn:Hrun.
  split; [by eapply smgropen_keys_unique|]. simpl.
  destruct (smgropen_outcome env _ _ _ _ _ _ Hrun)
    as [(p & d & d' & _ & Hd & He & _ & Ho & _ & _ & Hc & _)
       |(p & _ & Hd & He & Hc & _)];
    intros o q; rewrite Hc, He; intros Hoq;
    destruct (Hcells o q Hoq) as (dq & Hdq & Hqo).
  - rewrite lookup_insert. case_decide; [|eauto]. simplify_eq.
    exists d'. by rewrite Ho.
  - rewrite lookup_insert_ne; [eauto|]. intros <-. congruence.
Qed.

Lemma always_ok_smgrsetowner owner reln st :
  always_ok st → always_ok (snd (smgrsetowner owner reln st)).
Proof.
  intros [Hkeys Hcells].
  destruct (entries st !! reln) as [d|] eqn:Hd.
  2:{ unfold smgrsetowner. by rewrite bind_eq, deref_eq, Hd. }
  destruct (smgrsetowner_live owner reln st d Hd)
    as (st' & -> & He & Hc & _). simpl. split.
  - rewrite He. by apply (keys_unique_insert_same_key _ _ d).
  - intros o p. rewrite Hc, He, lookup_insert.
    destruct (decide (owner = o)) as [<-|Hne].
    { intros [= <-]. rewrite lookup_insert_eq. eauto. }
    intros Hop.
    assert (Hop' : owner_cells st !! o = Some p ∧ smgr_owner d ≠ Some o).
    { destruct (smgr_owner d) as [old|]; [|done].
      rewrite lookup_delete in Hop. case_decide; [done|]. split; [done|congruence]. }
    destruct Hop' as [Hop' Hno].
    destruct (Hcells o p Hop') as (dp & Hdp & Hpo).
    rewrite lookup_insert_ne; [eauto|]. intros <-. by simplify_eq.
Qed.

Lemma always_ok_smgrclearowner owner reln st :
  always_ok st → always_ok (snd (smgrclearowner owner reln st)).
Proof.
  intros [Hkeys Hcells].
  destruct (entries st !! reln) as [d|] eqn:Hd.
  2:{ unfold smgrclearowner. by rewrite bind_eq, deref_eq, Hd. }
  destruct (smgrclearowner_live owner reln st d Hd) as (st' & -> & Hpost). simpl.
  destruct (decide (smgr_owner d = Some owner)) as [Ho|Ho]; [|by subst].
  destruct Hpost as (He & Hc & _). split.
  - rewrite He. by apply (keys_unique_insert_same_key _ _ d).
  - intros o q. rewrite Hc, He, lookup_delete. case_decide as Hoo; [done|].
    intros Hoq. destruct (Hcells o q Hoq) as (dq & Hdq & Hqo).
    rewrite lookup_insert_ne; [eauto|]. intros <-. simplify_eq.
Qed.

(** smgrclose on any pointer, however it ends, takes away at most the entry
    it was given and the variable of that entry's owner. *)
Lemma smgrclose_any st p r st' :
  always_ok st → smgrclose env p st = (r, st') →
  always_ok st'
  ∧ (∀ q, q ≠ p → entries st' !! q = entries st !! q)
  ∧ (∀ o, (∀ d, entries st !! p = Some d → smgr_owner d ≠ Some o) →
       owner_cells st' !! o = owner_cells st !! o).
Proof.
  intros [Hkeys Hcells] Hrun.
  destruct (entries st !! p) as [d|] eqn:Hd.
  2:{ unfold smgrclose in Hrun. rewrite bind_eq, deref_eq, Hd in Hrun.
      by simplify_eq. }
  destruct (smgrclose_outcome env _ _ _ _ _ Hd Hrun)
    as [(evs & ev & tr & _ & _ & _ & ->)|(q & _ & Hq & He & _ & Hc & _)]; [done|].
  rewrite (hash_find_unique _ _ _ Hkeys Hd) in Hq. simplify_eq.
  split; [split|split].
  - rewrite He. by apply keys_unique_delete.
  - intros o p. rewrite Hc, He. intros Hop.
    assert (Hop' : owner_cells st !! o = Some p ∧ smgr_owner d ≠ Some o).
    { destruct (smgr_owner d) as [o'|]; [|done].
      rewrite lookup_delete in Hop. case_decide; [done|]. split; [done|congruence]. }
    destruct Hop' as [Hop' Hne]. destruct (Hcells o p Hop') as (dp & Hdp & Hpo).
    rewrite lookup_delete_ne; [eauto|]. intros <-. by simplify_eq.
  - intros p Hp. by rewrite He, lookup_delete_ne.
  - intros o Ho. rewrite Hc. destruct (smgr_owner d) as [o'|] eqn:Ho'; [|done].
    rewrite lookup_delete_ne; [done|]. intros <-. by apply (Ho d).
Qed.

Lemma for_each_keeps (P : State → Prop) l (body : Ptr → M unit) :
  (∀ p st r st', P st → body p st = (r, st') → P st') →
  ∀ st, P st → P (snd (for_each l body st)).
Proof.
  intros Hbody. induction l as [|p l IH]; intros st Hok; [done|].
  cbn [for_each]. rewrite bind_eq.
  destruct (body p st) as [[[]|e] st1] eqn:Hrun.
  - apply IH. by eapply Hbody.
  - simpl. by eapply Hbody.
Qed.

Lemma always_ok_sweep_body p st r st' :
  always_ok st →
  (d ← deref p;
   (if smgr_owner d is Some _ then raise assertion_failed else mret tt);;
   smgrclose env p) st = (r, st') →
  always_ok st'
  ∧ (∀ q, q ≠ p → entries st' !! q = entries st !! q)
  ∧ owner_cells st' = owner_cells st.
Proof.
  intros Hok Hrun. rewrite bind_eq, deref_eq in Hrun.
  destruct (entries st !! p) as [d|] eqn:Hd; [|by simplify_eq].
  rewrite bind_eq in Hrun. destruct (smgr_owner d) as [o|] eqn:Ho.
  { unfold raise in Hrun. by simplify_eq. }
  unfold mret at 1, M_ret at 1, ret at 1 in Hrun.
  destruct (smgrclose_any _ _ _ _ Hok Hrun) as (Hok' & He & Hc).
  split; [done|]. split; [done|]. apply map_eq. intros o. apply Hc.
  intros d' Hd' Ho'. simplify_eq.
Qed.

Lemma AtEOXact_SMgr_any st r st' :
  always_ok st →
  AtEOXact_SMgr env st = (r, st') →
  (∀ q, q ∉ unowned_relns st → entries st' !! q = entries st !! q)
  ∧ owner_cells st' = owner_cells st
  ∧ always_ok st'.
Proof.
  intros Hok Hrun. unfold AtEOXact_SMgr in Hrun. rewrite bind_eq in Hrun.
  unfold gets in Hrun. revert Hrun. generalize (unowned_relns st) as l.
  intros l. revert st Hok. induction l as [|p l IH]; intros st Hok Hrun.
  { cbn [for_each] in Hrun. unfold mret, M_ret, ret in Hrun. by simplify_eq. }
  cbn [for_each] in Hrun. rewrite bind_eq in Hrun.
  match type of Hrun with
  | (let (_, _) := ?m in _) = _ => destruct m as [r1 st1] eqn:Hbody
  end.
  destruct (always_ok_sweep_body _ _ _ _ Hok Hbody) as (Hok1 & He1 & Hc1).
  destruct r1 as [[]|e].
  - destruct (IH st1 Hok1 Hrun) as (He & Hc & Hok').
    split; [|split; [congruence|done]].
    intros q Hq. apply not_elem_of_cons in Hq as [Hne Hq].
    by rewrite He, He1.
  - simplify_eq. split; [|done]. intros q Hq.
    apply not_elem_of_cons in Hq as [Hne Hq]. by apply He1.
Qed.

Lemma always_ok_initial in_recovery : always_ok (initial_state in_recovery).
Proof. destruct (registry_ok_initial in_recovery) as (? & _ & ? & _). by split. Qed.

Lemma always_ok_frames {A} (m : M A) st :
  frames m → always_ok st → always_ok (snd (m st)).
Proof. intros Hm Hok. eapply always_ok_same_handles; [done|]. by apply frames_snd. Qed.

Lemma always_ok_smgrclose p st :
  always_ok st → always_ok (snd (smgrclose env p st)).
Proof.
  intros Hok. destruct (smgrclose env p st) as [r st'] eqn:Hrun.
  by destruct (smgrclose_any _ _ _ _ Hok Hrun).
Qed.

Lemma always_ok_run_routine c st :
  always_ok st → always_ok (run_routine env c st).
Proof.
  intros Hok. destruct c; simpl.
  - by apply always_ok_smgropen.
  - by apply always_ok_smgrsetowner.
  - by apply always_ok_smgrclearowner.
  - by apply always_ok_smgrclose.
  - apply always_ok_frames; [apply frames_smgrrelease|done].
  - apply always_ok_frames; [apply frames_smgrreleaseall|done].
  - unfold smgrcloseall. rewrite bind_eq. unfold gets at 1.
    destruct (SMgrRelationHash st); [|done]. rewrite bind_eq. unfold gets.
    apply (for_each_keeps always_ok); [|done].
    intros p s r s' Hs Hrun. by destruct (smgrclose_any _ _ _ _ Hs Hrun).
  - rewrite smgrclosenode_eq. destruct (hash_find _ _); [|done].
    by apply always_ok_smgrclose.
  - apply always_ok_frames; [apply frames_smgrdounlinkall|done].
  - apply always_ok_frames; [apply frames_smgrextend|done].
  - apply always_ok_frames; [apply frames_smgrnblocks|done].
  - apply always_ok_frames; [apply frames_smgrtruncate|done].
  - destruct (AtEOXact_SMgr env st) as [r st'] eqn:Hrun.
    by destruct (AtEOXact_SMgr_any _ _ _ Hok Hrun) as (_ & _ & ?).
  - apply always_ok_frames; [apply frames_ProcessBarrierSmgrRelease|done].
Qed.

(** X15: whatever routines of smgr.c a backend calls, with whatever
    arguments and however each call ends, the table never holds two entries
    for one identity, and a variable that holds a handle is always the
    owner recorded in that handle.  (A call on an address that is not a
    live handle raises invalid_access here and changes nothing.) *)
Theorem every_routine_keeps_always_ok cs in_recovery :
  always_ok (run_routines env cs (initial_state in_recovery))
  ∧ ∀ c st, always_ok st → always_ok (run_routine env c st).
Proof.
  split; [|apply always_ok_run_routine].
  unfold run_routines. generalize (always_ok_initial in_recovery).
  generalize (initial_state in_recovery). induction cs as [|c cs IH]; intros st Hok.
  - done.
  - simpl. apply IH. by apply always_ok_run_routine.
Qed.

End Always.

(** ** Consistency of the registry along a run *)

Section Consistency.

Variable env : Environment.

(** The backend never fails to set up a new handle. *)
Hypothesis open_succeeds :
  ∀ tr impl reln, ext_raises env tr (Ev_smgr_open impl reln) = false.

Lemma registry_ok_smgropen rnode backend relpersistence st :
  registry_ok st → registry_ok (snd (smgropen env rnode backend relpersistence st)).
Proof.
  intros Hok.
  destruct (hash_find {| node := rnode; backend := backend |} (entries st))
    as [p|] eqn:Hf.
  - destruct (hash_find_Some _ _ _ Hf) as (d & Hd & Hk).
    rewrite (smgropen_found env _ _ _ _ _ _ Hf Hd). case_decide.
    + simpl. by eapply (registry_ok_update st _ p d).
    + by destruct (_ || _).
  - destruct (smgropen env rnode backend relpersistence st) as [r st'] eqn:Hrun.
    pose proof Hrun as Hrun'.
    rewrite (smgropen_miss env _ _ _ _ Hf), open_succeeds in Hrun'.
    simplify_eq. by eapply smgropen_registry_ok.
Qed.

Lemma registry_ok_smgrclose p st r st' :
  registry_ok st → smgrclose env p st = (r, st') → registry_ok st'.
Proof.
  intros Hok Hrun. destruct (entries st !! p) as [d|] eqn:Hd.
  2:{ unfold smgrclose in Hrun. rewrite bind_eq, deref_eq, Hd in Hrun.
      by simplify_eq. }
  destruct (smgrclose_outcome env _ _ _ _ _ Hd Hrun)
    as [(evs & ev & tr & _ & _ & _ & ->)|(q & -> & _)].
  - eapply registry_ok_same_handles; [done|]. apply same_handles_set_trace.
  - by destruct (smgrclose_ok env _ _ _ _ Hok Hd Hrun) as (_ & _ & _ & _ & _ & ?).
Qed.

Lemma registry_ok_frames {A} (m : M A) st :
  frames m → registry_ok st → registry_ok (snd (m st)).
Proof.
  intros Hm Hok. eapply registry_ok_same_handles; [done|]. by apply frames_snd.
Qed.

Lemma registry_ok_run_routine c st :
  registry_ok st → disciplined st c → registry_ok (run_routine env c st).
Proof.
  intros Hok Hc. destruct c; simpl.
  - by apply registry_ok_smgropen.
  - destruct (entries st !! reln) as [d|] eqn:Hd.
    + destruct (smgrsetowner owner reln st) as [r st'] eqn:Hrun.
      destruct (smgrsetowner_live owner reln st d Hd) as (st0 & Hrun0 & _).
      rewrite Hrun in Hrun0. simplify_eq. by eapply smgrsetowner_registry_ok.
    + unfold smgrsetowner. by rewrite bind_eq, deref_eq, Hd.
  - destruct (entries st !! reln) as [d|] eqn:Hd.
    + destruct (smgrclearowner owner reln st) as [r st'] eqn:Hrun.
      destruct (smgrclearowner_live owner reln st d Hd) as (st0 & Hrun0 & _).
      rewrite Hrun in Hrun0. simplify_eq. by eapply smgrclearowner_registry_ok.
    + unfold smgrclearowner. by rewrite bind_eq, deref_eq, Hd.
  - destruct (smgrclose env reln st) as [r st'] eqn:Hrun.
    by eapply registry_ok_smgrclose.
  - apply registry_ok_frames; [apply frames_smgrrelease|done].
  - apply registry_ok_frames; [apply frames_smgrreleaseall|done].
  - unfold smgrcloseall. rewrite bind_eq. unfold gets at 1.
    destruct (SMgrRelationHash st); [|done]. rewrite bind_eq. unfold gets.
    apply (for_each_keeps registry_ok); [|done].
    intros p s r s' Hs Hrun. by eapply registry_ok_smgrclose.
  - rewrite smgrclosenode_eq. destruct (hash_find _ _) as [p|]; [|done].
    destruct (smgrclose env p st) as [r st'] eqn:Hrun.
    by eapply registry_ok_smgrclose.
  - apply registry_ok_frames; [apply frames_smgrdounlinkall|done].
  - apply registry_ok_frames; [apply frames_smgrextend|done].
  - apply registry_ok_frames; [apply frames_smgrnblocks|done].
  - apply registry_ok_frames; [apply frames_smgrtruncate|done].
  - unfold AtEOXact_SMgr. rewrite bind_eq. unfold gets.
    apply (for_each_keeps registry_ok); [|done].
    intros p s r s' Hs Hrun. rewrite bind_eq, deref_eq in Hrun.
    destruct (entries s !! p) as [d|]; [|by simplify_eq].
    rewrite bind_eq in Hrun. destruct (smgr_owner d).
    + unfold raise in Hrun. by simplify_eq.
    + unfold ret at 1 in Hrun. by eapply registry_ok_smgrclose.
  - apply registry_ok_frames; [apply frames_ProcessBarrierSmgrRelease|done].
Qed.

(** X16: with a backend whose smgr_open does not raise, and callers that
    hand smgrsetowner only a variable that is NULL or already holds the
    handle, the registry is consistent after every call of every routine,
    however the call ends: one entry per identity, every handle either in
    the unowned list, once, or bound one-to-one to its owner. *)
Theorem registry_ok_along_run cs in_recovery :
  disciplined_run env cs (initial_state in_recovery) →
  registry_ok (run_routines env cs (initial_state in_recovery)).
Proof.
  unfold run_routines. generalize (registry_ok_initial in_recovery).
  generalize (initial_state in_recovery).
  induction cs as [|c cs IH]; intros st Hok Hrun; [done|].
  destruct Hrun as [Hc Hrun]. simpl. apply IH; [|done].
  by apply registry_ok_run_routine.
Qed.

End Consistency.

(** ** When the backend fails to open *)

Section OpenFailure.

Variable env : Environment.

(** X13: when smgropen misses and the backend's smgr_open raises, the new
    entry stays in the table but is not put in the unowned list, so the
    unowned list is no longer exact.  A later smgropen for the same identity
    returns that entry without calling the backend and without listing it,
    and AtEOXact_SMgr, however it ends, leaves the entry in the table. *)
Theorem smgropen_failed_open_leaves_entry rnode backend relpersistence st :
  registry_ok st →
  hash_find {| node := rnode; backend := backend |} (entries st) = None →
  ext_raises env (trace st)
    (Ev_smgr_open (smgr env backend rnode) (fresh (dom (entries st)))) = true →
  ∃ p st',
    smgropen env rnode backend relpersistence st =
      (Raise (external_error (Ev_smgr_open (smgr env backend rnode) p)), st')
    ∧ entries st !! p = None
    ∧ entries st' = <[p := fresh_entry env rnode backend relpersistence]> (entries st)
    ∧ unowned_relns st' = unowned_relns st
    ∧ (p ∉ unowned_relns st')
    ∧ ¬ unowned_ok st'
    ∧ (∃ st'', smgropen env rnode backend relpersistence st' = (Ok p, st'')
         ∧ trace st'' = trace st'
         ∧ unowned_relns st'' = unowned_relns st')
    ∧ (∀ r2 st2, AtEOXact_SMgr env st' = (r2, st2) → is_Some (entries st2 !! p)).
Proof.
  intros Hok Hmiss Hraise. pose proof Hok as (Hkeys & Hun & Hcells & _).
  set (p := fresh (dom (entries st))) in *.
  assert (Hp : entries st !! p = None) by apply not_elem_of_dom, is_fresh.
  destruct (smgropen env rnode backend relpersistence st) as [r st'] eqn:Hrun.
  pose proof Hrun as Hrun'.
  rewrite (smgropen_miss env _ _ _ _ Hmiss) in Hrun'. fold p in Hrun'.
  rewrite Hraise in Hrun'. simplify_eq.
  set (st' := set_trace _ _) in *.
  assert (He : entries st' = <[p := fresh_entry env rnode backend relpersistence]> (entries st))
    by done.
  assert (Hu : unowned_relns st' = unowned_relns st)
    by (exact (unowned_ok_table_of _ Hun)).
  assert (Hnot : p ∉ unowned_relns st').
  { rewrite Hu. intros Hin. apply Hun in Hin as (d & Hd & _). congruence. }
  assert (Hlive : entries st' !! p = Some (fresh_entry env rnode backend relpersistence)).
  { by rewrite He, lookup_insert_eq. }
  assert (Hok' : always_ok st').
  { pose proof (always_ok_smgropen env rnode backend relpersistence st) as H.
    rewrite Hrun in H. apply H. by split. }
  exists p, st'. split; [done|]. split; [done|]. split; [done|]. split; [done|].
  split; [done|]. split; [|split].
  - intros [_ Hin]. apply Hnot, Hin. eauto.
  - assert (Hf : hash_find {| node := rnode; backend := backend |} (entries st') = Some p).
    { apply (hash_find_unique _ _ _ (proj1 Hok') Hlive). }
    rewrite (smgropen_found env _ _ _ _ _ _ Hf Hlive). simpl.
    case_decide; [by eexists|].
    rewrite (bool_decide_eq_true_2 (relpersistence = relpersistence)) by done.
    rewrite orb_true_r. by eexists.
  - intros r2 st2 Hsweep.
    destruct (AtEOXact_SMgr_any env _ _ _ Hok' Hsweep) as (Hkeep & _).
    rewrite (Hkeep p Hnot), Hlive. eauto.
Qed.

End OpenFailure.

(** ** The order of the calls of smgrtruncate *)

Section TruncateOrder.

Variable env : Environment.

(** X17: in every execution of smgrtruncate, a backend truncate is made
    only after the buffers beyond the new sizes were dropped and the
    invalidation for the identity of the handle was broadcast, in that
    order, with nothing but backend truncates of this handle in between;
    and when smgrtruncate returns, both were done, even for an empty list
    of forks. *)
Theorem smgrtruncate_call_order reln forknum nforks nblocks st r st' :
  (Z.to_nat nforks ≤ length forknum)%nat →
  (Z.to_nat nforks ≤ length nblocks)%nat →
  smgrtruncate env reln forknum nforks nblocks st = (r, st') →
  ∃ evs,
    trace st' = trace st ++ evs
    ∧ (∀ before ev after, evs = before ++ ev :: after →
         (∃ impl g n, ev = Ev_smgr_truncate impl reln g n) →
         ∃ d rest,
           entries st !! reln = Some d
           ∧ before = Ev_DropRelFileNodeBuffers reln forknum nforks nblocks
                      :: Ev_CacheInvalidateSmgr (smgr_rnode d) :: rest
           ∧ ∀ e, e ∈ rest → ∃ impl g n, e = Ev_smgr_truncate impl reln g n)
    ∧ (r = Ok tt → ∃ d rest,
         entries st !! reln = Some d
         ∧ evs = Ev_DropRelFileNodeBuffers reln forknum nforks nblocks
                 :: Ev_CacheInvalidateSmgr (smgr_rnode d) :: rest).
Proof.
  intros Hlf Hln Hrun. unfold smgrtruncate in Hrun.
  rewrite bind_eq, call_eq in Hrun.
  set (ev1 := Ev_DropRelFileNodeBuffers reln forknum nforks nblocks) in *.
  assert (Hnone : ∀ evs, (∀ e, e ∈ evs → ∀ impl g n,
                    e ≠ Ev_smgr_truncate impl reln g n) →
            ∀ before ev after, evs = before ++ ev :: after →
            (∃ impl g n, ev = Ev_smgr_truncate impl reln g n) → False).
  { intros evs Hall before ev after -> (impl & g & n & ->).
    refine (Hall (Ev_smgr_truncate impl reln g n) _ impl g n eq_refl).
    apply elem_of_app. right. apply elem_of_cons. by left. }
  destruct (ext_raises env (trace st) ev1).
  { simplify_eq. exists [ev1]. split; [done|]. split; [|done].
    intros before ev after Heq Hev. destruct (Hnone [ev1]) with before ev after; try done.
    intros e He. by apply list_elem_of_singleton in He as ->. }
  rewrite bind_eq, deref_eq in Hrun. simpl in Hrun.
  change (entries (set_trace (trace st ++ [ev1]) st)) with (entries st) in Hrun.
  destruct (entries st !! reln) as [d|] eqn:Hd.
  2:{ simplify_eq. exists [ev1]. split; [done|]. split; [|done].
      intros before ev after Heq Hev.
      destruct (Hnone [ev1]) with before ev after; try done.
      intros e He. by apply list_elem_of_singleton in He as ->. }
  rewrite bind_eq, call_eq in Hrun. simpl in Hrun.
  set (ev2 := Ev_CacheInvalidateSmgr (smgr_rnode d)) in *.
  destruct (ext_raises env (trace st ++ [ev1]) ev2).
  { simplify_eq. exists [ev1; ev2]. simpl. rewrite <- app_assoc.
    split; [done|]. split; [|done].
    intros before ev after Heq Hev.
    destruct (Hnone [ev1; ev2]) with before ev after; try done.
    intros e He. apply elem_of_cons in He as [->|He]; [done|].
    by apply list_elem_of_singleton in He as ->. }
  apply truncate_loop in Hrun as (evs & Ht & _ & Hform & _).
  2:{ apply Forall_forall. intros i Hi. apply upto_bound in Hi. lia. }
  simpl in Ht. exists (ev1 :: ev2 :: evs).
  split; [by rewrite Ht, <- !app_assoc|]. split.
  - intros before ev after Heq (impl & g & n & ->).
    destruct before as [|b1 before]; [by simplify_eq/=|].
    destruct before as [|b2 before]; [by simplify_eq/=|].
    simpl in Heq. simplify_eq. exists d, before. split; [done|]. split; [done|].
    intros e He. destruct (Hform e) as (impl' & i & g' & n' & -> & _).
    { apply elem_of_app. by left. }
    eauto.
  - intros _. by exists d, evs.
Qed.

End TruncateOrder.

(** ** The cache of block counts during recovery *)

Section RecoveryCache.

Variable env : Environment.

Lemma smgrnblocks_ok reln forknum st n st1 :
  smgrnblocks env reln forknum st = (Ok n, st1) →
  cached_nblocks st1 reln forknum = Some n ∧ InRecovery st1 = InRecovery st.
Proof.
  intros Hrun. split.
  2:{ by destruct (frames_smgrnblocks env reln forknum _ _ _ Hrun) as (_ & _ & ? & _). }
  unfold smgrnblocks in Hrun. rewrite bind_eq, smgrnblocks_cached_eq in Hrun.
  assert (Hmiss : ∀ s,
            (if decide (InvalidBlockNumber ≠ InvalidBlockNumber)
             then ret InvalidBlockNumber
             else d ← deref reln;
                  result ← call_nblocks env (reln_smgr d) reln forknum;
                  set_cached_nblocks reln forknum result;; ret result) s
            = (Ok n, st1) →
            cached_nblocks st1 reln forknum = Some n).
  { intros s Hs. rewrite decide_False in Hs by (intros H; by apply H).
    rewrite bind_eq, deref_eq in Hs.
    destruct (entries s !! reln) as [d|] eqn:Hd; [|done].
    rewrite bind_eq in Hs. unfold call_nblocks in Hs.
    rewrite bind_eq in Hs. unfold gets in Hs. rewrite bind_eq, call_eq in Hs.
    destruct (ext_raises _ _ _); [done|].
    unfold ret at 1 in Hs. cbv beta iota in Hs. rewrite bind_eq in Hs.
    set (s1 := set_trace _ s) in *. set (v := uint32 _) in *.
    destruct (cached_nblocks s1 reln forknum) as [c|] eqn:Hc.
    - destruct (set_cached_nblocks_live reln forknum v s1 (mk_is_Some _ _ Hc))
        as (s2 & Hset & _ & _ & Hget & _).
      rewrite Hset in Hs. unfold ret in Hs. simplify_eq.
      by rewrite Hget, decide_True.
    - by rewrite (set_cached_nblocks_dead _ _ _ _ Hc) in Hs. }
  destruct (InRecovery st).
  - destruct (cached_nblocks st reln forknum) as [c|] eqn:Hc; [|done].
    destruct (decide (c = InvalidBlockNumber)) as [->|Hne].
    + by apply (Hmiss st).
    + rewrite decide_True in Hrun by done. unfold ret in Hrun.
      by simplify_eq.
  - by apply (Hmiss st).
Qed.

Lemma smgrextend_ok reln forknum blocknum skipFsync st st2 c :
  smgrextend env reln forknum blocknum skipFsync st = (Ok tt, st2) →
  cached_nblocks st reln forknum = Some c →
  cached_nblocks st2 reln forknum =
    Some (if decide (c = blocknum) then uint32 (blocknum + 1)
          else InvalidBlockNumber).
Proof.
  intros Hrun Hc. unfold smgrextend in Hrun.
  destruct (cached_nblocks_live _ _ _ _ Hc) as [d Hd].
  rewrite bind_eq, (deref_live _ _ _ Hd), bind_eq, call_eq in Hrun.
  destruct (ext_raises _ _ _); [done|].
  rewrite bind_eq, get_cached_nblocks_eq, cached_nblocks_set_trace, Hc in Hrun.
  set (st1 := set_trace _ st) in *.
  assert (Hs : is_Some (cached_nblocks st1 reln forknum)) by (exists c; exact Hc).
  destruct (decide (c = blocknum)) as [->|Hne].
  - destruct (set_cached_nblocks_live reln forknum (uint32 (blocknum + 1)) st1 Hs)
      as (s & Hset & _ & _ & Hget & _).
    rewrite Hset in Hrun. simplify_eq. by rewrite Hget, decide_True.
  - destruct (set_cached_nblocks_live reln forknum InvalidBlockNumber st1 Hs)
      as (s & Hset & _ & _ & Hget & _).
    rewrite Hset in Hrun. simplify_eq. by rewrite Hget, decide_True.
Qed.

(** X18: during recovery the cache follows an extension at a block number
    (InvalidBlockNumber is not one).  When smgrnblocks has returned [n] and
    the relation is then extended at block [n], with [n + 1] below
    InvalidBlockNumber, the next smgrnblocks returns [n + 1] without calling
    the backend.  Extended at any other block, or at [n] = 4294967294, where
    [n + 1] is InvalidBlockNumber, the cached count is InvalidBlockNumber
    and the next smgrnblocks calls the backend. *)
Theorem recovery_extend_keeps_cache reln forknum skipFsync blocknum st n st1 st2 :
  InRecovery st = true →
  smgrnblocks env reln forknum st = (Ok n, st1) →
  0 <= blocknum < InvalidBlockNumber →
  smgrextend env reln forknum blocknum skipFsync st1 = (Ok tt, st2) →
  (blocknum = n → n + 1 < InvalidBlockNumber →
     smgrnblocks env reln forknum st2 = (Ok (n + 1), st2))
  ∧ (blocknum ≠ n ∨ n + 1 = InvalidBlockNumber →
     cached_nblocks st2 reln forknum = Some InvalidBlockNumber
     ∧ ∃ r st3 impl, smgrnblocks env reln forknum st2 = (r, st3)
         ∧ trace st3 = trace st2 ++ [Ev_smgr_nblocks impl reln forknum]).
Proof.
  intros Hrec Hn1 Hb Hext.
  destruct (smgrnblocks_ok _ _ _ _ _ Hn1) as [Hc1 Hr1].
  pose proof (smgrextend_ok _ _ _ _ _ _ _ Hext Hc1) as Hc2.
  assert (Hr2 : InRecovery st2 = true).
  { destruct (frames_smgrextend env _ _ _ _ _ _ _ Hext) as (_ & _ & -> & _).
    congruence. }
  split.
  - intros -> Hn. rewrite decide_True in Hc2 by done.
    unfold uint32 in Hc2. rewrite Z.mod_small in Hc2
      by (unfold InvalidBlockNumber in Hn; lia).
    unfold smgrnblocks. rewrite bind_eq, smgrnblocks_cached_eq, Hr2, Hc2.
    rewrite decide_True; [done|]. lia.
  - intros Hcase.
    assert (Hunknown : cached_nblocks st2 reln forknum = Some InvalidBlockNumber).
    { rewrite Hc2. destruct (decide (n = blocknum)) as [->|Hne]; [|done].
      destruct Hcase as [Hne|Hn]; [done|]. by rewrite Hn. }
    clear Hc2. rename Hunknown into Hc2. split; [done|].
    destruct (cached_nblocks_live _ _ _ _ Hc2) as [d Hd].
    unfold smgrnblocks. rewrite bind_eq, smgrnblocks_cached_eq, Hr2, Hc2.
    rewrite decide_False by (intros H; by apply H).
    rewrite bind_eq, (deref_live _ _ _ Hd), bind_eq.
    unfold call_nblocks. rewrite bind_eq. unfold gets. rewrite bind_eq, call_eq.
    destruct (ext_raises _ _ _).
    + eexists _, _, (reln_smgr d). split; [done|]. done.
    + unfold ret at 1. cbv beta iota. rewrite bind_eq.
      set (s1 := set_trace _ st2). set (v := uint32 _).
      destruct (set_cached_nblocks_live reln forknum v s1) as (s2 & Hset & Ht & _).
      { unfold s1. rewrite cached_nblocks_set_trace, Hc2. eauto. }
      rewrite Hset. eexists _, _, (reln_smgr d). split; [done|]. by rewrite Ht.
Qed.

End RecoveryCache.

(** ** Sweeping twice *)

Section SweepTwice.

Variable env : Environment.

Hypothesis close_succeeds :
  ∀ tr impl reln forknum,
    ext_raises env tr (Ev_smgr_close impl reln forknum) = false.

Lemma registry_ok_sweep_body p st r st' :
  registry_ok st →
  (d ← deref p;
   (if smgr_owner d is Some _ then raise assertion_failed else mret tt);;
   smgrclose env p) st = (r, st') →
  registry_ok st'.
Proof.
  intros Hok Hrun. rewrite bind_eq, deref_eq in Hrun.
  destruct (entries st !! p) as [d|] eqn:Hd; [|by simplify_eq].
  rewrite bind_eq in Hrun. destruct (smgr_owner d) as [o|] eqn:Ho.
  { unfold raise in Hrun. by simplify_eq. }
  unfold mret at 1, M_ret at 1, ret at 1 in Hrun.
  by eapply registry_ok_smgrclose.
Qed.

(** X19: in a consistent registry, with a backend that closes forks without
    error, AtEOXact_SMgr leaves a consistent registry in which the unowned
    list is empty and every handle has an owner; a second sweep right after
    it makes no call and changes nothing. *)
Theorem AtEOXact_SMgr_twice st :
  registry_ok st →
  ∃ st', AtEOXact_SMgr env st = (Ok tt, st')
    ∧ registry_ok st'
    ∧ unowned_relns st' = []
    ∧ (∀ p d, entries st' !! p = Some d → is_Some (smgr_owner d))
    ∧ AtEOXact_SMgr env st' = (Ok tt, st').
Proof.
  intros Hok. pose proof Hok as (Hkeys & Hun & _).
  destruct (sweep_loop env close_succeeds (unowned_relns st) st Hkeys Hun eq_refl)
    as (st' & evs & Hloop & Hempty & _).
  assert (Hrun : AtEOXact_SMgr env st = (Ok tt, st')).
  { unfold AtEOXact_SMgr. rewrite bind_eq. exact Hloop. }
  assert (Hok' : registry_ok st').
  { change st' with (snd (Ok tt : Result unit, st')). rewrite <- Hloop.
    apply for_each_keeps; [|done].
    intros p s r s' Hs Hb. by eapply registry_ok_sweep_body. }
  exists st'. split; [done|]. split; [done|]. split; [done|]. split.
  - intros p d Hd. destruct (smgr_owner d) eqn:Ho; [eauto|].
    destruct Hok' as (_ & [_ Hin] & _).
    assert (Hp : p ∈ unowned_relns st') by (apply Hin; eauto).
    rewrite Hempty in Hp. by apply elem_of_nil in Hp.
  - unfold AtEOXact_SMgr. rewrite bind_eq. unfold gets. by rewrite Hempty.
Qed.

End SweepTwice.

(** ** A sweep that stops half-way *)

Section SweepAny.

Variable env : Environment.

(** The loop of AtEOXact_SMgr over handles [l] of the unowned list: it
    ends by returning or with the error of a backend close. *)
Lemma sweep_ends l :
  ∀ st r st', registry_ok st → NoDup l →
  (∀ p, p ∈ l → p ∈ unowned_relns st) →
  for_each l (fun rel =>
    d ← deref rel;
    (if smgr_owner d is Some _ then raise assertion_failed else mret tt);;
    smgrclose env rel) st = (r, st') →
  r = Ok tt
  ∨ ∃ impl q forknum,
      q ∈ l ∧ r = Raise (external_error (Ev_smgr_close impl q forknum)).
Proof.
  induction l as [|p l IH]; intros st r st' Hok Hnd Hin Hrun.
  { cbn [for_each] in Hrun. unfold mret, M_ret, ret in Hrun. simplify_eq. by left. }
  apply NoDup_cons in Hnd as [Hp Hnd].
  pose proof Hok as (_ & [_ Hlisted] & _).
  destruct (proj1 (Hlisted p)) as (d & Hd & Ho);
    [apply Hin, elem_of_cons; by left|].
  cbn [for_each] in Hrun.
  rewrite bind_eq, bind_eq, (deref_live _ _ _ Hd), bind_eq, Ho in Hrun.
  unfold mret at 1, M_ret at 1, ret at 1 in Hrun. cbv beta iota in Hrun.
  destruct (smgrclose env p st) as [r1 st1] eqn:Hclose.
  destruct (smgrclose_outcome env _ _ _ _ _ Hd Hclose)
    as [(evs & ev & tr & -> & Hev & _ & ->)|(q & -> & _)].
  - simplify_eq. right. apply list_elem_of_fmap in Hev as (f & -> & _).
    exists (reln_smgr d), p, f. split; [apply elem_of_cons; by left|done].
  - destruct (smgrclose_ok env _ _ _ _ Hok Hd Hclose) as (_ & Hu & _ & _ & _ & Hok1).
    destruct (IH st1 r st' Hok1 Hnd) as [->|(impl & q' & f & Hq' & ->)]; [|done|by left|].
    + intros q' Hq'. rewrite Hu, elem_of_list_remove. split.
      * apply Hin, elem_of_cons. by right.
      * intros ->. done.
    + right. exists impl, q', f. split; [apply elem_of_cons; by right|done].
Qed.

(** X14: in a consistent registry, however AtEOXact_SMgr ends, it removes
    no handle that was not in the unowned list, changes no owner's variable
    and leaves the registry consistent; the Assert never trips: it either
    returns or stops with the error of the backend close of a fork of an
    unowned handle. *)
Theorem AtEOXact_SMgr_only_unowned st r st' :
  registry_ok st →
  AtEOXact_SMgr env st = (r, st') →
  (∀ q, q ∉ unowned_relns st → entries st' !! q = entries st !! q)
  ∧ owner_cells st' = owner_cells st
  ∧ registry_ok st'
  ∧ (r = Ok tt
     ∨ ∃ impl q forknum,
         q ∈ unowned_relns st
         ∧ r = Raise (external_error (Ev_smgr_close impl q forknum))).
Proof.
  intros Hok Hrun.
  assert (Halways : always_ok st).
  { destruct Hok as (? & _ & ? & _). by split. }
  destruct (AtEOXact_SMgr_any env _ _ _ Halways Hrun) as (He & Hc & _).
  split; [done|]. split; [done|].
  unfold AtEOXact_SMgr in Hrun. rewrite bind_eq in Hrun. unfold gets in Hrun.
  split.
  - change st' with (snd (r, st')). rewrite <- Hrun.
    apply for_each_keeps; [|done].
    intros p s r1 s1 Hs Hb. by eapply registry_ok_sweep_body.
  - pose proof Hok as (_ & [Hnd _] & _).
    by eapply (sweep_ends (unowned_relns st) st r st').
Qed.

End SweepAny.

(** ** Failed block calls *)

Section BlockFailure.

Variable env : Environment.

Lemma smgrextend_raise reln forknum blocknum skipFsync st e st' :
  smgrextend env reln forknum blocknum skipFsync st = (Raise e, st') →
  entries st' = entries st
  ∧ (e = invalid_access
     ∨ ∃ d, entries st !! reln = Some d
         ∧ e = external_error
                 (Ev_smgr_extend (reln_smgr d) reln forknum blocknum skipFsync)).
Proof.
  intros Hrun. unfold smgrextend in Hrun. rewrite bind_eq, deref_eq in Hrun.
  destruct (entries st !! reln) as [d|] eqn:Hd; [|simplify_eq; split; [done|by left]].
  rewrite bind_eq, call_eq in Hrun.
  destruct (ext_raises _ _ _).
  { simplify_eq. split; [done|]. right. by exists d. }
  rewrite bind_eq, get_cached_nblocks_eq, cached_nblocks_set_trace in Hrun.
  destruct (cached_nblocks st reln forknum) as [c|] eqn:Hc.
  2:{ simplify_eq. split; [done|by left]. }
  set (st1 := set_trace _ st) in *.
  assert (Hs : is_Some (cached_nblocks st1 reln forknum)) by (exists c; exact Hc).
  destruct (decide (c = blocknum)).
  - destruct (set_cached_nblocks_live reln forknum (uint32 (blocknum + 1)) st1 Hs)
      as (s & Hset & _). by rewrite Hset in Hrun.
  - destruct (set_cached_nblocks_live reln forknum InvalidBlockNumber st1 Hs)
      as (s & Hset & _). by rewrite Hset in Hrun.
Qed.

Lemma smgrnblocks_raise reln forknum st e st' :
  smgrnblocks env reln forknum st = (Raise e, st') →
  entries st' = entries st
  ∧ (e = invalid_access
     ∨ ∃ d, entries st !! reln = Some d
         ∧ e = external_error (Ev_smgr_nblocks (reln_smgr d) reln forknum)).
Proof.
  intros Hrun. unfold smgrnblocks in Hrun.
  rewrite bind_eq, smgrnblocks_cached_eq in Hrun.
  assert (Hmiss :
            (if decide (InvalidBlockNumber ≠ InvalidBlockNumber)
             then ret InvalidBlockNumber
             else d ← deref reln;
                  result ← call_nblocks env (reln_smgr d) reln forknum;
                  set_cached_nblocks reln forknum result;; ret result) st
            = (Raise e, st') →
            entries st' = entries st
            ∧ (e = invalid_access
               ∨ ∃ d, entries st !! reln = Some d
                   ∧ e = external_error (Ev_smgr_nblocks (reln_smgr d) reln forknum))).
  { intros Hs. rewrite decide_False in Hs by (intros H; by apply H).
    rewrite bind_eq, deref_eq in Hs.
    destruct (entries st !! reln) as [d|] eqn:Hd; [|simplify_eq; split; [done|by left]].
    rewrite bind_eq in Hs. unfold call_nblocks in Hs.
    rewrite bind_eq in Hs. unfold gets in Hs. rewrite bind_eq, call_eq in Hs.
    destruct (ext_raises _ _ _).
    { simplify_eq. split; [done|]. right. by exists d. }
    unfold ret at 1 in Hs. cbv beta iota in Hs. rewrite bind_eq in Hs.
    set (s1 := set_trace _ st) in *. set (v := uint32 _) in *.
    destruct (cached_nblocks s1 reln forknum) as [c|] eqn:Hc.
    - destruct (set_cached_nblocks_live reln forknum v s1 (mk_is_Some _ _ Hc))
        as (s2 & Hset & _).
      rewrite Hset in Hs. by unfold ret in Hs.
    - rewrite (set_cached_nblocks_dead _ _ _ _ Hc) in Hs. simplify_eq.
      split; [done|by left]. }
  destruct (InRecovery st).
  - destruct (cached_nblocks st reln forknum) as [c|] eqn:Hc.
    2:{ simplify_eq. split; [done|by left]. }
    destruct (decide (c = InvalidBlockNumber)) as [->|Hne].
    + by apply Hmiss.
    + rewrite decide_True in Hrun by done. by unfold ret in Hrun.
  - by apply Hmiss.
Qed.

(** X20: smgrextend and smgrnblocks change a cached block count only after
    the call to the backend has returned: when either of them raises, every
    handle and every cached count is what it was before, and on a live
    handle with a fork number in range the error is the backend's. *)
Theorem block_call_failure_keeps_cache reln forknum st e st' :
  ((∃ blocknum skipFsync,
      smgrextend env reln forknum blocknum skipFsync st = (Raise e, st'))
   ∨ smgrnblocks env reln forknum st = (Raise e, st')) →
  entries st' = entries st
  ∧ (∀ q g, cached_nblocks st' q g = cached_nblocks st q g)
  ∧ (is_Some (cached_nblocks st reln forknum) →
     ∃ ev, e = external_error ev ∧ trace st' = trace st ++ [ev]).
Proof.
  intros Hrun.
  assert (He : entries st' = entries st).
  { destruct Hrun as [(b & s & Hrun)|Hrun].
    - by destruct (smgrextend_raise _ _ _ _ _ _ _ Hrun).
    - by destruct (smgrnblocks_raise _ _ _ _ _ Hrun). }
  split; [done|]. split.
  { intros q g. unfold cached_nblocks. by rewrite He. }
  intros [c Hc]. destruct (cached_nblocks_live _ _ _ _ Hc) as [d Hd].
  destruct Hrun as [(b & s & Hrun)|Hrun].
  - unfold smgrextend in Hrun.
    rewrite bind_eq, (deref_live _ _ _ Hd), bind_eq, call_eq in Hrun.
    destruct (ext_raises _ _ _).
    { simplify_eq. eexists. split; [done|]. done. }
    rewrite bind_eq, get_cached_nblocks_eq, cached_nblocks_set_trace, Hc in Hrun.
    set (st1 := set_trace _ st) in *.
    assert (Hs : is_Some (cached_nblocks st1 reln forknum)) by (exists c; exact Hc).
    destruct (decide (c = b)).
    + destruct (set_cached_nblocks_live reln forknum (uint32 (b + 1)) st1 Hs)
        as (s2 & Hset & _). by rewrite Hset in Hrun.
    + destruct (set_cached_nblocks_live reln forknum InvalidBlockNumber st1 Hs)
        as (s2 & Hset & _). by rewrite Hset in Hrun.
  - unfold smgrnblocks in Hrun.
    rewrite bind_eq, smgrnblocks_cached_eq, Hc in Hrun.
    assert (Hgo : (if decide (InvalidBlockNumber ≠ InvalidBlockNumber)
                   then ret InvalidBlockNumber
                   else d ← deref reln;
                        result ← call_nblocks env (reln_smgr d) reln forknum;
                        set_cached_nblocks reln forknum result;; ret result) st
                  = (Raise e, st')).
    { destruct (InRecovery st); [|exact Hrun].
      destruct (decide (c = InvalidBlockNumber)) as [->|Hne]; [exact Hrun|].
      rewrite decide_True in Hrun by done. by unfold ret in Hrun. }
    clear Hrun. rewrite decide_False in Hgo by (intros H; by apply H).
    rewrite bind_eq, (deref_live _ _ _ Hd), bind_eq in Hgo.
    unfold call_nblocks in Hgo. rewrite bind_eq in Hgo. unfold gets in Hgo.
    rewrite bind_eq, call_eq in Hgo.
    destruct (ext_raises _ _ _).
    { simplify_eq. eexists. split; [done|]. done. }
    unfold ret at 1 in Hgo. cbv beta iota in Hgo. rewrite bind_eq in Hgo.
    set (s1 := set_trace _ st) in *. set (v := uint32 _) in *.
    destruct (set_cached_nblocks_live reln forknum v s1) as (s2 & Hset & _).
    { unfold s1. rewrite cached_nblocks_set_trace, Hc. eauto. }
    rewrite Hset in Hgo. by unfold ret in Hgo.
Qed.

End BlockFailure.

(** ** The properties above on concrete states *)

Lemma well_sized_by_list st :
  forallb (fun pd => bool_decide (length (smgr_cached_nblocks pd.2) = length all_forks))
    (map_to_list (entries st)) = true →
  well_sized st.
Proof.
  intros Hall p d Hd. rewrite forallb_forall in Hall.
  apply (bool_decide_eq_true_1 _ (Hall (p, d)
           (proj1 (list_elem_of_In _ _) (proj2 (elem_of_map_to_list _ _ _) Hd)))).
Qed.

Lemma smgrclose_failure_keeps_handle_witness :
  let out := smgrclose failing_close_env 1%positive two_handles_state in
  entries (snd out) = entries two_handles_state
  ∧ unowned_relns (snd out) = unowned_relns two_handles_state
  ∧ registry_ok (snd out).
Proof.
  intros out.
  destruct (smgrclose_failure_keeps_handle failing_close_env
     two_handles_state 1%positive (fresh_entry quiet_env 5%N 1 0)
     (external_error (Ev_smgr_close smgr_md 1%positive VISIBILITYMAP_FORKNUM))
     (snd out)) as (_ & He & Hu & _ & Hok).
  - apply registry_ok_two_handles.
  - vm_compute. reflexivity.
  - vm_compute. reflexivity.
  - split; [exact He|]. split; [exact Hu|exact Hok].
Defined.

Lemma smgrclose_removes_handle_witness :
  let st' := snd (smgrclose quiet_env 1%positive owned_handle_state) in
  entries st' = delete 1%positive (entries owned_handle_state)
  ∧ registry_ok st'.
Proof.
  intros st'.
  destruct (smgrclose_removes_handle quiet_env owned_handle_state 1%positive
              (set_smgr_owner (Some 10%positive) (fresh_entry quiet_env 5%N 1 0)) st')
    as (He & _ & _ & _ & _ & _ & Hok).
  - apply registry_ok_owned_handle.
  - vm_compute. reflexivity.
  - vm_compute. reflexivity.
  - split; [exact He|exact Hok].
Defined.

Lemma smgropen_smgrclose_round_trip_witness :
  let st1 := snd (smgropen quiet_env 7%N 1 0 two_handles_state) in
  let st2 := snd (smgrclose quiet_env 3%positive st1) in
  entries st2 = entries two_handles_state
  ∧ unowned_relns st2 = unowned_relns two_handles_state.
Proof.
  intros st1 st2.
  destruct (smgropen_smgrclose_round_trip quiet_env 7%N 1 0 two_handles_state
              3%positive st1 st2) as (_ & He & Hu & _).
  - apply registry_ok_two_handles.
  - vm_compute. reflexivity.
  - vm_compute. reflexivity.
  - vm_compute. reflexivity.
  - split; [exact He|exact Hu].
Defined.

Lemma smgrcloseall_empties_registry_witness :
  ∃ st', smgrcloseall quiet_env owned_handle_state = (Ok tt, st')
    ∧ entries st' = ∅ ∧ unowned_relns st' = [] ∧ owner_cells st' = ∅.
Proof.
  destruct (proj2 (smgrcloseall_empties_registry quiet_env (fun _ _ _ _ => eq_refl)
                     owned_handle_state) registry_ok_owned_handle)
    as (st' & evs & Hrun & He & Hu & Hc & _).
  exists st'. split; [exact Hrun|]. split; [exact He|]. split; [exact Hu|exact Hc].
Defined.

Lemma smgrrelease_resets_counts_witness :
  ∃ st', smgrrelease quiet_env 1%positive sized_handle_state = (Ok tt, st')
    ∧ cached_nblocks st' 1%positive MAIN_FORKNUM = Some InvalidBlockNumber.
Proof.
  destruct (smgrrelease_resets_counts quiet_env (fun _ _ _ _ => eq_refl)
              sized_handle_state 1%positive
              (set_smgr_cached_nblocks [7; 7; InvalidBlockNumber; InvalidBlockNumber]
                 (fresh_entry quiet_env 5%N 1 0)))
    as (st' & Hrun & _ & _ & Hc & _).
  - vm_compute. reflexivity.
  - reflexivity.
  - exists st'. split; [exact Hrun|]. apply Hc. vm_compute.
    apply elem_of_cons. left. reflexivity.
Defined.

Lemma ProcessBarrierSmgrRelease_releases_witness :
  ∃ st', ProcessBarrierSmgrRelease quiet_env sized_handle_state = (Ok true, st')
    ∧ same_handles sized_handle_state st'.
Proof.
  destruct (proj2 (ProcessBarrierSmgrRelease_releases quiet_env
                     (fun _ _ _ _ => eq_refl) sized_handle_state))
    as (st' & evs & Hrun & _ & Hsame & _).
  - apply well_sized_by_list. vm_compute. reflexivity.
  - exists st'. split; [exact Hrun|exact Hsame].
Defined.

Lemma smgrclearowner_spec_witness :
  ∃ st', smgrclearowner 10%positive 1%positive owned_handle_state = (Ok tt, st')
    ∧ registry_ok st'
    ∧ unowned_relns st' = unowned_relns owned_handle_state ++ [1%positive].
Proof.
  destruct (smgrclearowner_spec 10%positive 1%positive owned_handle_state
              (set_smgr_owner (Some 10%positive) (fresh_entry quiet_env 5%N 1 0)))
    as (st' & Hrun & Hok & _ & Howner).
  - apply registry_ok_owned_handle.
  - vm_compute. reflexivity.
  - exists st'. split; [exact Hrun|]. split; [exact Hok|].
    apply Howner. reflexivity.
Defined.

Lemma smgrsetowner_smgrclearowner_round_trip_witness :
  ∃ st1 st2,
    smgrsetowner 10%positive 1%positive two_handles_state = (Ok tt, st1)
    ∧ smgrclearowner 10%positive 1%positive st1 = (Ok tt, st2)
    ∧ entries st2 = entries two_handles_state
    ∧ owner_cells st2 = owner_cells two_handles_state.
Proof.
  destruct (smgrsetowner_smgrclearowner_round_trip 10%positive 1%positive
              two_handles_state (fresh_entry quiet_env 5%N 1 0))
    as (st1 & st2 & H1 & H2 & He & Hc & _).
  - apply registry_ok_two_handles.
  - vm_compute. reflexivity.
  - reflexivity.
  - vm_compute. reflexivity.
  - exists st1, st2. split; [exact H1|]. split; [exact H2|].
    split; [exact He|exact Hc].
Defined.

Lemma smgrsetowner_transfer_witness :
  ∃ st1,
    smgrsetowner 11%positive 1%positive owned_handle_state = (Ok tt, st1)
    ∧ owner_cells st1 !! 10%positive = None
    ∧ owner_cells st1 !! 11%positive = Some 1%positive
    ∧ smgrclearowner 10%positive 1%positive st1 = (Ok tt, st1).
Proof.
  destruct (smgrsetowner_transfer 10%positive 11%positive 1%positive
              owned_handle_state
              (set_smgr_owner (Some 10%positive) (fresh_entry quiet_env 5%N 1 0)))
    as (st1 & Hrun & _ & Hold & Hnew & _ & _ & Hlater).
  - apply registry_ok_owned_handle.
  - vm_compute. reflexivity.
  - reflexivity.
  - discriminate.
  - vm_compute. reflexivity.
  - exists st1. split; [exact Hrun|]. split; [exact Hold|].
    split; [exact Hnew|exact Hlater].
Defined.

Lemma smgropen_failed_open_leaves_entry_witness :
  ∃ p st',
    smgropen failing_open_env 7%N 1 0 two_handles_state =
      (Raise (external_error (Ev_smgr_open (smgr failing_open_env 1 7%N) p)), st')
    ∧ entries st' =
        <[p := fresh_entry failing_open_env 7%N 1 0]> (entries two_handles_state)
    ∧ (p ∉ unowned_relns st').
Proof.
  destruct (smgropen_failed_open_leaves_entry failing_open_env 7%N 1 0
              two_handles_state)
    as (p & st' & Hrun & _ & He & _ & Hu & _).
  - apply registry_ok_two_handles.
  - vm_compute. reflexivity.
  - reflexivity.
  - exists p, st'. split; [exact Hrun|]. split; [exact He|exact Hu].
Defined.

Lemma AtEOXact_SMgr_only_unowned_witness :
  let out := AtEOXact_SMgr failing_close_env owned_handle_state in
  fst out = Raise (external_error
                     (Ev_smgr_close smgr_md 2%positive VISIBILITYMAP_FORKNUM))
  ∧ owner_cells (snd out) = owner_cells owned_handle_state
  ∧ registry_ok (snd out).
Proof.
  intros out. split; [vm_compute; reflexivity|].
  destruct (AtEOXact_SMgr_only_unowned failing_close_env owned_handle_state
              (fst out) (snd out)) as (_ & Hc & Hok & _).
  - apply registry_ok_owned_handle.
  - apply surjective_pairing.
  - split; [exact Hc|exact Hok].
Defined.

Lemma registry_ok_along_run_witness :
  registry_ok
    (run_routines quiet_env
       [Do_smgropen 5%N 1 0; Do_smgrsetowner 10%positive 1%positive;
        Do_smgropen 6%N 1 RELPERSISTENCE_PERMANENT;
        Do_smgrclearowner 10%positive 1%positive; Do_AtEOXact_SMgr]
       (initial_state false)).
Proof.
  apply (registry_ok_along_run quiet_env (fun _ _ _ => eq_refl)).
  cbn [disciplined_run disciplined].
  split; [exact I|]. split; [left; vm_compute; reflexivity|].
  split; [exact I|]. split; [exact I|]. split; [exact I|exact I].
Defined.

Lemma smgrtruncate_call_order_witness :
  let out := smgrtruncate quiet_env 1%positive [MAIN_FORKNUM; FSM_FORKNUM] 2 [5; 1]
               sized_handle_state in
  ∃ evs d rest,
    trace (snd out) = trace sized_handle_state ++ evs
    ∧ entries sized_handle_state !! 1%positive = Some d
    ∧ evs = Ev_DropRelFileNodeBuffers 1%positive [MAIN_FORKNUM; FSM_FORKNUM] 2 [5; 1]
            :: Ev_CacheInvalidateSmgr (smgr_rnode d) :: rest.
Proof.
  intros out.
  destruct (smgrtruncate_call_order quiet_env 1%positive
              [MAIN_FORKNUM; FSM_FORKNUM] 2 [5; 1] sized_handle_state
              (fst out) (snd out)) as (evs & Ht & _ & Hdone).
  - simpl. lia.
  - simpl. lia.
  - apply surjective_pairing.
  - destruct Hdone as (d & rest & Hd & Hevs).
    + vm_compute. reflexivity.
    + exists evs, d, rest. split; [exact Ht|]. split; [exact Hd|exact Hevs].
Defined.

Lemma recovery_extend_keeps_cache_witness :
  (let st1 := snd (smgrnblocks quiet_env 1%positive MAIN_FORKNUM recovery_handle_state) in
   let st2 := snd (smgrextend quiet_env 1%positive MAIN_FORKNUM 7 false st1) in
   smgrnblocks quiet_env 1%positive MAIN_FORKNUM st2 = (Ok (7 + 1), st2))
  ∧ (let st1 := snd (smgrnblocks full_fork_env 1%positive MAIN_FORKNUM
                       recovery_handle_state) in
     let st2 := snd (smgrextend full_fork_env 1%positive MAIN_FORKNUM 4294967294
                       false st1) in
     cached_nblocks st2 1%positive MAIN_FORKNUM = Some InvalidBlockNumber).
Proof.
  split.
  - intros st1 st2.
    destruct (recovery_extend_keeps_cache quiet_env 1%positive MAIN_FORKNUM false 7
                recovery_handle_state 7 st1 st2) as [Hhit _].
    + reflexivity.
    + vm_compute. reflexivity.
    + vm_compute. split; [discriminate|reflexivity].
    + vm_compute. reflexivity.
    + apply Hhit; [reflexivity|]. vm_compute. reflexivity.
  - intros st1 st2.
    destruct (recovery_extend_keeps_cache full_fork_env 1%positive MAIN_FORKNUM false
                4294967294 recovery_handle_state 4294967294 st1 st2) as [_ Hmiss].
    + reflexivity.
    + vm_compute. reflexivity.
    + vm_compute. split; [discriminate|reflexivity].
    + vm_compute. reflexivity.
    + apply Hmiss. right. reflexivity.
Defined.

Lemma AtEOXact_SMgr_twice_witness :
  ∃ st', AtEOXact_SMgr quiet_env owned_handle_state = (Ok tt, st')
    ∧ registry_ok st'
    ∧ AtEOXact_SMgr quiet_env st' = (Ok tt, st').
Proof.
  destruct (AtEOXact_SMgr_twice quiet_env (fun _ _ _ _ => eq_refl)
              owned_handle_state registry_ok_owned_handle)
    as (st' & Hrun & Hok & _ & _ & Hagain).
  exists st'. split; [exact Hrun|]. split; [exact Hok|exact Hagain].
Defined.

Lemma block_call_failure_keeps_cache_witness :
  let out := smgrextend failing_extend_env 1%positive MAIN_FORKNUM 7 false
               sized_handle_state in
  fst out = Raise (external_error (Ev_smgr_extend smgr_md 1%positive MAIN_FORKNUM 7 false))
  ∧ cached_nblocks (snd out) 1%positive MAIN_FORKNUM = Some 7.
Proof.
  intros out. split; [vm_compute; reflexivity|].
  destruct (block_call_failure_keeps_cache failing_extend_env 1%positive MAIN_FORKNUM
              sized_handle_state
              (external_error (Ev_smgr_extend smgr_md 1%positive MAIN_FORKNUM 7 false))
              (snd out)) as (_ & Hc & _).
  - left. exists 7, false. vm_compute. reflexivity.
  - rewrite Hc. vm_compute. reflexivity.
Defined.
